(** * Handmade JSON parser: tokenizer, parser, value model, query and
      mutation API, serializer and destroy, embedded from the C++ sources

    Sources embedded here:
    - rcc_common.cpp      : isWhiteSpace, isNumber, isFractionalPartZero,
                            copyString
    - rcc_json_parser.h   : json_token_type, json_token, JSON_TOKEN_STRING_SIZE
    - rcc_json_parser.cpp : tokenizeString, parseStringToJson
    - rcc_json_object.h   : json_type, json_value, json_member, json_object
    - rcc_json_object.cpp : getJsonValue, getJsonValueArraySize,
                            getJsonValueArrayMember, addJsonMember (all
                            overloads), addJsonMemberNull, deleteJsonMember,
                            destroyJsonMember, destroyJsonObject,
                            printJsonValue, printJsonMember, printJsonObject,
                            setJsonMemberValue, setJsonMemberValueNull

    Conventions.
    - A [const char*] input buffer is the list of bytes found in memory from
      the pointer on.  Reading an index that is not in the list is an access
      outside the memory the model knows about and stops the run with
      [OutOfBounds].
    - A C string ([const char*] key, token text, string payload) is a
      [string]; a pointer that may be null is an [option].
    - [float64_t] is the primitive binary64 [float]; the libc functions the
      code calls on it ([atof], [modf], the [printf] conversions) are
      parameters of the development.
    - The parser, lookup, insertion and the serializer work on the tree the
      pointers span ([json_value], [json_member_ptr]); [free] and dangling
      pointers only matter to delete and destroy, which are embedded over an
      explicit heap in module [Heap]; the insert operations are embedded a
      second time over that heap, with their calls of [malloc], in module
      [HeapInsert].
    - [malloc] is taken to return a block, but for [malloc(0)], which may
      return null.  It runs no constructor and no insert operation writes
      the [Next] of the member it allocates.  On the tree, what that [Next]
      leads to is the parameter [malloc_Next] of the insert operations and
      of the parser; on the heap it is the [Next] of the block handed out.
    - Diagnostics printed by [logOutput] are modelled only where they are
      the output of a print function. *)

From Stdlib Require Import List String Ascii Bool Arith ZArith Lia Uint63 PrimFloat.
From stdpp Require Import gmap strings.
Import ListNotations.
Open Scope string_scope.
Open Scope list_scope.
Open Scope nat_scope.

(** ** Runs that can go wrong *)

Inductive fault : Type :=
| OutOfBounds (index : nat)   (* buffer read outside the modelled memory *)
| TokenOverflow               (* write past json_token::String[64] *)
| NullDeref                   (* dereference of nullptr *)
| WildPointer                 (* dereference of a union member that is not active *)
| InvalidFree (address : nat) (* free or read of a block that is not allocated *)
| ArrayOverrun                (* read past the end of a buffer of json_value *)
| OutOfFuel.

Inductive run (A : Type) : Type :=
| Ok (a : A)
| Fault (f : fault).
Arguments Ok {A} a.
Arguments Fault {A} f.

Definition bind {A B : Type} (m : run A) (k : A -> run B) : run B :=
  match m with
  | Ok a => k a
  | Fault f => Fault f
  end.

Notation "'let*' p ':=' m 'in' k" := (bind m (fun p => k))
  (at level 10, p pattern, m at level 200, k at level 200,
   format "'[v' 'let*'  p  ':='  m  'in' '/' k ']'").

(** ** rcc_common.cpp *)

Definition NUL : ascii := "000"%char.
Definition DQUOTE : ascii := "034"%char.

Definition isWhiteSpace (Character : ascii) : bool :=
  (Character =? " ")%char || (Character =? "010")%char
  || (Character =? "009")%char || (Character =? "013")%char.

Definition isNumber (Character : ascii) : bool :=
  (Character =? "0")%char || (Character =? "1")%char || (Character =? "2")%char
  || (Character =? "3")%char || (Character =? "4")%char || (Character =? "5")%char
  || (Character =? "6")%char || (Character =? "7")%char || (Character =? "8")%char
  || (Character =? "9")%char.

(** ** rcc_json_parser.h *)

Definition JSON_TOKEN_STRING_SIZE : nat := 64.

Inductive json_token_type : Type :=
| JSON_TOKEN_INVALID
| JSON_TOKEN_OBJECT_START
| JSON_TOKEN_OBJECT_END
| JSON_TOKEN_ARRAY_START
| JSON_TOKEN_ARRAY_END
| JSON_TOKEN_COMMA
| JSON_TOKEN_COLON
| JSON_TOKEN_STRING
| JSON_TOKEN_NUMBER
| JSON_TOKEN_BOOLEAN
| JSON_TOKEN_NULL.

(** [json_token]: the fields are [Type] and [String] in the source. *)
Record json_token : Type := mkToken {
  TokenType : json_token_type;
  TokenString : string
}.

(** The constructor [json_token()]: invalid kind, text zeroed. *)
Definition json_token_init : json_token := mkToken JSON_TOKEN_INVALID EmptyString.

(** ** rcc_json_parser.cpp: tokenizeString *)

(** [while (p(InputJsonBuffer[BufferIndex])) BufferIndex++;] where [rest] is
    the memory from [&InputJsonBuffer[BufferIndex]] on.  Returns the index
    the loop stops at with the memory from there on. *)
Fixpoint scanWhile (p : ascii -> bool) (rest : list ascii) (BufferIndex : nat)
  : run (nat * list ascii) :=
  match rest with
  | [] => Fault (OutOfBounds BufferIndex)
  | c :: rest' =>
      if p c then scanWhile p rest' (S BufferIndex) else Ok (BufferIndex, rest)
  end.

(** [strncmp(&InputJsonBuffer[BufferIndex], Literal, strlen(Literal)) == 0]
    for a literal without NUL: bytes are compared until the first mismatch. *)
Fixpoint strncmpLiteral (rest : list ascii) (Literal : list ascii) (BufferIndex : nat)
  {struct Literal} : run bool :=
  match Literal with
  | [] => Ok true
  | l :: Literal' =>
      match rest with
      | [] => Fault (OutOfBounds BufferIndex)
      | c :: rest' =>
          if (c =? l)%char then strncmpLiteral rest' Literal' (S BufferIndex)
          else Ok false
      end
  end.

(** [strncpy(Result.String, &InputJsonBuffer[StartIndex], n);
     Result.String[n] = '\0';] into the 64-byte token buffer. *)
Definition copyTokenText (from : list ascii) (n : nat) : run string :=
  if n <? JSON_TOKEN_STRING_SIZE
  then Ok (string_of_list_ascii (firstn n from))
  else Fault TokenOverflow.

Definition isStringBody (c : ascii) : bool :=
  negb (c =? DQUOTE)%char && negb (c =? NUL)%char.

Definition isNumberBody (c : ascii) : bool :=
  isNumber c || (c =? ".")%char || (c =? "e")%char || (c =? "-")%char.

Definition simpleToken (t : json_token_type) : json_token := mkToken t EmptyString.

(** The body of [tokenizeString] on the memory [rest] found at
    [InputJsonBuffer + BufferIndex]; returns the token and the new
    [BufferIndex]. *)
Definition tokenizeAt (rest : list ascii) (BufferIndex : nat)
  : run (json_token * nat) :=
  let* (i, r) := scanWhile isWhiteSpace rest BufferIndex in
  match r with
  | [] => Fault (OutOfBounds i)
  | c :: r' =>
      if (c =? "{")%char then Ok (simpleToken JSON_TOKEN_OBJECT_START, S i)
      else if (c =? "}")%char then Ok (simpleToken JSON_TOKEN_OBJECT_END, S i)
      else if (c =? "[")%char then Ok (simpleToken JSON_TOKEN_ARRAY_START, S i)
      else if (c =? "]")%char then Ok (simpleToken JSON_TOKEN_ARRAY_END, S i)
      else if (c =? ",")%char then Ok (simpleToken JSON_TOKEN_COMMA, S i)
      else if (c =? ":")%char then Ok (simpleToken JSON_TOKEN_COLON, S i)
      else if (c =? DQUOTE)%char then
        (* StartIndex = S i *)
        let* (j, r2) := scanWhile isStringBody r' (S i) in
        match r2 with
        | [] => Fault (OutOfBounds j)
        | c2 :: _ =>
            if (c2 =? NUL)%char then Ok (json_token_init, j)
            else
              let* s := copyTokenText r' (j - S i) in
              Ok (mkToken JSON_TOKEN_STRING s, S j)
        end
      else if (c =? "-")%char || isNumber c then
        (* StartIndex = i *)
        let* (j, r2) := scanWhile isNumberBody r' (S i) in
        match r2 with
        | [] => Fault (OutOfBounds j)
        | c2 :: _ =>
            if (c2 =? NUL)%char then Ok (json_token_init, j)
            else
              let* s := copyTokenText r (j - i) in
              Ok (mkToken JSON_TOKEN_NUMBER s, j)
        end
      else if (c =? "t")%char then
        let* b := strncmpLiteral r (list_ascii_of_string "true") i in
        if b then Ok (mkToken JSON_TOKEN_BOOLEAN "true", i + 4)
        else Ok (json_token_init, i)
      else if (c =? "f")%char then
        let* b := strncmpLiteral r (list_ascii_of_string "false") i in
        if b then Ok (mkToken JSON_TOKEN_BOOLEAN "false", i + 5)
        else Ok (json_token_init, i)
      else if (c =? "n")%char then
        let* b := strncmpLiteral r (list_ascii_of_string "null") i in
        if b then Ok (mkToken JSON_TOKEN_NULL "null", i + 4)
        else Ok (json_token_init, i)
      else Ok (json_token_init, i)
  end.

Definition tokenizeString (InputJsonBuffer : list ascii) (BufferIndex : nat)
  : run (json_token * nat) :=
  tokenizeAt (skipn BufferIndex InputJsonBuffer) BufferIndex.

(** Literal JSON texts are written with ' for the double quote. *)
Definition dq (s : string) : list ascii :=
  map (fun c => if (c =? "'")%char then DQUOTE else c) (list_ascii_of_string s).

(** A C string: the bytes followed by the terminator. *)
Definition cstr (s : string) : list ascii := dq s ++ [NUL].


(** ** rcc_json_object.h: the value model *)

(** [json_value] is a tag ([json_type]) with a union; each constructor is
    named after its tag and carries the union member that tag selects.
    A [json_member] pointer is [nullptr] or points to a [json_member] with its [Key],
    [Value] and [Next].  The array of a [JSON_TYPE_ARRAY] value is its
    [Head] buffer; [Array.Size] is the length of the list. *)
Unset Elimination Schemes.
Inductive json_value : Type :=
| JSON_TYPE_INVALID
| JSON_TYPE_MEMBER (Child : json_member_ptr)
| JSON_TYPE_ARRAY (Head : list json_value)
| JSON_TYPE_STRING (payload : string)
| JSON_TYPE_NUMBER (Number : float)
| JSON_TYPE_BOOLEAN (Boolean : Z)
| JSON_TYPE_NULL
with json_member_ptr : Type :=
| nullptr
| Member (Key : string) (Value : json_value) (Next : json_member_ptr).
Set Elimination Schemes.

Record json_object : Type := mkObject {
  First : json_member_ptr;
  IsValid : bool
}.

(** The constructor [json_object()]. *)
Definition json_object_init : json_object := mkObject nullptr true.

(** ** rcc_json_object.cpp: lookup *)

(** [getJsonValue] on a [json_member] pointer. *)
Fixpoint getJsonValueMember (JsonMember : json_member_ptr) (Key : string)
  : json_value :=
  match JsonMember with
  | nullptr => JSON_TYPE_INVALID
  | Member k v next =>
      if String.eqb k Key then v
      else
        match v with
        | JSON_TYPE_MEMBER Child =>
            match getJsonValueMember Child Key with
            | JSON_TYPE_INVALID => getJsonValueMember next Key
            | Result => Result
            end
        | _ => getJsonValueMember next Key
        end
  end.

(** [getJsonValue] on a [json_object]. *)
Definition getJsonValue (JsonObject : json_object) (Key : string) : json_value :=
  match First JsonObject with
  | nullptr => JSON_TYPE_INVALID
  | JsonMember => getJsonValueMember JsonMember Key
  end.

Definition getJsonValueArraySize (JsonValue : json_value) : Z :=
  match JsonValue with
  | JSON_TYPE_ARRAY Head => Z.of_nat (length Head)
  | _ => (-1)%Z
  end.

(** [getJsonValueArrayMember]: [*(JsonValue.Array.Head[Index].Child)].  The
    result is the [json_member] copied out of the node ([Member k v next]).
    The code reads the union member [Child] of the element whatever its
    tag.  For a value that is not an array the code returns the
    default-constructed [json_member], whose [Key] is null; [nullptr]
    stands for it here, and it is not a member list: [getJsonValue] on
    the address of that result hands the null [Key] to [strcmp].  The
    properties below use the result on arrays only. *)
Definition getJsonValueArrayMember (JsonValue : json_value) (Index : Z)
  : run json_member_ptr :=
  match JsonValue with
  | JSON_TYPE_ARRAY Head =>
      if (Index <? 0)%Z then Fault (OutOfBounds 0)
      else
        match nth_error Head (Z.to_nat Index) with
        | None => Fault (OutOfBounds (Z.to_nat Index))
        | Some (JSON_TYPE_MEMBER nullptr) => Fault NullDeref
        | Some (JSON_TYPE_MEMBER m) => Ok m
        | Some _ => Fault WildPointer
        end
  | _ => Ok nullptr
  end.

(** ** rcc_json_object.cpp: insertion *)

(** The tail scan [while (CurrentMember->Next != nullptr) ...;
    CurrentMember->Next = NewMember], with the empty-object case
    [JsonObject->First = NewMember]. *)
Fixpoint appendMember (CurrentMember NewMember : json_member_ptr)
  : json_member_ptr :=
  match CurrentMember with
  | nullptr => NewMember
  | Member k v next => Member k v (appendMember next NewMember)
  end.

Section Insert.

(** [(json_member* )malloc(sizeof(json_member))]: the constructor of
    [json_member] is not run, and no insert operation writes
    [NewMember->Next] ([setJsonMemberSibling] is never called), so the
    [Next] of a new member is what the block handed out by [malloc] holds
    there.  [malloc_Next] is the member list that pointer leads to:
    [nullptr] when the block holds a null pointer there, as it does when
    [malloc] hands out zeroed memory.  One value stands for the blocks of
    all calls, which is what the code does only when it is [nullptr] or
    when a single member is allocated: the properties below either hold
    whatever it is or assume it to be [nullptr].  A block whose [Next] is
    not null and does not point to a member is covered by the heap model
    ([HeapInsert]), not here. *)
Variable malloc_Next : json_member_ptr.

(** What every overload does once its guard has passed: allocate a member,
    set its key and value, append it. *)
Definition appendNew (JsonObject : json_object) (Key : string) (v : json_value)
  : json_object :=
  mkObject (appendMember (First JsonObject) (Member Key v malloc_Next))
           (IsValid JsonObject).

(** The guard of every overload is [if (Key == '\0') return;]: the pointer
    [Key] itself is compared with the character constant of value zero,
    that is with the null pointer; the bytes of the key are not read.  So
    [Key] is a nullable pointer here: [None] is [nullptr], [Some k] points
    to the C string [k]. *)
Definition addJsonMemberString (JsonObject : json_object) (Key : option string)
  (s : string) : json_object :=
  match Key with
  | None => JsonObject
  | Some k => appendNew JsonObject k (JSON_TYPE_STRING s)
  end.

Definition addJsonMemberNumber (JsonObject : json_object) (Key : option string)
  (Number : float) : json_object :=
  match Key with
  | None => JsonObject
  | Some k => appendNew JsonObject k (JSON_TYPE_NUMBER Number)
  end.

Definition addJsonMemberBoolean (JsonObject : json_object) (Key : option string)
  (Boolean : Z) : json_object :=
  match Key with
  | None => JsonObject
  | Some k => appendNew JsonObject k (JSON_TYPE_BOOLEAN Boolean)
  end.

(** [addJsonMember] with a [json_member] pointer [Child].  The code stores
    the pointer; here the new member holds the list [Child] points to,
    which is the same as long as that list is not the list of
    [JsonObject] itself and is not changed afterwards through another
    pointer. *)
Definition addJsonMemberChild (JsonObject : json_object) (Key : option string)
  (Child : json_member_ptr) : json_object :=
  match Child, Key with
  | nullptr, _ => JsonObject
  | _, None => JsonObject
  | _, Some k => appendNew JsonObject k (JSON_TYPE_MEMBER Child)
  end.

(** [addJsonMember] with a [json_object] pointer [Child]. *)
Definition addJsonMemberObject (JsonObject : json_object) (Key : option string)
  (Child : json_object) : json_object :=
  match First Child, Key with
  | nullptr, _ => JsonObject
  | _, None => JsonObject
  | _, Some _ => addJsonMemberChild JsonObject Key (First Child)
  end.

(** [addJsonMember] with [ArrayHead] and [ArraySize]: a new buffer of
    [ArraySize] values is filled by [memcpy] from [ArrayHead], and
    [Array.Size] is [ArraySize].  [ArrayHead] is [None] for a null
    pointer, else the values the buffer it points to holds; when these
    are fewer than [ArraySize], [memcpy] reads past the end of that
    buffer. *)
Definition addJsonMemberArray (JsonObject : json_object) (Key : option string)
  (ArrayHead : option (list json_value)) (ArraySize : nat) : run json_object :=
  match ArrayHead, Key with
  | None, _ => Ok JsonObject
  | _, None => Ok JsonObject
  | Some values, Some k =>
      if ArraySize <=? length values
      then Ok (appendNew JsonObject k (JSON_TYPE_ARRAY (firstn ArraySize values)))
      else Fault ArrayOverrun
  end.

Definition addJsonMemberNull (JsonObject : json_object) (Key : option string)
  : json_object :=
  match Key with
  | None => JsonObject
  | Some k => appendNew JsonObject k JSON_TYPE_NULL
  end.

End Insert.

(** ** rcc_json_parser.cpp: parseStringToJson *)

Section Parser.

(** [atof] of libc, and whether [malloc(0)] returns a null pointer (the C
    standard leaves it to the implementation). *)
Variable atof : string -> float.
Variable malloc_zero_is_null : bool.

(** What the [Next] of a [json_member] block handed out by [malloc] leads
    to (section [Insert]). *)
Variable malloc_Next : json_member_ptr.

(** [Result.IsValid = false]. *)
Definition invalidate (Result : json_object) : json_object :=
  mkObject (First Result) false.

(** [strncmp(Token.String, "true", 4) == 0] as a [bool32_t]. *)
Definition isTrueText (s : string) : Z :=
  if String.prefix "true" s then 1%Z else 0%Z.

(** [(json_value* )malloc(sizeof(json_value) * ArraySize)] once the second
    pass has stored [values] in it. *)
Definition mallocValueArray (ArraySize : nat) (values : list json_value)
  : option (list json_value) :=
  match ArraySize with
  | 0 => if malloc_zero_is_null then None else Some values
  | S _ => Some values
  end.

(** The four loops of [parseStringToJson], each turn and each call taking
    one unit of [fuel]:
    - [parseLoop]: [while (BufferIndex < InputJsonFileSize)], which is the
      function itself;
    - [parseMembers]: [while (Token.Type != JSON_TOKEN_OBJECT_END)], left
      only by [return] since [Token] is not assigned in it;
    - [countArray]: the first pass over an array, [None] when it returns
      through its [default] case;
    - [fillArray]: the second pass, which stores the values. *)
Fixpoint parseLoop (fuel : nat) (InputJsonBuffer : list ascii)
  (InputJsonFileSize BufferIndex : nat) {struct fuel}
  : run (json_object * nat) :=
  match fuel with
  | 0 => Fault OutOfFuel
  | S fuel =>
      if BufferIndex <? InputJsonFileSize then
        let* (Token, i) := tokenizeString InputJsonBuffer BufferIndex in
        match TokenType Token with
        | JSON_TOKEN_INVALID => Ok (json_object_init, i)
        | JSON_TOKEN_OBJECT_START =>
            parseMembers fuel InputJsonBuffer InputJsonFileSize i json_object_init
        | _ => parseLoop fuel InputJsonBuffer InputJsonFileSize i
        end
      else Ok (json_object_init, BufferIndex)
  end

with parseMembers (fuel : nat) (InputJsonBuffer : list ascii)
  (InputJsonFileSize BufferIndex : nat) (Result : json_object) {struct fuel}
  : run (json_object * nat) :=
  match fuel with
  | 0 => Fault OutOfFuel
  | S fuel =>
      let* (KeyToken, i1) := tokenizeString InputJsonBuffer BufferIndex in
      match TokenType KeyToken with
      | JSON_TOKEN_STRING =>
          let Key := Some (TokenString KeyToken) in
          let* (ColonToken, i2) := tokenizeString InputJsonBuffer i1 in
          match TokenType ColonToken with
          | JSON_TOKEN_COLON =>
              let* (added, i4) :=
                let* (ValueToken, i3) := tokenizeString InputJsonBuffer i2 in
                match TokenType ValueToken with
                | JSON_TOKEN_OBJECT_START =>
                    let* (Child, i) :=
                      parseLoop fuel InputJsonBuffer InputJsonFileSize (i3 - 1) in
                    Ok (Some (addJsonMemberObject malloc_Next Result Key Child), i)
                | JSON_TOKEN_ARRAY_START =>
                    (* LocalStoreBufferIndex = i3 *)
                    let* (counted, i) :=
                      let* (ArrayToken, i) := tokenizeString InputJsonBuffer i3 in
                      countArray fuel InputJsonBuffer InputJsonFileSize ArrayToken i 0 in
                    match counted with
                    | None => Ok (None, i)
                    | Some ArraySize =>
                        (* BufferIndex = LocalStoreBufferIndex *)
                        let* (filled, i) :=
                          let* (ArrayToken, i) := tokenizeString InputJsonBuffer i3 in
                          fillArray fuel InputJsonBuffer InputJsonFileSize ArrayToken i [] in
                        match filled with
                        | None => Ok (None, i)
                        | Some values =>
                            let* Result' :=
                              addJsonMemberArray malloc_Next Result Key
                                (mallocValueArray ArraySize values) ArraySize in
                            Ok (Some Result', i)
                        end
                    end
                | JSON_TOKEN_STRING =>
                    Ok (Some (addJsonMemberString malloc_Next Result Key
                                (TokenString ValueToken)), i3)
                | JSON_TOKEN_NUMBER =>
                    Ok (Some (addJsonMemberNumber malloc_Next Result Key
                                (atof (TokenString ValueToken))), i3)
                | JSON_TOKEN_BOOLEAN =>
                    Ok (Some (addJsonMemberBoolean malloc_Next Result Key
                                (isTrueText (TokenString ValueToken))), i3)
                | JSON_TOKEN_NULL =>
                    Ok (Some (addJsonMemberNull malloc_Next Result Key), i3)
                | _ => Ok (None, i3)
                end in
              match added with
              | None => Ok (invalidate Result, i4)
              | Some Result' =>
                  let* (CommaToken, i5) := tokenizeString InputJsonBuffer i4 in
                  match TokenType CommaToken with
                  | JSON_TOKEN_COMMA =>
                      parseMembers fuel InputJsonBuffer InputJsonFileSize i5 Result'
                  | _ => Ok (Result', i5)
                  end
              end
          | _ => Ok (invalidate Result, i2)
          end
      | _ => Ok (invalidate Result, i1)
      end
  end

with countArray (fuel : nat) (InputJsonBuffer : list ascii)
  (InputJsonFileSize : nat) (ArrayToken : json_token) (BufferIndex ArraySize : nat)
  {struct fuel} : run (option nat * nat) :=
  match fuel with
  | 0 => Fault OutOfFuel
  | S fuel =>
      match TokenType ArrayToken with
      | JSON_TOKEN_ARRAY_END => Ok (Some ArraySize, BufferIndex)
      | JSON_TOKEN_OBJECT_START =>
          let* (_, i) :=
            parseLoop fuel InputJsonBuffer InputJsonFileSize (BufferIndex - 1) in
          let* (ArrayToken, i) := tokenizeString InputJsonBuffer i in
          countArray fuel InputJsonBuffer InputJsonFileSize ArrayToken i (S ArraySize)
      | JSON_TOKEN_NUMBER | JSON_TOKEN_BOOLEAN | JSON_TOKEN_NULL
      | JSON_TOKEN_STRING =>
          let* (ArrayToken, i) := tokenizeString InputJsonBuffer BufferIndex in
          countArray fuel InputJsonBuffer InputJsonFileSize ArrayToken i (S ArraySize)
      | JSON_TOKEN_COMMA =>
          let* (ArrayToken, i) := tokenizeString InputJsonBuffer BufferIndex in
          countArray fuel InputJsonBuffer InputJsonFileSize ArrayToken i ArraySize
      | _ => Ok (None, BufferIndex)
      end
  end

with fillArray (fuel : nat) (InputJsonBuffer : list ascii)
  (InputJsonFileSize : nat) (ArrayToken : json_token) (BufferIndex : nat)
  (ValueArray : list json_value) {struct fuel}
  : run (option (list json_value) * nat) :=
  match fuel with
  | 0 => Fault OutOfFuel
  | S fuel =>
      let next (i : nat) (ValueArray : list json_value) :=
        let* (ArrayToken, i) := tokenizeString InputJsonBuffer i in
        fillArray fuel InputJsonBuffer InputJsonFileSize ArrayToken i ValueArray in
      match TokenType ArrayToken with
      | JSON_TOKEN_ARRAY_END => Ok (Some ValueArray, BufferIndex)
      | JSON_TOKEN_OBJECT_START =>
          let* (TempObject, i) :=
            parseLoop fuel InputJsonBuffer InputJsonFileSize (BufferIndex - 1) in
          next i (ValueArray ++ [JSON_TYPE_MEMBER (First TempObject)])
      | JSON_TOKEN_NUMBER =>
          next BufferIndex
               (ValueArray ++ [JSON_TYPE_NUMBER (atof (TokenString ArrayToken))])
      | JSON_TOKEN_BOOLEAN =>
          next BufferIndex
               (ValueArray ++ [JSON_TYPE_BOOLEAN (isTrueText (TokenString ArrayToken))])
      | JSON_TOKEN_NULL => next BufferIndex (ValueArray ++ [JSON_TYPE_NULL])
      | JSON_TOKEN_STRING =>
          next BufferIndex (ValueArray ++ [JSON_TYPE_STRING (TokenString ArrayToken)])
      | JSON_TOKEN_COMMA => next BufferIndex ValueArray
      | _ => Ok (None, BufferIndex)
      end
  end.

(** [parseStringToJson].  The loops are given two units of fuel for each
    byte of the buffer and eight more; a run that is cut short shows as
    [OutOfFuel].  That does not happen as long as no opening brace lies at
    or after the declared length (lemma [parseStringToJson_returns]).
    Otherwise the code itself may not terminate: when the declared length
    stops before an opening brace met inside an array, the nested call
    returns at once and the first pass reads the same brace again. *)
Definition parseFuel (InputJsonBuffer : list ascii) : nat :=
  2 * length InputJsonBuffer + 8.

Definition parseStringToJson (InputJsonBuffer : list ascii)
  (InputJsonFileSize BufferIndex : nat) : run (json_object * nat) :=
  parseLoop (parseFuel InputJsonBuffer) InputJsonBuffer InputJsonFileSize BufferIndex.

(** Parsing a text handed over as a C string with its [strlen]. *)
Definition parseText (text : string) : run (json_object * nat) :=
  parseStringToJson (cstr text) (length (dq text)) 0.

End Parser.

(** ** rcc_json_object.cpp: the serializer *)

Section Print.

(** libc on [float64_t]: the fractional part [modf] returns, and the text
    [printf] writes for ["%d"] applied to [(int32_t)Number] and for
    ["%.4lf"] applied to [Number]. *)
Variable modf_fractional : float -> float.
Variable printf_d_int32 : float -> string.
Variable printf_4lf : float -> string.

(** [fabs(FractionalPart) < 1e-9]; the literal is the binary64 nearest to
    1e-9. *)
Definition isFractionalPartZero (Number : float) : bool :=
  PrimFloat.ltb (PrimFloat.abs (modf_fractional Number)) 0x1.12e0be826d695p-30%float.

Definition newline : string := String "010"%char EmptyString.
Definition quoted (s : string) : string :=
  String DQUOTE (s +:+ String DQUOTE EmptyString).

(** What the print functions write on standard output.  [printJsonLoop] is
    the [while (true)] loop of [printJsonMember]; [printJsonMember] is
    handed a [json_member] by value, which its callers obtain by
    dereferencing a pointer. *)
Fixpoint printJsonValue (JsonValue : json_value) : run string :=
  match JsonValue with
  | JSON_TYPE_MEMBER Child =>
      match Child with
      | nullptr => Fault NullDeref
      | _ => let* s := printJsonLoop Child in Ok ("{" +:+ s +:+ "}")
      end
  | JSON_TYPE_ARRAY Head =>
      let* s :=
        (fix printElements (JsonArray : list json_value) : run string :=
           match JsonArray with
           | [] => Ok EmptyString
           | v :: JsonArray' =>
               let* a := printJsonValue v in
               match JsonArray' with
               | [] => Ok a
               | _ => let* b := printElements JsonArray' in Ok (a +:+ ", " +:+ b)
               end
           end) Head in
      Ok ("[" +:+ s +:+ "]")
  | JSON_TYPE_STRING s => Ok (quoted s)
  | JSON_TYPE_NUMBER Number =>
      if isFractionalPartZero Number then Ok (printf_d_int32 Number)
      else Ok (printf_4lf Number)
  | JSON_TYPE_BOOLEAN Boolean =>
      Ok (if (Boolean =? 0)%Z then "false" else "true")
  | JSON_TYPE_NULL => Ok "null"
  | JSON_TYPE_INVALID => Ok ("[ERROR] Invalid json_type found." +:+ newline)
  end

with printJsonLoop (TargetMember : json_member_ptr) : run string :=
  match TargetMember with
  | nullptr => Fault NullDeref
  | Member k v next =>
      let* s := printJsonValue v in
      match next with
      | nullptr => Ok (quoted k +:+ " : " +:+ s)
      | _ =>
          let* r := printJsonLoop next in
          Ok (quoted k +:+ " : " +:+ s +:+ ", " +:+ r)
      end
  end.

Definition printJsonMember (Member : json_member_ptr) : run string :=
  let* s := printJsonLoop Member in Ok ("{" +:+ s +:+ "}").

Definition printJsonObject (Object : json_object) : run string :=
  match First Object with
  | nullptr => Ok ("This JSON object is empty." +:+ newline)
  | m =>
      if negb (IsValid Object) then Ok ("This JSON object is not valid." +:+ newline)
      else let* s := printJsonMember m in Ok (s +:+ newline)
  end.

End Print.

(** ** rcc_json_object.cpp over an explicit heap: delete and destroy *)

Module Heap.

(** A pointer is [None] ([nullptr]) or the address of a block. *)
Definition ptr : Type := option nat.

(** [json_value] with its pointers. *)
Inductive value : Type :=
| V_INVALID
| V_MEMBER (Child : ptr)
| V_ARRAY (Head : ptr) (Size : nat)
| V_STRING (chars : ptr)
| V_NUMBER (Number : float)
| V_BOOLEAN (Boolean : Z)
| V_NULL.

(** [json_member]. *)
Record member : Type := mkMember {
  Key : ptr;
  Value : value;
  Next : ptr
}.

(** What [malloc] has handed out: a [json_member], the bytes of a C string
    ([copyString]), or a buffer of [json_value]. *)
Inductive block : Type :=
| BMember (m : member)
| BChars (s : string)
| BValues (vs : list value).

(** The allocated blocks and the addresses passed to [free], in order. *)
Record state : Type := mkState {
  blocks : gmap nat block;
  freed : list nat
}.

Record object : Type := mkObject {
  First : ptr;
  IsValid : bool
}.

(** [p->...] for a [json_member] pointer. *)
Definition loadMember (st : state) (p : ptr) : run member :=
  match p with
  | None => Fault NullDeref
  | Some a =>
      match blocks st !! a with
      | Some (BMember m) => Ok m
      | _ => Fault (InvalidFree a)
      end
  end.

(** Reading the C string a [const char] pointer points to. *)
Definition loadChars (st : state) (p : ptr) : run string :=
  match p with
  | None => Fault NullDeref
  | Some a =>
      match blocks st !! a with
      | Some (BChars s) => Ok s
      | _ => Fault (InvalidFree a)
      end
  end.

(** [free(p)]; [free(nullptr)] does nothing. *)
Definition free (st : state) (p : ptr) : run state :=
  match p with
  | None => Ok st
  | Some a =>
      match blocks st !! a with
      | Some _ => Ok (mkState (delete a (blocks st)) (freed st ++ [a]))
      | None => Fault (InvalidFree a)
      end
  end.

(** [p->Next = n]. *)
Definition storeNext (st : state) (p : ptr) (n : ptr) : run state :=
  let* m := loadMember st p in
  match p with
  | None => Fault NullDeref
  | Some a =>
      Ok (mkState (<[a := BMember (mkMember (Key m) (Value m) n)]> (blocks st))
                  (freed st))
  end.

(** [destroyJsonMember]: [NextTarget = TargetMember->Next] is read before
    the loop tests [TargetMember]; [destroyLoop] is the [while] loop. *)
Fixpoint destroyJsonMember (fuel : nat) (st : state) (JsonMember : ptr)
  {struct fuel} : run state :=
  match fuel with
  | 0 => Fault OutOfFuel
  | S fuel =>
      let* m := loadMember st JsonMember in
      destroyLoop fuel st JsonMember (Next m)
  end

with destroyLoop (fuel : nat) (st : state) (TargetMember NextTarget : ptr)
  {struct fuel} : run state :=
  match fuel with
  | 0 => Fault OutOfFuel
  | S fuel =>
      match TargetMember with
      | None => Ok st
      | Some _ =>
          let* m := loadMember st TargetMember in
          let* st :=
            match Value m with
            | V_MEMBER Child => destroyJsonMember fuel st Child
            | _ => Ok st
            end in
          let* m := loadMember st TargetMember in
          let* st := free st (Key m) in
          let* st := free st TargetMember in
          match NextTarget with
          | None => destroyLoop fuel st None None
          | Some _ =>
              let* n := loadMember st NextTarget in
              destroyLoop fuel st NextTarget (Next n)
          end
      end
  end.

(** [destroyJsonObject] on a [json_object] pointer. *)
Definition destroyJsonObject (fuel : nat) (st : state) (JsonObject : option object)
  : run (state * option object) :=
  match JsonObject with
  | None => Ok (st, None)
  | Some o =>
      let* st := destroyJsonMember fuel st (First o) in
      Ok (st, Some (mkObject None (IsValid o)))
  end.

(** [deleteJsonMember] on a [json_member] pointer. *)
Fixpoint deleteJsonMemberList (fuel : nat) (st : state) (TargetMember : ptr)
  (DeleteKey : string) {struct fuel} : run (state * bool) :=
  match fuel with
  | 0 => Fault OutOfFuel
  | S fuel =>
      let* m := loadMember st TargetMember in
      match Next m with
      | None => Ok (st, false)
      | Some _ =>
          let* n := loadMember st (Next m) in
          let* k := loadChars st (Key n) in
          if String.eqb k DeleteKey then
            (* ToDelete = Next m *)
            let* st := storeNext st TargetMember (Next n) in
            let* st := destroyJsonMember fuel st (Next m) in
            Ok (st, true)
          else
            let* (st, Result) :=
              match Value n with
              | V_MEMBER Child => deleteJsonMemberList fuel st Child DeleteKey
              | _ => Ok (st, false)
              end in
            if Result then Ok (st, true)
            else
              (* TargetMember = TargetMember->Next *)
              let* m := loadMember st TargetMember in
              deleteJsonMemberList fuel st (Next m) DeleteKey
      end
  end.

(** [deleteJsonMember] on a [json_object] reference. *)
Definition deleteJsonMember (fuel : nat) (st : state) (JsonObject : object)
  (DeleteKey : string) : run (state * object * bool) :=
  match First JsonObject with
  | None => Ok (st, JsonObject, true)
  | Some _ =>
      let* m := loadMember st (First JsonObject) in
      let* k := loadChars st (Key m) in
      if String.eqb k DeleteKey then
        (* Temp = JsonObject.First *)
        let JsonObject' := mkObject (Next m) (IsValid JsonObject) in
        let* st := destroyJsonMember fuel st (First JsonObject) in
        Ok (st, JsonObject', true)
      else
        let* (st, Result) :=
          deleteJsonMemberList fuel st (First JsonObject) DeleteKey in
        Ok (st, JsonObject, Result)
  end.

(** *** Trees laid out in memory

    A [json_member] list as it sits in the heap: every node with the
    address of its block and of its key, every string payload and array
    buffer with its address. *)
Unset Elimination Schemes.
Inductive lvalue : Type :=
| L_INVALID
| L_MEMBER (Child : lmember)
| L_ARRAY (Head : nat) (elements : list lvalue)
| L_STRING (address : nat) (s : string)
| L_NUMBER (Number : float)
| L_BOOLEAN (Boolean : Z)
| L_NULL
with lmember : Type :=
| L_nullptr
| L_Node (address keyAddress : nat) (k : string) (v : lvalue) (next : lmember).
Set Elimination Schemes.

Definition ptrOf (m : lmember) : ptr :=
  match m with
  | L_nullptr => None
  | L_Node a _ _ _ _ => Some a
  end.

Definition valueOf (v : lvalue) : value :=
  match v with
  | L_INVALID => V_INVALID
  | L_MEMBER Child => V_MEMBER (ptrOf Child)
  | L_ARRAY Head elements => V_ARRAY (Some Head) (length elements)
  | L_STRING a _ => V_STRING (Some a)
  | L_NUMBER n => V_NUMBER n
  | L_BOOLEAN b => V_BOOLEAN b
  | L_NULL => V_NULL
  end.

(** The blocks a laid-out tree occupies. *)
Fixpoint blocksOfValue (v : lvalue) : list (nat * block) :=
  match v with
  | L_MEMBER Child => blocksOfMember Child
  | L_ARRAY Head elements =>
      (Head, BValues (map valueOf elements))
      :: (fix go (l : list lvalue) : list (nat * block) :=
            match l with
            | [] => []
            | e :: l' => blocksOfValue e ++ go l'
            end) elements
  | L_STRING a s => [(a, BChars s)]
  | _ => []
  end
with blocksOfMember (m : lmember) : list (nat * block) :=
  match m with
  | L_nullptr => []
  | L_Node a ka k v next =>
      (a, BMember (mkMember (Some ka) (valueOf v) (ptrOf next)))
      :: (ka, BChars k) :: blocksOfValue v ++ blocksOfMember next
  end.

(** The tree the layout spans. *)
Fixpoint eraseValue (v : lvalue) : json_value :=
  match v with
  | L_INVALID => JSON_TYPE_INVALID
  | L_MEMBER Child => JSON_TYPE_MEMBER (eraseMember Child)
  | L_ARRAY _ elements => JSON_TYPE_ARRAY (map eraseValue elements)
  | L_STRING _ s => JSON_TYPE_STRING s
  | L_NUMBER n => JSON_TYPE_NUMBER n
  | L_BOOLEAN b => JSON_TYPE_BOOLEAN b
  | L_NULL => JSON_TYPE_NULL
  end
with eraseMember (m : lmember) : json_member_ptr :=
  match m with
  | L_nullptr => nullptr
  | L_Node _ _ k v next => Member k (eraseValue v) (eraseMember next)
  end.

(** The nodes reached from a member through [Next] and through the [Child]
    of a [JSON_TYPE_MEMBER] value, in the order destroy meets them: for
    each node its child list first, then its key and the node itself, then
    its sibling. *)
Fixpoint destroyOrder (m : lmember) : list nat :=
  match m with
  | L_nullptr => []
  | L_Node a ka _ v next =>
      match v with
      | L_MEMBER Child => destroyOrder Child
      | _ => []
      end ++ ka :: a :: destroyOrder next
  end.

(** The addresses of all [json_member] nodes of a layout, those held as
    elements of arrays included, and of all string payloads. *)
Fixpoint memberNodesOfValue (v : lvalue) : list nat :=
  match v with
  | L_MEMBER Child => memberNodes Child
  | L_ARRAY _ elements =>
      (fix go (l : list lvalue) : list nat :=
         match l with
         | [] => []
         | e :: l' => memberNodesOfValue e ++ go l'
         end) elements
  | _ => []
  end
with memberNodes (m : lmember) : list nat :=
  match m with
  | L_nullptr => []
  | L_Node a _ _ v next => a :: memberNodesOfValue v ++ memberNodes next
  end.

Fixpoint stringPayloads (m : lmember) : list nat :=
  match m with
  | L_nullptr => []
  | L_Node _ _ _ v next =>
      match v with
      | L_STRING a _ => [a]
      | L_MEMBER Child => stringPayloads Child
      | _ => []
      end ++ stringPayloads next
  end.

(** The number of nodes destroy visits, which bounds the fuel it needs. *)
Fixpoint destroySize (m : lmember) : nat :=
  match m with
  | L_nullptr => 0
  | L_Node _ _ _ v next =>
      S (match v with
         | L_MEMBER Child => destroySize Child
         | _ => 0
         end + destroySize next)
  end.

(** A heap that holds the layout: its blocks sit at pairwise different
    addresses and the heap has each of them. *)
Definition holds (h : gmap nat block) (m : lmember) : Prop :=
  List.NoDup (map fst (blocksOfMember m))
  /\ forall a b, In (a, b) (blocksOfMember m) -> h !! a = Some b.

Definition heapOf (m : lmember) : gmap nat block :=
  list_to_map (blocksOfMember m).

End Heap.

(** ** Reference definitions the properties are stated against *)

(** Depth-first precedence, written as the order of a traversal: a member,
    then the members of its nested object, then its siblings. *)
Fixpoint preorder (m : json_member_ptr) : list (string * json_value) :=
  match m with
  | nullptr => []
  | Member k v next =>
      (k, v) :: match v with
                | JSON_TYPE_MEMBER Child => preorder Child
                | _ => []
                end ++ preorder next
  end.

(** The value of the first member with the key in that order. *)
Definition firstMatch (m : json_member_ptr) (Key : string) : json_value :=
  match List.find (fun kv => String.eqb (fst kv) Key) (preorder m) with
  | Some (_, v) => v
  | None => JSON_TYPE_INVALID
  end.

Definition isInvalid (v : json_value) : bool :=
  match v with
  | JSON_TYPE_INVALID => true
  | _ => false
  end.

(** No member reached by lookup holds a value of the invalid kind; the
    insert operations never store one. *)
Definition membersValid (m : json_member_ptr) : Prop :=
  forall k v, In (k, v) (preorder m) -> isInvalid v = false.

(** A reading of unsigned decimal integers, to run examples that need an
    [atof]. *)
Definition digitValue (c : ascii) : Z := (Z.of_nat (nat_of_ascii c) - 48)%Z.

Fixpoint readDigits (s : string) (acc : Z) : Z :=
  match s with
  | EmptyString => acc
  | String c s' => readDigits s' (10 * acc + digitValue c)%Z
  end.

Definition atofDigits (s : string) : float :=
  PrimFloat.of_uint63 (Uint63.of_Z (readDigits s 0)).

Module HeapSpec.
Import Heap.

(** [Next] of the node a layout pointer points to. *)
Definition nextPtr (m : lmember) : ptr :=
  match m with
  | L_nullptr => None
  | L_Node _ _ _ _ next => ptrOf next
  end.

(** The heap once the addresses of [l] have been freed one after the
    other. *)
Definition freeAll (l : list nat) (h : gmap nat block) : gmap nat block :=
  fold_left (fun h a => delete a h) l h.

(** The member nodes reached through [Next] and through the [Child] of
    [JSON_TYPE_MEMBER] values, and their keys. *)
Fixpoint reachableNodes (m : lmember) : list nat :=
  match m with
  | L_nullptr => []
  | L_Node a _ _ v next =>
      a :: match v with
           | L_MEMBER Child => reachableNodes Child
           | _ => []
           end ++ reachableNodes next
  end.

Fixpoint reachableKeys (m : lmember) : list nat :=
  match m with
  | L_nullptr => []
  | L_Node _ ka _ v next =>
      ka :: match v with
            | L_MEMBER Child => reachableKeys Child
            | _ => []
            end ++ reachableKeys next
  end.

(** Every [JSON_TYPE_MEMBER] value met on the way has a non-null [Child];
    [addJsonMember] refuses a null child. *)
Fixpoint childrenNonNull (m : lmember) : bool :=
  match m with
  | L_nullptr => true
  | L_Node _ _ _ v next =>
      match v with
      | L_MEMBER L_nullptr => false
      | L_MEMBER Child => childrenNonNull Child
      | _ => true
      end && childrenNonNull next
  end.

(** The addresses of all blocks of a layout. *)
Definition addresses (m : lmember) : list nat := map fst (blocksOfMember m).

End HeapSpec.

(** ** JSON texts

    The texts of the round-trip property: JSON values without exponents
    and without escapes, with the tree each text denotes.  [limit] bounds
    the number of bytes of a string or a number. *)

Definition lit (s : string) : list ascii := list_ascii_of_string s.

Definition blank (w : list ascii) : Prop := forallb isWhiteSpace w = true.

(** A character of a string: no double quote, no backslash, no control
    character. *)
Definition isPlainChar (c : ascii) : bool :=
  negb (c =? DQUOTE)%char && negb (c =? "092")%char && (32 <=? nat_of_ascii c).

Definition isDigit (c : ascii) : bool :=
  (48 <=? nat_of_ascii c) && (nat_of_ascii c <=? 57).

Section Grammar.

Variable atof : string -> float.
Variable limit : nat.

Definition plainText (s : list ascii) : Prop :=
  forallb isPlainChar s = true /\ length s < limit.

(** An optional minus sign, digits, and an optional fraction. *)
Definition NumberText (s : list ascii) : Prop :=
  exists sign int frac,
    s = sign ++ int ++ frac
    /\ (sign = [] \/ sign = ["-"%char])
    /\ int <> [] /\ forallb isDigit int = true
    /\ (frac = [] \/ exists d, frac = "."%char :: d /\ d <> [] /\ forallb isDigit d = true)
    /\ length s < limit.

Inductive ValueText : list ascii -> json_value -> Prop :=
| VT_string s :
    plainText s ->
    ValueText (DQUOTE :: s ++ [DQUOTE]) (JSON_TYPE_STRING (string_of_list_ascii s))
| VT_number s :
    NumberText s ->
    ValueText s (JSON_TYPE_NUMBER (atof (string_of_list_ascii s)))
| VT_true : ValueText (lit "true") (JSON_TYPE_BOOLEAN 1)
| VT_false : ValueText (lit "false") (JSON_TYPE_BOOLEAN 0)
| VT_null : ValueText (lit "null") JSON_TYPE_NULL
| VT_object s m :
    MembersText s m ->
    ValueText ("{"%char :: s ++ ["}"%char]) (JSON_TYPE_MEMBER m)
| VT_array s vs :
    ElementsText s vs ->
    ValueText ("["%char :: s ++ ["]"%char]) (JSON_TYPE_ARRAY vs)

with MembersText : list ascii -> json_member_ptr -> Prop :=
| MT_none w : blank w -> MembersText w nullptr
| MT_last w1 k w2 w3 sv v w4 :
    blank w1 -> plainText k -> blank w2 -> blank w3 -> ValueText sv v -> blank w4 ->
    MembersText (w1 ++ DQUOTE :: k ++ DQUOTE :: w2 ++ ":"%char :: w3 ++ sv ++ w4)
                (Member (string_of_list_ascii k) v nullptr)
| MT_more w1 k w2 w3 sv v w4 s' next :
    blank w1 -> plainText k -> blank w2 -> blank w3 -> ValueText sv v -> blank w4 ->
    MembersText s' next -> next <> nullptr ->
    MembersText (w1 ++ DQUOTE :: k ++ DQUOTE :: w2 ++ ":"%char :: w3 ++ sv ++ w4
                    ++ ","%char :: s')
                (Member (string_of_list_ascii k) v next)

with ElementsText : list ascii -> list json_value -> Prop :=
| ET_none w : blank w -> ElementsText w []
| ET_last w1 sv v w2 :
    blank w1 -> ValueText sv v -> blank w2 ->
    ElementsText (w1 ++ sv ++ w2) [v]
| ET_more w1 sv v w2 s' vs :
    blank w1 -> ValueText sv v -> blank w2 -> ElementsText s' vs -> vs <> [] ->
    ElementsText (w1 ++ sv ++ w2 ++ ","%char :: s') (v :: vs).

(** A JSON object text, white space allowed in front. *)
Definition ObjectText (text : list ascii) (m : json_member_ptr) : Prop :=
  exists w s, blank w /\ text = w ++ s /\ ValueText s (JSON_TYPE_MEMBER m).

End Grammar.

Scheme ValueText_mut := Minimality for ValueText Sort Prop
  with MembersText_mut := Minimality for MembersText Sort Prop
  with ElementsText_mut := Minimality for ElementsText Sort Prop.
Combined Scheme JsonText_mutind from ValueText_mut, MembersText_mut, ElementsText_mut.

(** The trees the parser can build and print back: no object without
    members, no array inside an array, and no empty array where
    [malloc(0)] returns null. *)
Definition isArrayValue (v : json_value) : bool :=
  match v with
  | JSON_TYPE_ARRAY _ => true
  | _ => false
  end.

Section Supported.

Variable malloc_zero_is_null : bool.

Fixpoint supportedValue (v : json_value) : bool :=
  match v with
  | JSON_TYPE_MEMBER Child =>
      match Child with
      | nullptr => false
      | _ => supportedMembers Child
      end
  | JSON_TYPE_ARRAY Head =>
      (negb malloc_zero_is_null || negb (length Head =? 0))
      && (fix all (l : list json_value) : bool :=
            match l with
            | [] => true
            | e :: l' => negb (isArrayValue e) && supportedValue e && all l'
            end) Head
  | _ => true
  end
with supportedMembers (m : json_member_ptr) : bool :=
  match m with
  | nullptr => true
  | Member _ v next => supportedValue v && supportedMembers next
  end.

Definition supportedElements (l : list json_value) : bool :=
  forallb (fun e => negb (isArrayValue e) && supportedValue e) l.

End Supported.

(** The first byte of a number token. *)
Definition startsNumber (c : ascii) : bool := (c =? "-")%char || isNumber c.

(** What may follow a value: a byte that neither continues a number nor
    ends the data. *)
Definition delimited (rest : list ascii) : Prop :=
  exists d r, rest = d :: r /\ isNumberBody d = false /\ (d =? NUL)%char = false.

(** ** Names for the parts of [parseMembers], [countArray] and
    [fillArray] *)

Section ParserParts.

Variable atof : string -> float.
Variable malloc_zero_is_null : bool.
Variable malloc_Next : json_member_ptr.

(** [ArrayToken = tokenizeString(...)] followed by the loop test, in the
    first and in the second pass. *)
Definition countFrom (fuel : nat) (InputJsonBuffer : list ascii)
  (InputJsonFileSize BufferIndex ArraySize : nat) : run (option nat * nat) :=
  let* (ArrayToken, i) := tokenizeString InputJsonBuffer BufferIndex in
  countArray atof malloc_zero_is_null malloc_Next fuel InputJsonBuffer InputJsonFileSize
    ArrayToken i ArraySize.

Definition fillFrom (fuel : nat) (InputJsonBuffer : list ascii)
  (InputJsonFileSize BufferIndex : nat) (ValueArray : list json_value)
  : run (option (list json_value) * nat) :=
  let* (ArrayToken, i) := tokenizeString InputJsonBuffer BufferIndex in
  fillArray atof malloc_zero_is_null malloc_Next fuel InputJsonBuffer InputJsonFileSize
    ArrayToken i ValueArray.

(** The dispatch on the value token in [parseMembers], from the cursor
    after the colon. *)
Definition valueStep (fuel : nat) (InputJsonBuffer : list ascii)
  (InputJsonFileSize : nat) (Result : json_object) (Key : option string)
  (i2 : nat) : run (option json_object * nat) :=
  let* (ValueToken, i3) := tokenizeString InputJsonBuffer i2 in
  match TokenType ValueToken with
  | JSON_TOKEN_OBJECT_START =>
      let* (Child, i) :=
        parseLoop atof malloc_zero_is_null malloc_Next fuel InputJsonBuffer
          InputJsonFileSize (i3 - 1) in
      Ok (Some (addJsonMemberObject malloc_Next Result Key Child), i)
  | JSON_TOKEN_ARRAY_START =>
      let* (counted, i) := countFrom fuel InputJsonBuffer InputJsonFileSize i3 0 in
      match counted with
      | None => Ok (None, i)
      | Some ArraySize =>
          let* (filled, i) := fillFrom fuel InputJsonBuffer InputJsonFileSize i3 [] in
          match filled with
          | None => Ok (None, i)
          | Some values =>
              let* Result' :=
                addJsonMemberArray malloc_Next Result Key
                  (mallocValueArray malloc_zero_is_null ArraySize values) ArraySize in
              Ok (Some Result', i)
          end
      end
  | JSON_TOKEN_STRING =>
      Ok (Some (addJsonMemberString malloc_Next Result Key (TokenString ValueToken)), i3)
  | JSON_TOKEN_NUMBER =>
      Ok (Some (addJsonMemberNumber malloc_Next Result Key
                  (atof (TokenString ValueToken))), i3)
  | JSON_TOKEN_BOOLEAN =>
      Ok (Some (addJsonMemberBoolean malloc_Next Result Key
                  (isTrueText (TokenString ValueToken))), i3)
  | JSON_TOKEN_NULL =>
      Ok (Some (addJsonMemberNull malloc_Next Result Key), i3)
  | _ => Ok (None, i3)
  end.

(** What parsing does on the text of a value, of the members of an object
    and of the elements of an array, stated for every position of the text
    in the buffer. *)
Definition valueParsed (sv : list ascii) (v : json_value) : Prop :=
  supportedValue malloc_zero_is_null v = true ->
  (forall fuel buf size Result k i w rest,
     blank w -> delimited rest -> skipn i buf = w ++ sv ++ rest ->
     i + length w + length sv <= size -> 2 * length sv <= fuel ->
     valueStep fuel buf size Result (Some k) i
     = Ok (Some (appendNew malloc_Next Result k v), i + length w + length sv))
  /\ (isArrayValue v = false ->
      forall fuel buf size i w rest,
        blank w -> delimited rest -> skipn i buf = w ++ sv ++ rest ->
        i + length w + length sv <= size -> 2 * length sv <= fuel ->
        (forall n, countFrom (S fuel) buf size i n
                   = countFrom fuel buf size (i + length w + length sv) (S n))
        /\ (forall acc, fillFrom (S fuel) buf size i acc
                        = fillFrom fuel buf size (i + length w + length sv)
                            (acc ++ [v]))).

Definition membersParsed (s : list ascii) (m : json_member_ptr) : Prop :=
  m <> nullptr -> supportedMembers malloc_zero_is_null m = true ->
  forall fuel buf size Result i rest,
    skipn i buf = s ++ "}"%char :: rest ->
    i + length s + 1 <= size -> 2 * length s <= fuel ->
    parseMembers atof malloc_zero_is_null malloc_Next fuel buf size i Result
    = Ok (mkObject (appendMember (First Result) m) (IsValid Result),
          i + length s + 1).

Definition elementsParsed (s : list ascii) (vs : list json_value) : Prop :=
  supportedElements malloc_zero_is_null vs = true ->
  forall fuel buf size i rest,
    skipn i buf = s ++ "]"%char :: rest ->
    i + length s + 1 <= size -> 2 * length s + 2 <= fuel ->
    (forall n, countFrom fuel buf size i n
               = Ok (Some (n + length vs), i + length s + 1))
    /\ (forall acc, fillFrom fuel buf size i acc
                    = Ok (Some (acc ++ vs), i + length s + 1)).

End ParserParts.

Section PrintParts.

Variable modf_fractional : float -> float.
Variable printf_d_int32 : float -> string.
Variable printf_4lf : float -> string.

(** The loop of [printJsonValue] over the elements of an array, by name. *)
Fixpoint printElements (JsonArray : list json_value) : run string :=
  match JsonArray with
  | [] => Ok EmptyString
  | v :: JsonArray' =>
      let* a := printJsonValue modf_fractional printf_d_int32 printf_4lf v in
      match JsonArray' with
      | [] => Ok a
      | _ => let* b := printElements JsonArray' in Ok (a +:+ ", " +:+ b)
      end
  end.

End PrintParts.

(** ** The serializer of the specification

    Section 4.4 of the specification: an object is rendered as braces
    around its comma-separated ["key" : value] pairs in list order, an
    array as brackets around its comma-separated elements, a number
    without a decimal point when its fractional part is within 1e-9 of
    zero and with four fractional digits otherwise, booleans, null and
    strings as literal or quoted text.  The separators are those of the
    code; a value of the invalid kind has no rendering. *)

Section Rendering.

Variable modf_fractional : float -> float.
Variable printf_d_int32 : float -> string.
Variable printf_4lf : float -> string.

(** The text of a number. *)
Definition printedNumber (Number : float) : string :=
  if isFractionalPartZero modf_fractional Number
  then printf_d_int32 Number
  else printf_4lf Number.

Fixpoint renderValue (v : json_value) : string :=
  match v with
  | JSON_TYPE_INVALID => EmptyString
  | JSON_TYPE_MEMBER Child => "{" +:+ String.concat ", " (renderPairs Child) +:+ "}"
  | JSON_TYPE_ARRAY Head => "[" +:+ String.concat ", " (map renderValue Head) +:+ "]"
  | JSON_TYPE_STRING s => quoted s
  | JSON_TYPE_NUMBER Number => printedNumber Number
  | JSON_TYPE_BOOLEAN Boolean => if (Boolean =? 0)%Z then "false" else "true"
  | JSON_TYPE_NULL => "null"
  end
with renderPairs (m : json_member_ptr) : list string :=
  match m with
  | nullptr => []
  | Member k v next => (quoted k +:+ " : " +:+ renderValue v) :: renderPairs next
  end.

(** An object on a line of its own. *)
Definition renderObject (m : json_member_ptr) : string :=
  ("{" +:+ String.concat ", " (renderPairs m) +:+ "}") +:+ newline.

End Rendering.

(** A reading of unsigned decimal numbers with a fraction, to run
    examples: the digits read as an integer, divided by the power of ten
    of the number of fraction digits.  Both are exact in binary64 for the short numbers
    of the examples, which makes the quotient the binary64 nearest to the
    decimal number. *)
Fixpoint readDecimal (s : string) (acc scale : Z) (fraction : bool) : Z * Z :=
  match s with
  | EmptyString => (acc, scale)
  | String c s' =>
      if (c =? ".")%char then readDecimal s' acc scale true
      else readDecimal s' (10 * acc + digitValue c)%Z
             (if fraction then (10 * scale)%Z else scale) fraction
  end.

Definition atofDecimal (s : string) : float :=
  let '(n, d) := readDecimal s 0 1 false in
  PrimFloat.div (PrimFloat.of_uint63 (Uint63.of_Z n)) (PrimFloat.of_uint63 (Uint63.of_Z d)).

(** A run that made no access to the input buffer outside the modelled
    memory and whose cursor, when it returns, is at most [bound]. *)
Definition inBounds {A : Type} (bound : nat) (r : run (A * nat)) : Prop :=
  match r with
  | Ok (_, i) => i <= bound
  | Fault (OutOfBounds _) => False
  | Fault _ => True
  end.

(** [r'] is the run [r] again, unless [r] stopped on an access outside
    the memory. *)
Definition covers {A : Type} (r r' : run A) : Prop :=
  (forall k, r <> Fault (OutOfBounds k)) -> r' = r.

(** A run that returned with its cursor between [lo] and [hi], or stopped
    on a fault of the code, but was not cut short. *)
Definition advances {A : Type} (lo hi : nat) (r : run (A * nat)) : Prop :=
  match r with
  | Ok (_, i) => lo <= i /\ i <= hi
  | Fault OutOfFuel => False
  | Fault _ => True
  end.

(** No opening brace in memory at or after the declared length. *)
Definition braceFree (buf : list ascii) (size : nat) : Prop :=
  forall j r, size <= j -> skipn j buf <> "{"%char :: r.

(** ** Reference definitions for the further properties *)

(** What a run returns beside its cursor has the property [P]. *)
Definition yields {A : Type} (P : A -> Prop) (r : run (A * nat)) : Prop :=
  match r with
  | Ok (a, _) => P a
  | Fault _ => True
  end.

(** The text of a string token: the bytes between two double quotes, none
    of them a double quote or NUL, fewer than the token buffer has. *)
Definition isStringText (s : string) : bool :=
  (length (list_ascii_of_string s) <? JSON_TOKEN_STRING_SIZE)
  && forallb isStringBody (list_ascii_of_string s).

(** A [bool32_t] that holds the result of a comparison. *)
Definition isBool32 (b : Z) : bool := (b =? 0)%Z || (b =? 1)%Z.

(** The shape of the trees [parseStringToJson] builds.  [element] tells
    whether the value is an element of an array: only there may the
    [Child] of a [JSON_TYPE_MEMBER] value be null, and no array is found
    there. *)
Fixpoint parsedValue (element : bool) (v : json_value) : bool :=
  match v with
  | JSON_TYPE_INVALID => false
  | JSON_TYPE_MEMBER Child =>
      match Child with
      | nullptr => element
      | _ => parsedMembers Child
      end
  | JSON_TYPE_ARRAY Head =>
      negb element
      && (fix all (l : list json_value) : bool :=
            match l with
            | [] => true
            | e :: l' => parsedValue true e && all l'
            end) Head
  | JSON_TYPE_STRING s => isStringText s
  | JSON_TYPE_NUMBER _ => true
  | JSON_TYPE_BOOLEAN b => isBool32 b
  | JSON_TYPE_NULL => true
  end
with parsedMembers (m : json_member_ptr) : bool :=
  match m with
  | nullptr => true
  | Member k v next => isStringText k && parsedValue false v && parsedMembers next
  end.

(** The members of an object, along [Next]. *)
Fixpoint members (m : json_member_ptr) : list (string * json_value) :=
  match m with
  | nullptr => []
  | Member k v next => (k, v) :: members next
  end.

(** The second pass over an array does what the first pass has counted:
    [counted] is the run of the first pass started with the count [n],
    [filled] the run of the second pass started with the values [acc]. *)
Definition passesAgree (n : nat) (acc : list json_value)
  (counted : run (option nat * nat))
  (filled : run (option (list json_value) * nat)) : Prop :=
  match counted with
  | Ok (Some ArraySize, j) =>
      exists vs, filled = Ok (Some (acc ++ vs), j) /\ ArraySize = n + length vs
  | Ok (None, j) => filled = Ok (None, j)
  | Fault f => filled = Fault f
  end.

Module DeleteSpec.
Import Heap HeapSpec.

(** A member list followed by another, along [Next]. *)
Fixpoint chain (front rest : lmember) : lmember :=
  match front with
  | L_nullptr => rest
  | L_Node a ka k v next => L_Node a ka k v (chain next rest)
  end.

(** The keys [deleteJsonMember] on a [json_member] pointer compares with
    the key to delete, in order, when it is handed a member whose [Next]
    is [m]: the key of each member from [m] on and, for a member that
    holds a nested object, the keys that the same search finds from the
    first member of that object on, this first member left out. *)
Fixpoint searchedKeys (m : lmember) : list string :=
  match m with
  | L_nullptr => []
  | L_Node _ _ k v next =>
      k :: match v with
           | L_MEMBER (L_Node _ _ _ _ cnext) => searchedKeys cnext
           | _ => []
           end ++ searchedKeys next
  end.

(** The members after the first one. *)
Definition rest (m : lmember) : lmember :=
  match m with
  | L_nullptr => L_nullptr
  | L_Node _ _ _ _ next => next
  end.

(** The keys [deleteJsonMember] on a [json_object] compares with: the key
    of the first member, then those of the search from the first member
    on. *)
Definition objectKeys (m : lmember) : list string :=
  match m with
  | L_nullptr => []
  | L_Node _ _ k _ next => k :: searchedKeys next
  end.

End DeleteSpec.

(** ** Trees that are read back from what the serializer prints *)

(** The bytes of a key or a string that the parser reads back as they
    are. *)
Definition isPlainText (s : string) : bool :=
  forallb isPlainChar (list_ascii_of_string s)
  && (length (list_ascii_of_string s) <? JSON_TOKEN_STRING_SIZE).

Section Printable.

Variable atof : string -> float.
Variable modf_fractional : float -> float.
Variable printf_d_int32 : float -> string.
Variable printf_4lf : float -> string.

Local Abbreviation printedNumber' :=
  (printedNumber modf_fractional printf_d_int32 printf_4lf).

(** A number that [printf] writes as a plain decimal number which [atof]
    reads back as the same number. *)
Definition readBack (Number : float) : Prop :=
  NumberText JSON_TOKEN_STRING_SIZE (list_ascii_of_string (printedNumber' Number))
  /\ atof (printedNumber' Number) = Number.

Fixpoint printableValue (v : json_value) : Prop :=
  match v with
  | JSON_TYPE_INVALID => False
  | JSON_TYPE_MEMBER Child => printableMembers Child
  | JSON_TYPE_ARRAY Head =>
      (fix all (l : list json_value) : Prop :=
         match l with
         | [] => True
         | e :: l' => printableValue e /\ all l'
         end) Head
  | JSON_TYPE_STRING s => isPlainText s = true
  | JSON_TYPE_NUMBER Number => readBack Number
  | JSON_TYPE_BOOLEAN b => isBool32 b = true
  | JSON_TYPE_NULL => True
  end
with printableMembers (m : json_member_ptr) : Prop :=
  match m with
  | nullptr => True
  | Member k v next =>
      isPlainText k = true /\ printableValue v /\ printableMembers next
  end.

End Printable.

(** No [JSON_TYPE_MEMBER] value of the tree has a null [Child], in the
    members and in the arrays. *)
Fixpoint nullFreeValue (v : json_value) : bool :=
  match v with
  | JSON_TYPE_MEMBER Child =>
      match Child with
      | nullptr => false
      | _ => nullFreeMembers Child
      end
  | JSON_TYPE_ARRAY Head =>
      (fix all (l : list json_value) : bool :=
         match l with
         | [] => true
         | e :: l' => nullFreeValue e && all l'
         end) Head
  | _ => true
  end
with nullFreeMembers (m : json_member_ptr) : bool :=
  match m with
  | nullptr => true
  | Member _ v next => nullFreeValue v && nullFreeMembers next
  end.

(** What a print function does on a tree: it returns, on a tree without
    null [Child], or it stops on the dereference of a null [Child]. *)
Definition printsOrNull (free : bool) (r : run string) : Prop :=
  match r with
  | Ok _ => free = true
  | Fault f => f = NullDeref /\ free = false
  end.

(** The object of the tree model that a laid-out member list spans. *)
Definition erasedObject (m : Heap.lmember) (valid : bool) : json_object :=
  mkObject (Heap.eraseMember m) valid.

(** ** rcc_json_object.cpp over the heap: insertion

    [addJsonMember] with its calls of [malloc], [copyString] and
    [setJsonMemberValue].  What [malloc] returns is an argument: the
    address of the new block, or null, and for a [json_member] the
    contents [junk] that the block happens to hold. *)

Module HeapInsert.
Import Heap HeapSpec DeleteSpec.

(** [(json_member* )malloc(sizeof(json_member))]. *)
Definition mallocMember (st : state) (NewMember : ptr) (junk : member) : state :=
  match NewMember with
  | None => st
  | Some a => mkState (<[a := BMember junk]> (blocks st)) (freed st)
  end.

(** [copyString] of rcc_common.cpp: null for a null [Src] and when
    [malloc] fails, else the address [Dest] of the copy. *)
Definition copyString (st : state) (Src : option string) (Dest : ptr) : state * ptr :=
  match Src with
  | None => (st, None)
  | Some s =>
      match Dest with
      | None => (st, None)
      | Some a => (mkState (<[a := BChars s]> (blocks st)) (freed st), Some a)
      end
  end.

(** [Member->Key = k;] and [Member->Value.Type = ...; Member->Value... = ...;],
    the stores of every [setJsonMemberValue]; [Member->Next] is not
    written by any of them. *)
Definition storeKey (st : state) (Member : ptr) (k : ptr) : run state :=
  let* m := loadMember st Member in
  match Member with
  | None => Fault NullDeref
  | Some a =>
      Ok (mkState (<[a := BMember (mkMember k (Value m) (Next m))]> (blocks st))
                  (freed st))
  end.

Definition storeValue (st : state) (Member : ptr) (v : value) : run state :=
  let* m := loadMember st Member in
  match Member with
  | None => Fault NullDeref
  | Some a =>
      Ok (mkState (<[a := BMember (mkMember (Key m) v (Next m))]> (blocks st))
                  (freed st))
  end.

Definition setJsonMemberValueString (st : state) (Member : ptr) (Key : option string)
  (KeyMemory : ptr) (s : option string) (StringMemory : ptr) : run state :=
  let '(st, k) := copyString st Key KeyMemory in
  let* st := storeKey st Member k in
  let '(st, payload) := copyString st s StringMemory in
  storeValue st Member (V_STRING payload).

Definition setJsonMemberValueNumber (st : state) (Member : ptr) (Key : option string)
  (KeyMemory : ptr) (Number : float) : run state :=
  let '(st, k) := copyString st Key KeyMemory in
  let* st := storeKey st Member k in
  storeValue st Member (V_NUMBER Number).

Definition setJsonMemberValueBoolean (st : state) (Member : ptr) (Key : option string)
  (KeyMemory : ptr) (Boolean : Z) : run state :=
  let '(st, k) := copyString st Key KeyMemory in
  let* st := storeKey st Member k in
  storeValue st Member (V_BOOLEAN Boolean).

Definition setJsonMemberValueNull (st : state) (Member : ptr) (Key : option string)
  (KeyMemory : ptr) : run state :=
  let '(st, k) := copyString st Key KeyMemory in
  let* st := storeKey st Member k in
  storeValue st Member V_NULL.

Definition setJsonMemberValueChild (st : state) (Member : ptr) (Key : option string)
  (KeyMemory : ptr) (Child : ptr) : run state :=
  let '(st, k) := copyString st Key KeyMemory in
  let* st := storeKey st Member k in
  storeValue st Member (V_MEMBER Child).

(** [while (CurrentMember->Next != nullptr) CurrentMember = CurrentMember->Next;] *)
Fixpoint lastMember (fuel : nat) (st : state) (CurrentMember : ptr) {struct fuel}
  : run ptr :=
  match fuel with
  | 0 => Fault OutOfFuel
  | S fuel =>
      let* m := loadMember st CurrentMember in
      match Next m with
      | None => Ok CurrentMember
      | Some _ => lastMember fuel st (Next m)
      end
  end.

(** The end of every overload: the new member becomes the first one of an
    object without members, else the [Next] of the last one. *)
Definition linkMember (fuel : nat) (st : state) (JsonObject : object) (NewMember : ptr)
  : run (state * object) :=
  match First JsonObject with
  | None => Ok (st, mkObject NewMember (IsValid JsonObject))
  | Some _ =>
      let* CurrentMember := lastMember fuel st (First JsonObject) in
      let* st := storeNext st CurrentMember NewMember in
      Ok (st, JsonObject)
  end.

Definition addJsonMemberString (fuel : nat) (st : state) (JsonObject : object)
  (Key : option string) (s : option string)
  (NewMember : ptr) (junk : member) (KeyMemory StringMemory : ptr)
  : run (state * object) :=
  match Key with
  | None => Ok (st, JsonObject)
  | Some _ =>
      let st := mallocMember st NewMember junk in
      let* st := setJsonMemberValueString st NewMember Key KeyMemory s StringMemory in
      linkMember fuel st JsonObject NewMember
  end.

Definition addJsonMemberNumber (fuel : nat) (st : state) (JsonObject : object)
  (Key : option string) (Number : float)
  (NewMember : ptr) (junk : member) (KeyMemory : ptr) : run (state * object) :=
  match Key with
  | None => Ok (st, JsonObject)
  | Some _ =>
      let st := mallocMember st NewMember junk in
      let* st := setJsonMemberValueNumber st NewMember Key KeyMemory Number in
      linkMember fuel st JsonObject NewMember
  end.

Definition addJsonMemberBoolean (fuel : nat) (st : state) (JsonObject : object)
  (Key : option string) (Boolean : Z)
  (NewMember : ptr) (junk : member) (KeyMemory : ptr) : run (state * object) :=
  match Key with
  | None => Ok (st, JsonObject)
  | Some _ =>
      let st := mallocMember st NewMember junk in
      let* st := setJsonMemberValueBoolean st NewMember Key KeyMemory Boolean in
      linkMember fuel st JsonObject NewMember
  end.

Definition addJsonMemberNull (fuel : nat) (st : state) (JsonObject : object)
  (Key : option string)
  (NewMember : ptr) (junk : member) (KeyMemory : ptr) : run (state * object) :=
  match Key with
  | None => Ok (st, JsonObject)
  | Some _ =>
      let st := mallocMember st NewMember junk in
      let* st := setJsonMemberValueNull st NewMember Key KeyMemory in
      linkMember fuel st JsonObject NewMember
  end.

(** [addJsonMember] with a [json_member] pointer [Child]: the pointer is
    stored. *)
Definition addJsonMemberChild (fuel : nat) (st : state) (JsonObject : object)
  (Key : option string) (Child : ptr)
  (NewMember : ptr) (junk : member) (KeyMemory : ptr) : run (state * object) :=
  match Child, Key with
  | None, _ => Ok (st, JsonObject)
  | _, None => Ok (st, JsonObject)
  | Some _, Some _ =>
      let st := mallocMember st NewMember junk in
      let* st := setJsonMemberValueChild st NewMember Key KeyMemory Child in
      linkMember fuel st JsonObject NewMember
  end.

(** [addJsonMember] with a pointer to the [json_object] [Child]. *)
Definition addJsonMemberObject (fuel : nat) (st : state) (JsonObject : object)
  (Key : option string) (Child : object)
  (NewMember : ptr) (junk : member) (KeyMemory : ptr) : run (state * object) :=
  match First Child, Key with
  | None, _ => Ok (st, JsonObject)
  | _, None => Ok (st, JsonObject)
  | Some _, Some _ =>
      addJsonMemberChild fuel st JsonObject Key (First Child) NewMember junk KeyMemory
  end.

(** The number of members of a list, along [Next]. *)
Fixpoint listLength (m : lmember) : nat :=
  match m with
  | L_nullptr => 0
  | L_Node _ _ _ _ next => S (listLength next)
  end.

(** What an insert operation has done when it returns: the object is the
    list [m] followed by the member [new], laid out in the heap, nothing
    was freed, and the blocks outside the new layout are those of [h]. *)
Definition inserted (h : gmap nat block) (m : lmember) (valid : bool) (new : lmember)
  (r : run (state * object)) : Prop :=
  exists st,
    r = Ok (st, mkObject (ptrOf (chain m new)) valid)
    /\ freed st = []
    /\ holds (blocks st) (chain m new)
    /\ forall x, ~ In x (addresses (chain m new)) -> blocks st !! x = h !! x.

(** The address of the last member of a list. *)
Fixpoint lastAddress (m : lmember) : ptr :=
  match m with
  | L_nullptr => None
  | L_Node a _ _ _ next =>
      match next with
      | L_nullptr => Some a
      | _ => lastAddress next
      end
  end.

End HeapInsert.

(** A run that stopped did so on a read at or after the end [top] of the
    memory, on a write past the token buffer, or was cut short: not on a
    null or wild pointer. *)
Definition faultsOnRead {A : Type} (top : nat) (r : run A) : Prop :=
  match r with
  | Ok _ => True
  | Fault f =>
      f = TokenOverflow \/ f = OutOfFuel \/ exists k, f = OutOfBounds k /\ top <= k
  end.
(** * Properties *)

(** ** Lookup *)

Lemma find_app_first {A : Type} (f : A -> bool) (l1 l2 : list A) :
  List.find f (l1 ++ l2) =
  match List.find f l1 with
  | Some x => Some x
  | None => List.find f l2
  end.
Proof.
  induction l1 as [|a l1 IH]; simpl; [reflexivity|].
  destruct (f a); [reflexivity | exact IH].
Qed.

Lemma find_some_in {A : Type} (f : A -> bool) (l : list A) (x : A) :
  List.find f l = Some x -> In x l.
Proof. intros H. apply List.find_some in H. tauto. Qed.

(** Induction on a member list that also gives the hypothesis for the
    nested object of a [JSON_TYPE_MEMBER] value. *)
Lemma member_list_ind (P : json_member_ptr -> Prop) :
  P nullptr ->
  (forall k Child next, P Child -> P next ->
     P (Member k (JSON_TYPE_MEMBER Child) next)) ->
  (forall k v next, (forall Child, v <> JSON_TYPE_MEMBER Child) -> P next ->
     P (Member k v next)) ->
  forall m, P m.
Proof.
  intros Hnull Hchild Hother.
  fix IH 1. intros [|k v next].
  - exact Hnull.
  - destruct v as [|Child| | | | |];
      try (apply Hother; [intros c; discriminate | apply IH]).
    apply Hchild; apply IH.
Qed.

(** Induction along the [Next] pointers only. *)
Lemma member_next_ind (P : json_member_ptr -> Prop) :
  P nullptr ->
  (forall k v next, P next -> P (Member k v next)) ->
  forall m, P m.
Proof.
  intros Hnull Hnext. fix IH 1. intros [|k v next].
  - exact Hnull.
  - apply Hnext. apply IH.
Qed.

Lemma membersValid_next k v next :
  membersValid (Member k v next) -> membersValid next.
Proof.
  intros H k' v' Hin. apply (H k' v'). simpl. right.
  apply in_or_app. right. exact Hin.
Qed.

Lemma membersValid_child k Child next :
  membersValid (Member k (JSON_TYPE_MEMBER Child) next) -> membersValid Child.
Proof.
  intros H k' v' Hin. apply (H k' v'). simpl. right.
  apply in_or_app. left. exact Hin.
Qed.

Lemma firstMatch_valid m Key :
  membersValid m ->
  forall k v, List.find (fun kv => String.eqb (fst kv) Key) (preorder m) = Some (k, v) ->
  isInvalid v = false.
Proof.
  intros Hv k v Hf. apply (Hv k v). eapply find_some_in. exact Hf.
Qed.

Lemma getJsonValueMember_firstMatch m Key :
  membersValid m -> getJsonValueMember m Key = firstMatch m Key.
Proof.
  induction m as [|k Child next IHc IHn|k v next Hv IHn] using member_list_ind;
    intros Hvalid.
  - reflexivity.
  - unfold firstMatch in *. simpl.
    destruct (String.eqb k Key) eqn:Ek; [reflexivity|].
    rewrite find_app_first.
    rewrite (IHc (membersValid_child _ _ _ Hvalid)).
    destruct (List.find _ (preorder Child)) as [[k' v']|] eqn:Ef.
    + pose proof (firstMatch_valid Child Key
                    (membersValid_child _ _ _ Hvalid) k' v' Ef) as Hnot.
      destruct v'; try reflexivity. discriminate Hnot.
    + apply IHn. eapply membersValid_next. exact Hvalid.
  - unfold firstMatch in *. simpl.
    destruct (String.eqb k Key) eqn:Ek; [reflexivity|].
    assert (Hpre : match v with
                   | JSON_TYPE_MEMBER Child => preorder Child
                   | _ => []
                   end = []).
    { destruct v; try reflexivity. exfalso. eapply Hv. reflexivity. }
    rewrite Hpre. simpl.
    rewrite <- (IHn (membersValid_next _ _ _ Hvalid)).
    destruct v; try reflexivity. exfalso. eapply Hv. reflexivity.
Qed.

(** The insert operations keep [membersValid]: none of them stores a value
    of the invalid kind. *)
Lemma preorder_appendMember (a b : json_member_ptr) :
  preorder (appendMember a b) = preorder a ++ preorder b.
Proof.
  induction a as [|k v next IH] using member_next_ind; simpl; [reflexivity|].
  rewrite IH, app_assoc. reflexivity.
Qed.

Lemma membersValid_appendNew (JsonObject : json_object) (k : string) (v : json_value) :
  membersValid (First JsonObject) ->
  isInvalid v = false ->
  (forall Child, v = JSON_TYPE_MEMBER Child -> membersValid Child) ->
  membersValid (First (appendNew nullptr JsonObject k v)).
Proof.
  intros Hobj Hv Hchild k' v' Hin. simpl in Hin.
  rewrite preorder_appendMember in Hin. apply in_app_or in Hin as [Hin|Hin].
  - exact (Hobj k' v' Hin).
  - simpl in Hin. rewrite app_nil_r in Hin. destruct Hin as [E|Hin].
    + injection E as <- <-. exact Hv.
    + destruct v; try contradiction. exact (Hchild _ eq_refl k' v' Hin).
Qed.

Lemma addJsonMember_membersValid (JsonObject : json_object) (Key : option string) :
  membersValid (First JsonObject) ->
  (forall s, membersValid (First (addJsonMemberString nullptr JsonObject Key s)))
  /\ (forall n, membersValid (First (addJsonMemberNumber nullptr JsonObject Key n)))
  /\ (forall b, membersValid (First (addJsonMemberBoolean nullptr JsonObject Key b)))
  /\ membersValid (First (addJsonMemberNull nullptr JsonObject Key))
  /\ (forall values size JsonObject',
        addJsonMemberArray nullptr JsonObject Key values size = Ok JsonObject' ->
        membersValid (First JsonObject'))
  /\ (forall Child, membersValid Child ->
                    membersValid (First (addJsonMemberChild nullptr JsonObject Key Child)))
  /\ (forall Child, membersValid (First Child) ->
                    membersValid (First (addJsonMemberObject nullptr JsonObject Key Child))).
Proof.
  intros Hobj.
  assert (Hscalar : forall k v, isInvalid v = false ->
                                (forall Child, v <> JSON_TYPE_MEMBER Child) ->
                                membersValid (First (appendNew nullptr JsonObject k v))).
  { intros k v Hv Hnot. apply membersValid_appendNew; [exact Hobj|exact Hv|].
    intros Child E. exfalso. exact (Hnot Child E). }
  assert (Hchild : forall Child, membersValid Child ->
                     membersValid (First (addJsonMemberChild nullptr JsonObject Key Child))).
  { intros Child HChild. unfold addJsonMemberChild.
    destruct Child as [|ck cv cnext]; [exact Hobj|].
    destruct Key as [k|]; [|exact Hobj].
    apply membersValid_appendNew; [exact Hobj|reflexivity|].
    intros Child' E. injection E as <-. exact HChild. }
  repeat split.
  - intros s. destruct Key as [k|]; [|exact Hobj].
    apply Hscalar; [reflexivity|discriminate].
  - intros n. destruct Key as [k|]; [|exact Hobj].
    apply Hscalar; [reflexivity|discriminate].
  - intros b. destruct Key as [k|]; [|exact Hobj].
    apply Hscalar; [reflexivity|discriminate].
  - destruct Key as [k|]; [|exact Hobj].
    apply Hscalar; [reflexivity|discriminate].
  - intros values size JsonObject'. unfold addJsonMemberArray.
    destruct values as [values|]; [|intros E; injection E as <-; exact Hobj].
    destruct Key as [k|]; [|intros E; injection E as <-; exact Hobj].
    destruct (size <=? length values); [|discriminate].
    intros E. injection E as <-.
    apply Hscalar; [reflexivity|discriminate].
  - exact Hchild.
  - intros Child HChild. unfold addJsonMemberObject.
    destruct (First Child) as [|ck cv cnext] eqn:E; [exact Hobj|].
    destruct Key as [k|]; [|exact Hobj].
    apply Hchild. exact HChild.
Qed.




(** ** Array access *)

(** C1 (as the code has it).  For every array value and every index in
    range whose element is a [JSON_TYPE_MEMBER] value with a non-null
    [Child], [getJsonValueArrayMember] returns the [json_member] that
    [Child] points to, and [getJsonValueArraySize] is the number of
    elements; for the tree parsed from [{"pairs":[1,2,3]}] the size of
    [getJsonValue(root, "pairs")] is 3 and the element stored at index 1 is
    the number read from [2], whatever the block that [malloc] hands out
    for the one member holds. *)
Theorem getJsonValueArrayMember_object_element (atof : string -> float) (mz : bool)
  (malloc_Next : json_member_ptr) :
  (forall (Head : list json_value) (Index : nat) k v next,
     nth_error Head Index = Some (JSON_TYPE_MEMBER (Member k v next)) ->
     getJsonValueArrayMember (JSON_TYPE_ARRAY Head) (Z.of_nat Index)
     = Ok (Member k v next)
     /\ (Z.of_nat Index < getJsonValueArraySize (JSON_TYPE_ARRAY Head))%Z)
  /\ (exists root i Head,
        parseText atof mz malloc_Next "{'pairs':[1,2,3]}" = Ok (root, i)
        /\ getJsonValue root "pairs" = JSON_TYPE_ARRAY Head
        /\ getJsonValueArraySize (getJsonValue root "pairs") = 3%Z
        /\ nth_error Head 1 = Some (JSON_TYPE_NUMBER (atof "2"))).
Proof.
  split.
  - intros Head Index k v next Hnth. split.
    + unfold getJsonValueArrayMember.
      destruct (Z.ltb_spec (Z.of_nat Index) 0) as [Hneg|_]; [lia|].
      rewrite Nat2Z.id, Hnth. reflexivity.
    + simpl. apply Nat2Z.inj_lt. apply nth_error_Some. rewrite Hnth. discriminate.
  - eexists. eexists. eexists.
    split; [vm_compute; reflexivity|].
    split; [reflexivity|]. split; reflexivity.
Qed.

Lemma getJsonValueArrayMember_object_element_witness :
  getJsonValueArrayMember
    (JSON_TYPE_ARRAY [JSON_TYPE_NULL;
                      JSON_TYPE_MEMBER (Member "x0" JSON_TYPE_NULL nullptr)]) 1
  = Ok (Member "x0" JSON_TYPE_NULL nullptr).
Proof.
  exact (proj1 (proj1 (getJsonValueArrayMember_object_element atofDigits false nullptr)
                  [JSON_TYPE_NULL;
                   JSON_TYPE_MEMBER (Member "x0" JSON_TYPE_NULL nullptr)]
                  1 "x0" JSON_TYPE_NULL nullptr eq_refl)).
Defined.

(** On the array parsed from [{"pairs":[1,2,3]}] the element at index 1 is
    the number 2, and [getJsonValueArrayMember] does not return it: it
    dereferences the [Child] member of a value whose tag is
    [JSON_TYPE_NUMBER]. *)
Lemma getJsonValueArrayMember_scalar_element :
  exists root i Head,
    parseText atofDigits false nullptr "{'pairs':[1,2,3]}" = Ok (root, i)
    /\ getJsonValue root "pairs" = JSON_TYPE_ARRAY Head
    /\ nth_error Head 1 = Some (JSON_TYPE_NUMBER 2)
    /\ getJsonValueArrayMember (getJsonValue root "pairs") 1 = Fault WildPointer.
Proof.
  eexists. eexists. eexists.
  split; [vm_compute; reflexivity|].
  split; [reflexivity|]. split; reflexivity.
Qed.

(** ** Insertion with an empty key *)

(** C5 (evaluation of the code).  Every insert operation handed a pointer
    to the empty string appends a member whose key is empty: the guard
    compares the pointer with null and does not look at the bytes, so only
    a null [Key] leaves the object as it was.  In particular
    [addJsonMember(obj, "", "x")] on an object without members leaves it
    with one member, whatever the block that [malloc] hands out holds. *)
Theorem addJsonMember_empty_key_appends (malloc_Next : json_member_ptr)
  (JsonObject : json_object) :
  (forall s, First (addJsonMemberString malloc_Next JsonObject (Some EmptyString) s)
             = appendMember (First JsonObject)
                 (Member EmptyString (JSON_TYPE_STRING s) malloc_Next))
  /\ (forall n, First (addJsonMemberNumber malloc_Next JsonObject (Some EmptyString) n)
                = appendMember (First JsonObject)
                    (Member EmptyString (JSON_TYPE_NUMBER n) malloc_Next))
  /\ (forall b, First (addJsonMemberBoolean malloc_Next JsonObject (Some EmptyString) b)
                = appendMember (First JsonObject)
                    (Member EmptyString (JSON_TYPE_BOOLEAN b) malloc_Next))
  /\ First (addJsonMemberNull malloc_Next JsonObject (Some EmptyString))
     = appendMember (First JsonObject) (Member EmptyString JSON_TYPE_NULL malloc_Next)
  /\ (forall s, First (addJsonMemberString malloc_Next JsonObject (Some EmptyString) s)
                <> First JsonObject)
  /\ (forall s, addJsonMemberString malloc_Next JsonObject None s = JsonObject)
  /\ addJsonMemberString malloc_Next json_object_init (Some EmptyString) "x"
     = mkObject (Member EmptyString (JSON_TYPE_STRING "x") malloc_Next) true.
Proof.
  repeat split; try reflexivity.
  intros s. cbn [addJsonMemberString appendNew First].
  generalize (First JsonObject) as m.
  intros m H. apply (f_equal members) in H.
  apply (f_equal (@length _)) in H. revert H.
  induction m as [|k v next IH] using member_next_ind; cbn [appendMember members length].
  - discriminate.
  - intros H. injection H as H. exact (IH H).
Qed.

(** ** Destroy of an object without members *)

(** C10.  For every [json_object] whose [First] is null,
    [destroyJsonObject] hands the null pointer to [destroyJsonMember],
    which reads [TargetMember->Next] before its loop tests the pointer: the
    run stops on a null dereference, whatever the heap. *)
Theorem destroyJsonObject_empty_null_deref
  (fuel : nat) (st : Heap.state) (valid : bool) :
  Heap.destroyJsonMember (S fuel) st None = Fault NullDeref
  /\ Heap.destroyJsonObject (S fuel) st (Some (Heap.mkObject None valid))
     = Fault NullDeref.
Proof. split; reflexivity. Qed.

(** ** The tokenizer *)

Lemma scanWhile_stop (p : ascii -> bool) (l : list ascii) (c : ascii)
  (r : list ascii) (i : nat) :
  forallb p l = true -> p c = false ->
  scanWhile p (l ++ c :: r) i = Ok (i + length l, c :: r).
Proof.
  revert i. induction l as [|a l IH]; intros i Hl Hc; simpl.
  - rewrite Hc. f_equal. f_equal. lia.
  - simpl in Hl. apply andb_prop in Hl as [Ha Hl]. rewrite Ha.
    rewrite (IH (S i) Hl Hc). f_equal. f_equal. lia.
Qed.

Lemma tokenizeString_at (pre rest : list ascii) :
  tokenizeString (pre ++ rest) (length pre) = tokenizeAt rest (length pre).
Proof. unfold tokenizeString. rewrite drop_app_length. reflexivity. Qed.

Lemma isStringBody_forallb (body : list ascii) :
  (forall c, In c body -> c <> DQUOTE /\ c <> NUL) ->
  forallb isStringBody body = true.
Proof.
  intros H. apply forallb_forall. intros c Hc. destruct (H c Hc) as [Hq Hn].
  unfold isStringBody.
  apply Ascii.eqb_neq in Hq. apply Ascii.eqb_neq in Hn.
  rewrite Hq, Hn. reflexivity.
Qed.

Lemma firstn_app_exact {A : Type} (l r : list A) :
  firstn (length l) (l ++ r) = l.
Proof. apply take_app_length. Qed.

(** Tokens that start with a double quote, after any white space. *)
Lemma tokenizeAt_string_open (ws body : list ascii) (c : ascii)
  (rest : list ascii) (i : nat) :
  forallb isWhiteSpace ws = true ->
  forallb isStringBody body = true ->
  isStringBody c = false ->
  tokenizeAt (ws ++ DQUOTE :: body ++ c :: rest) i =
  if (c =? NUL)%char then Ok (json_token_init, i + length ws + 1 + length body)
  else
    let* s := copyTokenText (body ++ c :: rest) (length body) in
    Ok (mkToken JSON_TOKEN_STRING s, i + length ws + length body + 2).
Proof.
  intros Hws Hbody Hc. unfold tokenizeAt.
  rewrite (scanWhile_stop isWhiteSpace ws DQUOTE _ i Hws eq_refl).
  cbn [bind]. change ((DQUOTE =? "{")%char) with false.
  change ((DQUOTE =? "}")%char) with false.
  change ((DQUOTE =? "[")%char) with false.
  change ((DQUOTE =? "]")%char) with false.
  change ((DQUOTE =? ",")%char) with false.
  change ((DQUOTE =? ":")%char) with false.
  change ((DQUOTE =? DQUOTE)%char) with true. cbv iota.
  rewrite (scanWhile_stop isStringBody body c rest _ Hbody Hc).
  cbn [bind].
  replace (S (i + length ws) + length body) with (i + length ws + 1 + length body) by lia.
  destruct (c =? NUL)%char; [reflexivity|].
  replace (i + length ws + 1 + length body - S (i + length ws)) with (length body) by lia.
  destruct (copyTokenText _ _); cbn [bind]; [|reflexivity].
  f_equal. f_equal. lia.
Qed.

(** C9 (as the code has it).  After any white space, a double quote
    followed by bytes that are neither a double quote nor NUL and then by
    a NUL byte makes [tokenizeString] return a token of the invalid kind,
    with the cursor left on the NUL: the NUL is the only end of the data
    the tokenizer knows, it is given no length.  When the closing quote
    is there and the bytes between the quotes fit the token buffer (at
    most 63 bytes), the token is of the string kind and its text is those
    bytes as they are, with the cursor after the closing quote. *)
Theorem tokenizeString_string_token (pre ws body rest : list ascii) :
  forallb isWhiteSpace ws = true ->
  (forall c, In c body -> c <> DQUOTE /\ c <> NUL) ->
  (exists Token,
     tokenizeString (pre ++ ws ++ DQUOTE :: body ++ NUL :: rest) (length pre)
     = Ok (Token, length pre + length ws + 1 + length body)
     /\ TokenType Token = JSON_TOKEN_INVALID)
  /\ (length body < JSON_TOKEN_STRING_SIZE ->
      tokenizeString (pre ++ ws ++ DQUOTE :: body ++ DQUOTE :: rest) (length pre)
      = Ok (mkToken JSON_TOKEN_STRING (string_of_list_ascii body),
            length pre + length ws + length body + 2)).
Proof.
  intros Hws Hbody. apply isStringBody_forallb in Hbody. split.
  - exists json_token_init. split; [|reflexivity].
    rewrite tokenizeString_at.
    rewrite (tokenizeAt_string_open ws body NUL rest _ Hws Hbody eq_refl).
    reflexivity.
  - intros Hlen. rewrite tokenizeString_at.
    rewrite (tokenizeAt_string_open ws body DQUOTE rest _ Hws Hbody eq_refl).
    change ((DQUOTE =? NUL)%char) with false. cbv iota.
    unfold copyTokenText. apply Nat.ltb_lt in Hlen. rewrite Hlen.
    rewrite firstn_app_exact. reflexivity.
Qed.

Lemma tokenizeString_string_token_witness :
  (exists Token,
     tokenizeString (dq "{ 'ab" ++ NUL :: dq "'") 1 = Ok (Token, 5)
     /\ TokenType Token = JSON_TOKEN_INVALID)
  /\ tokenizeString (dq "{ 'ab'}") 1 = Ok (mkToken JSON_TOKEN_STRING "ab", 6).
Proof.
  assert (Hbody : forall c, In c (dq "ab") -> c <> DQUOTE /\ c <> NUL).
  { intros c Hin. simpl in Hin.
    repeat (destruct Hin as [Hin|Hin]; [subst c; split; discriminate|]).
    contradiction. }
  pose proof (tokenizeString_string_token (dq "{") (dq " ") (dq "ab")
                (dq "'") eq_refl Hbody) as [Hopen _].
  pose proof (tokenizeString_string_token (dq "{") (dq " ") (dq "ab")
                (dq "}") eq_refl Hbody) as [_ Hclosed].
  split; [exact Hopen|]. apply Hclosed. vm_compute. lia.
Defined.

(** Without the NUL and without the bound on the length neither half
    holds.  The three bytes of an opened string with nothing after them
    in memory make the tokenizer read the byte after them; with other
    bytes after them in memory the token is a string that runs on into
    these bytes; and a closed string of 64 bytes is written past the end
    of the token buffer. *)
Lemma tokenizeString_string_past_the_data :
  tokenizeString (dq "'ab") 0 = Fault (OutOfBounds 3)
  /\ tokenizeString (dq "'ab" ++ dq "c'") 0 = Ok (mkToken JSON_TOKEN_STRING "abc", 5)
  /\ tokenizeString (DQUOTE :: repeat "x"%char 64 ++ [DQUOTE]) 0 = Fault TokenOverflow.
Proof. repeat split; vm_compute; reflexivity. Qed.

(** ** Parsing an object that ends after a comma *)




(** ** Delete *)

(** C7 (evaluation of the code).  [deleteJsonMember] on an object:
    - deleting the head ["a"] of [{"a":1,"b":2}] re-points [First] to the
      node of ["b"] and returns true, but [destroyJsonMember] walks on from
      the deleted node: the node of ["b"] and its key are freed too, and
      [First] is left pointing to a freed block;
    - on [{"a":{"b":1},"b":2}] lookup of ["b"] finds the member of the
      nested object, and delete frees the top-level member instead;
    - a key held only by the head of a nested object is found by lookup and
      not by delete, which returns false;
    - on an object without members delete returns true. *)
Theorem deleteJsonMember_evaluated :
  (let t := Heap.L_Node 1 2 "a" (Heap.L_NUMBER 1)
              (Heap.L_Node 3 4 "b" (Heap.L_NUMBER 2) Heap.L_nullptr) in
   exists st,
     Heap.deleteJsonMember 10 (Heap.mkState (Heap.heapOf t) [])
       (Heap.mkObject (Some 1) true) "a"
     = Ok (st, Heap.mkObject (Some 3) true, true)
     /\ Heap.freed st = [2; 1; 4; 3]
     /\ Heap.blocks st !! 3 = None)
  /\ (let t := Heap.L_Node 1 2 "a"
                 (Heap.L_MEMBER (Heap.L_Node 3 4 "b" (Heap.L_NUMBER 1) Heap.L_nullptr))
                 (Heap.L_Node 5 6 "b" (Heap.L_NUMBER 2) Heap.L_nullptr) in
      getJsonValueMember (Heap.eraseMember t) "b" = JSON_TYPE_NUMBER 1
      /\ exists st,
           Heap.deleteJsonMember 10 (Heap.mkState (Heap.heapOf t) [])
             (Heap.mkObject (Some 1) true) "b"
           = Ok (st, Heap.mkObject (Some 1) true, true)
           /\ Heap.freed st = [6; 5]
           /\ Heap.blocks st !! 3
              = Some (Heap.BMember (Heap.mkMember (Some 4) (Heap.V_NUMBER 1) None)))
  /\ (let t := Heap.L_Node 1 2 "a"
                 (Heap.L_MEMBER (Heap.L_Node 3 4 "c" (Heap.L_NUMBER 1) Heap.L_nullptr))
                 Heap.L_nullptr in
      getJsonValueMember (Heap.eraseMember t) "c" = JSON_TYPE_NUMBER 1
      /\ Heap.deleteJsonMember 10 (Heap.mkState (Heap.heapOf t) [])
           (Heap.mkObject (Some 1) true) "c"
         = Ok (Heap.mkState (Heap.heapOf t) [], Heap.mkObject (Some 1) true, false))
  /\ (forall fuel st valid Key,
        Heap.deleteJsonMember fuel st (Heap.mkObject None valid) Key
        = Ok (st, Heap.mkObject None valid, true)).
Proof.
  split; [|split; [|split]].
  - eexists. split; [vm_compute; reflexivity|]. split; reflexivity.
  - split; [reflexivity|].
    eexists. split; [vm_compute; reflexivity|]. split; reflexivity.
  - split; [reflexivity|]. vm_compute. reflexivity.
  - reflexivity.
Qed.

(** ** Destroy *)

Section Destroy.
Import Heap HeapSpec.

(** Induction on a layout along [Next] and the [Child] of
    [JSON_TYPE_MEMBER] values. *)
Lemma lmember_reach_ind (P : lmember -> Prop) :
  P L_nullptr ->
  (forall a ka k Child next, P Child -> P next ->
     P (L_Node a ka k (L_MEMBER Child) next)) ->
  (forall a ka k v next, (forall Child, v <> L_MEMBER Child) -> P next ->
     P (L_Node a ka k v next)) ->
  forall m, P m.
Proof.
  intros Hnull Hchild Hother.
  fix IH 1. intros [|a ka k v next].
  - exact Hnull.
  - destruct v as [|Child| | | | |];
      try (apply Hother; [intros c; discriminate | apply IH]).
    apply Hchild; apply IH.
Qed.

Lemma freeAll_app (l1 l2 : list nat) (h : gmap nat block) :
  freeAll (l1 ++ l2) h = freeAll l2 (freeAll l1 h).
Proof. unfold freeAll. apply fold_left_app. Qed.

Lemma freeAll_lookup_notin (l : list nat) (h : gmap nat block) (a : nat) :
  ~ In a l -> freeAll l h !! a = h !! a.
Proof.
  revert h. induction l as [|x l IH]; intros h Hnot; simpl; [reflexivity|].
  rewrite IH by (intros Hin; apply Hnot; right; exact Hin).
  apply lookup_delete_ne. intros ->. apply Hnot. left. reflexivity.
Qed.

Lemma freeAll_lookup_in (l : list nat) (h : gmap nat block) (a : nat) :
  In a l -> freeAll l h !! a = None.
Proof.
  revert h. induction l as [|x l IH]; intros h Hin; simpl; [contradiction|].
  destruct (in_dec Nat.eq_dec a l) as [Hl|Hl]; [apply IH; exact Hl|].
  destruct Hin as [->|Hin]; [|contradiction].
  rewrite freeAll_lookup_notin by exact Hl. apply lookup_delete_eq.
Qed.

Lemma loadMember_some (st : state) (a : nat) (m : member) :
  blocks st !! a = Some (BMember m) -> loadMember st (Some a) = Ok m.
Proof. intros H. unfold loadMember. rewrite H. reflexivity. Qed.

Lemma NoDup_app_disjoint {A : Type} (l1 l2 : list A) (x : A) :
  List.NoDup (l1 ++ l2) -> In x l1 -> ~ In x l2.
Proof.
  induction l1 as [|y l1 IH]; simpl; intros Hnd Hx Hy; [contradiction|].
  apply List.NoDup_cons_iff in Hnd as [Hy1 Hnd].
  destruct Hx as [->|Hx]; [apply Hy1; apply in_or_app; right; exact Hy|].
  exact (IH Hnd Hx Hy).
Qed.

Lemma destroyOrder_addresses (m : lmember) (x : nat) :
  In x (destroyOrder m) -> In x (addresses m).
Proof.
  unfold addresses.
  induction m as [|a ka k Child next IHc IHn|a ka k v next Hv IHn]
    using lmember_reach_ind; simpl; [tauto| |].
  - rewrite in_app_iff. simpl. rewrite map_app, in_app_iff. tauto.
  - replace (match v with L_MEMBER Child => destroyOrder Child | _ => [] end)
      with (@nil nat) by (destruct v; try reflexivity; exfalso; eapply Hv; reflexivity).
    simpl. rewrite map_app, in_app_iff. tauto.
Qed.

(** The loop of destroy on a layout the heap holds. *)
Lemma destroyLoop_layout (m : lmember) :
  childrenNonNull m = true ->
  forall fuel h log,
    List.NoDup (addresses m) ->
    (forall a b, In (a, b) (blocksOfMember m) -> h !! a = Some b) ->
    2 * destroySize m + 1 <= fuel ->
    destroyLoop fuel (mkState h log) (ptrOf m) (nextPtr m)
    = Ok (mkState (freeAll (destroyOrder m) h) (log ++ destroyOrder m)).
Proof.
  unfold addresses.
  induction m as [|a ka k Child next IHc IHn|a ka k v next Hv IHn]
    using lmember_reach_ind; intros Hnn fuel h log Hnd Hh Hfuel.
  - destruct fuel as [|fuel]; [simpl in Hfuel; lia|].
    simpl. rewrite app_nil_r. reflexivity.
  - (* a member whose value is a nested object *)
    simpl in Hnn. apply andb_prop in Hnn as [HnnC HnnN].
    destruct Child as [|c kc k' v' next'] eqn:EChild; [discriminate|].
    rewrite <- EChild in *.
    simpl in Hnd. rewrite map_app in Hnd.
    apply List.NoDup_cons_iff in Hnd as [Ha Hnd].
    apply List.NoDup_cons_iff in Hnd as [Hka Hnd].
    pose proof (List.NoDup_app_remove_l _ _ Hnd) as HndN.
    pose proof (List.NoDup_app_remove_r _ _ Hnd) as HndC.
    assert (Hdisj : forall x, In x (map fst (blocksOfMember Child)) ->
                              ~ In x (map fst (blocksOfMember next))).
    { intros x Hx. exact (NoDup_app_disjoint _ _ x Hnd Hx). }
    simpl in Ha, Hka. rewrite in_app_iff in Ha, Hka.
    assert (Hane : a <> ka) by (intros ->; apply Ha; left; reflexivity).
    assert (Hha : h !! a = Some (BMember (mkMember (Some ka)
                     (V_MEMBER (ptrOf Child)) (ptrOf next)))).
    { apply Hh. simpl. left. reflexivity. }
    assert (Hhka : h !! ka = Some (BChars k)).
    { apply Hh. simpl. right. left. reflexivity. }
    assert (HhC : forall x b, In (x, b) (blocksOfMember Child) -> h !! x = Some b).
    { intros x b Hin. apply Hh. simpl. right. right. apply in_or_app. left. exact Hin. }
    assert (HhN : forall x b, In (x, b) (blocksOfMember next) -> h !! x = Some b).
    { intros x b Hin. apply Hh. simpl. right. right. apply in_or_app. right. exact Hin. }
    simpl in Hfuel.
    destruct fuel as [|fuel]; [lia|].
    cbn [destroyLoop ptrOf nextPtr]. unfold loadMember at 1. cbn [blocks].
    rewrite Hha. cbn [bind Value].
    (* the nested object *)
    assert (HChead : ptrOf Child = Some c) by (rewrite EChild; reflexivity).
    destruct fuel as [|fuel']; [lia|].
    rewrite HChead. cbn [destroyJsonMember]. unfold loadMember at 1. cbn [blocks].
    assert (Hhc : h !! c = Some (BMember (mkMember (Some kc) (valueOf v')
                                            (ptrOf next')))).
    { apply HhC. rewrite EChild. simpl. left. reflexivity. }
    rewrite Hhc. cbn [bind Next].
    assert (Hnp : ptrOf next' = nextPtr Child) by (rewrite EChild; reflexivity).
    rewrite Hnp, <- HChead.
    rewrite (IHc HnnC fuel' h log HndC HhC) by lia.
    cbn [bind].
    set (h1 := freeAll (destroyOrder Child) h).
    assert (Hh1 : forall x, ~ In x (map fst (blocksOfMember Child)) ->
                            h1 !! x = h !! x).
    { intros x Hx. apply freeAll_lookup_notin. intros Hin. apply Hx.
      apply destroyOrder_addresses. exact Hin. }
    unfold loadMember at 1. cbn [blocks].
    rewrite (Hh1 a) by tauto. rewrite Hha. cbn [bind Key].
    unfold free at 1. cbn [blocks freed]. rewrite (Hh1 ka) by tauto.
    rewrite Hhka. cbn [bind].
    unfold free at 1. cbn [blocks freed].
    rewrite lookup_delete_ne by (intros E; apply Hane; symmetry; exact E).
    rewrite (Hh1 a) by tauto. rewrite Hha. cbn [bind].
    set (h3 := delete a (delete ka h1)).
    assert (Hh3 : forall x b, In (x, b) (blocksOfMember next) -> h3 !! x = Some b).
    { intros x b Hin. unfold h3.
      assert (Hx : In x (map fst (blocksOfMember next))).
      { apply in_map_iff. exists (x, b). split; [reflexivity|exact Hin]. }
      rewrite lookup_delete_ne by (intros ->; tauto).
      rewrite lookup_delete_ne by (intros ->; tauto).
      rewrite Hh1 by (intros Hc; exact (Hdisj x Hc Hx)).
      apply HhN. exact Hin. }
    assert (Hfinal : destroyLoop (S fuel') (mkState h3 (((log ++ destroyOrder Child) ++ [ka]) ++ [a]))
                       (ptrOf next) (nextPtr next)
                     = Ok (mkState (freeAll (destroyOrder next) h3)
                             ((((log ++ destroyOrder Child) ++ [ka]) ++ [a])
                                ++ destroyOrder next))).
    { apply IHn; [exact HnnN|exact HndN|exact Hh3|lia]. }
    assert (Hgoal : forall r,
              r = Ok (mkState (freeAll (destroyOrder next) h3)
                        ((((log ++ destroyOrder Child) ++ [ka]) ++ [a])
                           ++ destroyOrder next)) ->
              r = Ok (mkState
                        (freeAll (destroyOrder
                                    (L_Node a ka k (L_MEMBER Child) next)) h)
                        (log ++ destroyOrder (L_Node a ka k (L_MEMBER Child) next)))).
    { intros r ->. f_equal. f_equal.
      - simpl. rewrite freeAll_app. reflexivity.
      - simpl. repeat rewrite <- app_assoc. reflexivity. }
    apply Hgoal. rewrite <- Hfinal.
    destruct next as [|a' ka' k2 v2 next2].
    + reflexivity.
    + assert (Hha' : h3 !! a' = Some (BMember (mkMember (Some ka') (valueOf v2)
                                                 (ptrOf next2)))).
      { apply Hh3. simpl. left. reflexivity. }
      cbn [ptrOf nextPtr].
      rewrite (loadMember_some (mkState h3 _) a' _ Hha'). reflexivity.
  - (* a member whose value is not a nested object *)
    simpl in Hnn. apply andb_prop in Hnn as [_ HnnN].
    assert (Hord : destroyOrder (L_Node a ka k v next)
                   = ka :: a :: destroyOrder next).
    { destruct v; try reflexivity. exfalso. eapply Hv. reflexivity. }
    assert (Hsize : destroySize (L_Node a ka k v next) = S (destroySize next)).
    { destruct v; try reflexivity. exfalso. eapply Hv. reflexivity. }
    rewrite Hord. rewrite Hsize in Hfuel.
    simpl in Hnd. rewrite map_app in Hnd.
    apply List.NoDup_cons_iff in Hnd as [Ha Hnd].
    apply List.NoDup_cons_iff in Hnd as [Hka Hnd].
    pose proof (List.NoDup_app_remove_l _ _ Hnd) as HndN.
    simpl in Ha, Hka. rewrite in_app_iff in Ha, Hka.
    assert (Hane : a <> ka) by (intros ->; apply Ha; left; reflexivity).
    assert (Hha : h !! a = Some (BMember (mkMember (Some ka) (valueOf v)
                                            (ptrOf next)))).
    { apply Hh. simpl. left. reflexivity. }
    assert (Hhka : h !! ka = Some (BChars k)).
    { apply Hh. simpl. right. left. reflexivity. }
    assert (HhN : forall x b, In (x, b) (blocksOfMember next) -> h !! x = Some b).
    { intros x b Hin. apply Hh. simpl. right. right. apply in_or_app. right. exact Hin. }
    destruct fuel as [|fuel]; [lia|].
    cbn [destroyLoop ptrOf nextPtr]. unfold loadMember at 1. cbn [blocks].
    rewrite Hha. cbn [bind Value].
    assert (Hskip : match valueOf v with
                    | V_MEMBER Child => destroyJsonMember fuel (mkState h log) Child
                    | _ => Ok (mkState h log)
                    end = Ok (mkState h log)).
    { destruct v; try reflexivity. exfalso. eapply Hv. reflexivity. }
    rewrite Hskip. cbn [bind].
    unfold loadMember at 1. cbn [blocks]. rewrite Hha. cbn [bind Key].
    unfold free at 1. cbn [blocks freed]. rewrite Hhka. cbn [bind].
    unfold free at 1. cbn [blocks freed].
    rewrite lookup_delete_ne by (intros E; apply Hane; symmetry; exact E).
    rewrite Hha. cbn [bind].
    set (h3 := delete a (delete ka h)).
    assert (Hh3 : forall x b, In (x, b) (blocksOfMember next) -> h3 !! x = Some b).
    { intros x b Hin. unfold h3.
      assert (Hx : In x (map fst (blocksOfMember next))).
      { apply in_map_iff. exists (x, b). split; [reflexivity|exact Hin]. }
      rewrite lookup_delete_ne by (intros ->; tauto).
      rewrite lookup_delete_ne by (intros ->; tauto).
      apply HhN. exact Hin. }
    assert (Hfinal : destroyLoop fuel (mkState h3 ((log ++ [ka]) ++ [a]))
                       (ptrOf next) (nextPtr next)
                     = Ok (mkState (freeAll (destroyOrder next) h3)
                             (((log ++ [ka]) ++ [a]) ++ destroyOrder next))).
    { apply IHn; [exact HnnN|exact HndN|exact Hh3|lia]. }
    assert (Hgoal : forall r,
              r = Ok (mkState (freeAll (destroyOrder next) h3)
                        (((log ++ [ka]) ++ [a]) ++ destroyOrder next)) ->
              r = Ok (mkState (freeAll (ka :: a :: destroyOrder next) h)
                        (log ++ ka :: a :: destroyOrder next))).
    { intros r ->. f_equal. f_equal.
      repeat rewrite <- app_assoc. reflexivity. }
    apply Hgoal. rewrite <- Hfinal.
    destruct next as [|a' ka' k2 v2 next2].
    + reflexivity.
    + assert (Hha' : h3 !! a' = Some (BMember (mkMember (Some ka') (valueOf v2)
                                                 (ptrOf next2)))).
      { apply Hh3. simpl. left. reflexivity. }
      cbn [ptrOf nextPtr].
      rewrite (loadMember_some (mkState h3 _) a' _ Hha'). reflexivity.
Qed.

Lemma destroyOrder_reachable (m : lmember) (x : nat) :
  In x (destroyOrder m) <-> In x (reachableNodes m) \/ In x (reachableKeys m).
Proof.
  induction m as [|a ka k Child next IHc IHn|a ka k v next Hv IHn]
    using lmember_reach_ind; simpl; [tauto| |].
  - repeat rewrite in_app_iff. simpl. rewrite IHc, IHn. tauto.
  - replace (match v with L_MEMBER Child => destroyOrder Child | _ => [] end)
      with (@nil nat) by (destruct v; try reflexivity; exfalso; eapply Hv; reflexivity).
    replace (match v with L_MEMBER Child => reachableNodes Child | _ => [] end)
      with (@nil nat) by (destruct v; try reflexivity; exfalso; eapply Hv; reflexivity).
    replace (match v with L_MEMBER Child => reachableKeys Child | _ => [] end)
      with (@nil nat) by (destruct v; try reflexivity; exfalso; eapply Hv; reflexivity).
    simpl. rewrite IHn. tauto.
Qed.

Lemma destroyOrder_NoDup (m : lmember) :
  List.NoDup (addresses m) -> List.NoDup (destroyOrder m).
Proof.
  unfold addresses.
  induction m as [|a ka k Child next IHc IHn|a ka k v next Hv IHn]
    using lmember_reach_ind; simpl; intros Hnd.
  - constructor.
  - rewrite map_app in Hnd.
    apply List.NoDup_cons_iff in Hnd as [Ha Hnd].
    apply List.NoDup_cons_iff in Hnd as [Hka Hnd].
    simpl in Ha. rewrite in_app_iff in Ha, Hka.
    pose proof (List.NoDup_app_remove_l _ _ Hnd) as HndN.
    pose proof (List.NoDup_app_remove_r _ _ Hnd) as HndC.
    apply List.NoDup_app; [exact (IHc HndC)| |].
    + apply List.NoDup_cons_iff. split.
      * simpl. intros [E|Hin]; [apply Ha; left; symmetry; exact E|].
        apply Hka. right. apply destroyOrder_addresses in Hin. exact Hin.
      * apply List.NoDup_cons_iff. split; [|exact (IHn HndN)].
        intros Hin. apply Ha. right. right.
        apply destroyOrder_addresses in Hin. exact Hin.
    + intros x Hx. apply destroyOrder_addresses in Hx. unfold addresses in Hx.
      simpl. intros [E|[E|Hin]].
      * subst x. apply Hka. left. exact Hx.
      * subst x. apply Ha. right. left. exact Hx.
      * apply destroyOrder_addresses in Hin.
        exact (NoDup_app_disjoint _ _ x Hnd Hx Hin).
  - replace (match v with L_MEMBER Child => destroyOrder Child | _ => [] end)
      with (@nil nat) by (destruct v; try reflexivity; exfalso; eapply Hv; reflexivity).
    rewrite map_app in Hnd.
    apply List.NoDup_cons_iff in Hnd as [Ha Hnd].
    apply List.NoDup_cons_iff in Hnd as [Hka Hnd].
    simpl in Ha. rewrite in_app_iff in Ha, Hka.
    pose proof (List.NoDup_app_remove_l _ _ Hnd) as HndN.
    simpl. apply List.NoDup_cons_iff. split.
    + simpl. intros [E|Hin]; [apply Ha; left; symmetry; exact E|].
      apply Hka. right. apply destroyOrder_addresses in Hin. exact Hin.
    + apply List.NoDup_cons_iff. split; [|exact (IHn HndN)].
      intros Hin. apply Ha. right. right.
      apply destroyOrder_addresses in Hin. exact Hin.
Qed.

(** C6 (as the code has it).  For every object whose member list is not
    empty, laid out in the heap at pairwise different addresses, with no
    null [Child] under a [JSON_TYPE_MEMBER] value, [destroyJsonObject]
    runs to its end and sets [First] to null.  It frees the member nodes
    reached through [Next] and through the [Child] of [JSON_TYPE_MEMBER]
    values together with their keys, each exactly once and nothing else:
    for every node first the list of its nested object, then its key and
    the node itself, then its sibling ([destroyOrder]).  All other blocks
    are left as they were. *)
Theorem destroyJsonObject_frees_reachable
  (m : lmember) (h : gmap nat block) (valid : bool) (fuel : nat) :
  m <> L_nullptr ->
  childrenNonNull m = true ->
  holds h m ->
  2 * destroySize m + 2 <= fuel ->
  exists st,
    destroyJsonObject fuel (mkState h []) (Some (mkObject (ptrOf m) valid))
    = Ok (st, Some (mkObject None valid))
    /\ freed st = destroyOrder m
    /\ List.NoDup (freed st)
    /\ (forall a, In a (freed st) <->
                  In a (reachableNodes m) \/ In a (reachableKeys m))
    /\ (forall a, In a (freed st) -> blocks st !! a = None)
    /\ (forall a, ~ In a (freed st) -> blocks st !! a = h !! a).
Proof.
  intros Hm Hnn [Hnd Hh] Hfuel.
  exists (mkState (freeAll (destroyOrder m) h) (destroyOrder m)).
  split.
  - destruct m as [|a ka k v next]; [contradiction|].
    destruct fuel as [|fuel]; [lia|].
    unfold destroyJsonObject. cbn [First destroyJsonMember ptrOf].
    rewrite (loadMember_some (mkState h []) a
               (mkMember (Some ka) (valueOf v) (ptrOf next)))
      by (apply Hh; simpl; left; reflexivity).
    cbn [bind Next].
    change (Some a) with (ptrOf (L_Node a ka k v next)).
    change (ptrOf next) with (nextPtr (L_Node a ka k v next)).
    rewrite (destroyLoop_layout _ Hnn fuel h [] Hnd Hh) by lia.
    reflexivity.
  - cbn [freed blocks]. split; [reflexivity|]. split.
    + apply destroyOrder_NoDup. exact Hnd.
    + split; [apply destroyOrder_reachable|]. split.
      * intros a. apply freeAll_lookup_in.
      * intros a. apply freeAll_lookup_notin.
Qed.

End Destroy.

Lemma destroyJsonObject_frees_reachable_witness :
  let t := Heap.L_Node 1 2 "a"
             (Heap.L_MEMBER (Heap.L_Node 3 4 "b" (Heap.L_NUMBER 1) Heap.L_nullptr))
             (Heap.L_Node 5 6 "c" Heap.L_NULL Heap.L_nullptr) in
  exists st,
    Heap.destroyJsonObject 10 (Heap.mkState (Heap.heapOf t) [])
      (Some (Heap.mkObject (Some 1) true))
    = Ok (st, Some (Heap.mkObject None true))
    /\ Heap.freed st = [4; 3; 2; 1; 6; 5].
Proof.
  intros t.
  assert (Hm : t <> Heap.L_nullptr) by discriminate.
  assert (Hh : Heap.holds (Heap.heapOf t) t).
  { split.
    - simpl. repeat (apply List.NoDup_cons; [simpl; intuition discriminate|]).
      apply List.NoDup_nil.
    - intros a b Hin. simpl in Hin.
      repeat (destruct Hin as [Hin|Hin];
              [injection Hin as <- <-; vm_compute; reflexivity|]).
      contradiction. }
  assert (Hfuel : 2 * Heap.destroySize t + 2 <= 10) by (vm_compute; lia).
  destruct (destroyJsonObject_frees_reachable t (Heap.heapOf t) true 10
              Hm eq_refl Hh Hfuel) as (st & Hrun & Hfreed & _).
  exists st. split; [exact Hrun | exact Hfreed].
Defined.

(** destroy does not free the member nodes held as elements of an array
    nor the string payloads: on [{"s":"x","arr":[{"e":null}]}] the node of
    ["e"] (address 7), the array buffer (6) and the bytes of ["x"] (3) are
    still allocated afterwards. *)
Lemma destroyJsonObject_leaves_array_members :
  let t := Heap.L_Node 1 2 "s" (Heap.L_STRING 3 "x")
             (Heap.L_Node 4 5 "arr"
                (Heap.L_ARRAY 6 [Heap.L_MEMBER
                                   (Heap.L_Node 7 8 "e" Heap.L_NULL Heap.L_nullptr)])
                Heap.L_nullptr) in
  exists st,
    Heap.destroyJsonObject 10 (Heap.mkState (Heap.heapOf t) [])
      (Some (Heap.mkObject (Some 1) true))
    = Ok (st, Some (Heap.mkObject None true))
    /\ Heap.freed st = [2; 1; 5; 4]
    /\ In 7 (Heap.memberNodes t) /\ ~ In 7 (Heap.freed st)
    /\ Heap.blocks st !! 7
        = Some (Heap.BMember (Heap.mkMember (Some 8) Heap.V_NULL None))
    /\ In 3 (Heap.stringPayloads t) /\ ~ In 3 (Heap.freed st)
    /\ Heap.blocks st !! 3 = Some (Heap.BChars "x").
Proof.
  intros t. eexists. split; [vm_compute; reflexivity|].
  cbn [Heap.freed Heap.blocks].
  split; [reflexivity|]. split; [simpl; tauto|].
  split; [simpl; intuition discriminate|]. split; [reflexivity|].
  split; [simpl; tauto|]. split; [simpl; intuition discriminate|reflexivity].
Qed.


(** ** Tokens of a JSON text *)

Lemma skipn_shift {A : Type} (buf a b : list A) (i : nat) :
  skipn i buf = a ++ b -> skipn (i + length a) buf = b.
Proof.
  intros H. rewrite <- drop_drop, H. apply drop_app_length.
Qed.

Lemma tokenizeString_cursor (buf X : list ascii) (i : nat) :
  skipn i buf = X -> tokenizeString buf i = tokenizeAt X i.
Proof. intros <-. reflexivity. Qed.

Lemma scanWhile_here (p : ascii -> bool) (c : ascii) (r : list ascii) (i : nat) :
  p c = false -> scanWhile p (c :: r) i = Ok (i, c :: r).
Proof. intros H. simpl. rewrite H. reflexivity. Qed.

(** White space in front of a token is skipped. *)
Lemma tokenizeAt_blank (w : list ascii) (c : ascii) (r : list ascii) (i : nat) :
  blank w -> isWhiteSpace c = false ->
  tokenizeAt (w ++ c :: r) i = tokenizeAt (c :: r) (i + length w).
Proof.
  intros Hw Hc. unfold tokenizeAt.
  rewrite (scanWhile_stop isWhiteSpace w c r i Hw Hc).
  rewrite (scanWhile_here isWhiteSpace c r _ Hc). reflexivity.
Qed.

Ltac punctuation :=
  intros w r i Hw; unfold lit; cbn [list_ascii_of_string app];
  rewrite tokenizeAt_blank by (exact Hw || reflexivity);
  cbn; f_equal; f_equal; lia.

Lemma tokenizeAt_object_start : forall w r i, blank w ->
  tokenizeAt (w ++ "{"%char :: r) i
  = Ok (simpleToken JSON_TOKEN_OBJECT_START, i + length w + 1).
Proof. punctuation. Qed.

Lemma tokenizeAt_object_end : forall w r i, blank w ->
  tokenizeAt (w ++ "}"%char :: r) i
  = Ok (simpleToken JSON_TOKEN_OBJECT_END, i + length w + 1).
Proof. punctuation. Qed.

Lemma tokenizeAt_array_start : forall w r i, blank w ->
  tokenizeAt (w ++ "["%char :: r) i
  = Ok (simpleToken JSON_TOKEN_ARRAY_START, i + length w + 1).
Proof. punctuation. Qed.

Lemma tokenizeAt_array_end : forall w r i, blank w ->
  tokenizeAt (w ++ "]"%char :: r) i
  = Ok (simpleToken JSON_TOKEN_ARRAY_END, i + length w + 1).
Proof. punctuation. Qed.

Lemma tokenizeAt_comma : forall w r i, blank w ->
  tokenizeAt (w ++ ","%char :: r) i
  = Ok (simpleToken JSON_TOKEN_COMMA, i + length w + 1).
Proof. punctuation. Qed.

Lemma tokenizeAt_colon : forall w r i, blank w ->
  tokenizeAt (w ++ ":"%char :: r) i
  = Ok (simpleToken JSON_TOKEN_COLON, i + length w + 1).
Proof. punctuation. Qed.

Lemma tokenizeAt_true : forall w r i, blank w ->
  tokenizeAt (w ++ lit "true" ++ r) i
  = Ok (mkToken JSON_TOKEN_BOOLEAN "true", i + length w + 4).
Proof. punctuation. Qed.

Lemma tokenizeAt_false : forall w r i, blank w ->
  tokenizeAt (w ++ lit "false" ++ r) i
  = Ok (mkToken JSON_TOKEN_BOOLEAN "false", i + length w + 5).
Proof. punctuation. Qed.

Lemma tokenizeAt_null : forall w r i, blank w ->
  tokenizeAt (w ++ lit "null" ++ r) i
  = Ok (mkToken JSON_TOKEN_NULL "null", i + length w + 4).
Proof. punctuation. Qed.

(** Strings. *)
Lemma isPlainChar_body (c : ascii) : isPlainChar c = true -> isStringBody c = true.
Proof.
  unfold isPlainChar, isStringBody. intros H.
  apply andb_prop in H as [H H32]. apply andb_prop in H as [Hq _].
  rewrite Hq. simpl.
  destruct (c =? NUL)%char eqn:E; [|reflexivity].
  apply Ascii.eqb_eq in E. subst c. discriminate H32.
Qed.

Lemma plain_body (s : list ascii) :
  forallb isPlainChar s = true -> forallb isStringBody s = true.
Proof.
  intros H. apply forallb_forall. intros c Hc.
  apply isPlainChar_body. exact (proj1 (forallb_forall _ _) H c Hc).
Qed.

Lemma tokenizeAt_plain_string (w s r : list ascii) (i : nat) :
  blank w -> plainText JSON_TOKEN_STRING_SIZE s ->
  tokenizeAt (w ++ DQUOTE :: s ++ DQUOTE :: r) i
  = Ok (mkToken JSON_TOKEN_STRING (string_of_list_ascii s),
        i + length w + length s + 2).
Proof.
  intros Hw [Hs Hlen].
  rewrite (tokenizeAt_string_open w s DQUOTE r i Hw (plain_body s Hs) eq_refl).
  change ((DQUOTE =? NUL)%char) with false. cbv iota.
  unfold copyTokenText. apply Nat.ltb_lt in Hlen. rewrite Hlen.
  rewrite firstn_app_exact. reflexivity.
Qed.

(** Numbers. *)
Lemma isDigit_isNumber (c : ascii) : isDigit c = true -> isNumber c = true.
Proof.
  destruct c as [[] [] [] [] [] [] [] []]; intros H;
    solve [reflexivity | discriminate H].
Qed.

Lemma digits_body (d : list ascii) :
  forallb isDigit d = true -> forallb isNumberBody d = true.
Proof.
  intros H. apply forallb_forall. intros c Hc.
  unfold isNumberBody.
  rewrite (isDigit_isNumber c (proj1 (forallb_forall _ _) H c Hc)). reflexivity.
Qed.

(** The shape of a number text the tokenizer relies on. *)
Lemma NumberText_shape (limit : nat) (s : list ascii) :
  NumberText limit s ->
  exists c s', s = c :: s' /\ startsNumber c = true
               /\ forallb isNumberBody s' = true /\ length s < limit.
Proof.
  intros (sign & int & frac & -> & Hsign & Hint & Hdigits & Hfrac & Hlen).
  assert (Hf : forallb isNumberBody frac = true).
  { destruct Hfrac as [->|(d & -> & _ & Hd)]; [reflexivity|].
    simpl. apply digits_body. exact Hd. }
  destruct int as [|c0 int]; [contradiction|].
  simpl in Hdigits. apply andb_prop in Hdigits as [Hc0 Hrest].
  destruct Hsign as [->| ->].
  - exists c0, (int ++ frac). split; [reflexivity|]. split.
    + unfold startsNumber. rewrite (isDigit_isNumber _ Hc0). apply orb_true_r.
    + split; [|exact Hlen]. rewrite forallb_app, (digits_body _ Hrest), Hf. reflexivity.
  - exists "-"%char, (c0 :: int ++ frac). split; [reflexivity|]. split; [reflexivity|].
    split; [|exact Hlen]. simpl. rewrite forallb_app, (digits_body _ Hrest), Hf.
    unfold isNumberBody at 1. rewrite (isDigit_isNumber _ Hc0). reflexivity.
Qed.

Lemma startsNumber_dispatch (c : ascii) :
  startsNumber c = true ->
  isWhiteSpace c = false
  /\ (c =? "{")%char = false /\ (c =? "}")%char = false
  /\ (c =? "[")%char = false /\ (c =? "]")%char = false
  /\ (c =? ",")%char = false /\ (c =? ":")%char = false
  /\ (c =? DQUOTE)%char = false.
Proof.
  destruct c as [[] [] [] [] [] [] [] []]; intros H;
    solve [repeat split; reflexivity | discriminate H].
Qed.

Lemma tokenizeAt_number_text (w s rest : list ascii) (i : nat) :
  blank w -> NumberText JSON_TOKEN_STRING_SIZE s -> delimited rest ->
  tokenizeAt (w ++ s ++ rest) i
  = Ok (mkToken JSON_TOKEN_NUMBER (string_of_list_ascii s),
        i + length w + length s).
Proof.
  intros Hw Hs (d & r & -> & Hd & Hnul).
  destruct (NumberText_shape _ s Hs) as (c & s' & -> & Hc & Hbody & Hlen).
  destruct (startsNumber_dispatch c Hc) as (Hws & H1 & H2 & H3 & H4 & H5 & H6 & H7).
  cbn [app]. rewrite (tokenizeAt_blank w c _ i Hw Hws).
  unfold tokenizeAt. rewrite (scanWhile_here isWhiteSpace c _ _ Hws). cbn [bind].
  rewrite H1, H2, H3, H4, H5, H6, H7.
  unfold startsNumber in Hc. rewrite Hc.
  rewrite (scanWhile_stop isNumberBody s' d r _ Hbody Hd). cbn [bind].
  rewrite Hnul. unfold copyTokenText.
  replace (S (i + length w) + length s' - (i + length w)) with (length (c :: s'))
    by (simpl; lia).
  apply Nat.ltb_lt in Hlen. rewrite Hlen.
  change (c :: s' ++ d :: r) with ((c :: s') ++ d :: r).
  rewrite firstn_app_exact. cbn [bind]. f_equal. f_equal. simpl. lia.
Qed.

Lemma delimited_blank_then (w : list ascii) (c : ascii) (r : list ascii) :
  blank w -> isNumberBody c = false -> (c =? NUL)%char = false ->
  delimited (w ++ c :: r).
Proof.
  intros Hw Hc Hn. destruct w as [|a w].
  - exists c, r. split; [reflexivity|]. split; assumption.
  - exists a, (w ++ c :: r). split; [reflexivity|].
    unfold blank in Hw. simpl in Hw. apply andb_prop in Hw as [Ha _].
    destruct a as [[] [] [] [] [] [] [] []];
      solve [split; reflexivity | discriminate Ha].
Qed.

(** ** Parsing the text of a JSON object *)

(** The array overload returns, or reads past the values it is handed. *)
Lemma addJsonMemberArray_run (malloc_Next : json_member_ptr) (JsonObject : json_object)
  (Key : option string) (ArrayHead : option (list json_value)) (ArraySize : nat) :
  (exists JsonObject',
     addJsonMemberArray malloc_Next JsonObject Key ArrayHead ArraySize = Ok JsonObject')
  \/ addJsonMemberArray malloc_Next JsonObject Key ArrayHead ArraySize
     = Fault ArrayOverrun.
Proof.
  unfold addJsonMemberArray.
  destruct ArrayHead as [values|]; [|left; eexists; reflexivity].
  destruct Key as [k|]; [|left; eexists; reflexivity].
  destruct (ArraySize <=? length values); [left; eexists; reflexivity|right; reflexivity].
Qed.

Ltac array_insert r :=
  match goal with
  | |- context [addJsonMemberArray ?J ?o ?k ?h ?n] =>
      destruct (addJsonMemberArray_run J o k h n) as [[r ->]| ->]
  end.

Section ParseSteps.

Variable atof : string -> float.
Variable malloc_zero_is_null : bool.
Variable malloc_Next : json_member_ptr.

Local Abbreviation parseLoop' := (parseLoop atof malloc_zero_is_null malloc_Next).
Local Abbreviation parseMembers' := (parseMembers atof malloc_zero_is_null malloc_Next).
Local Abbreviation countArray' := (countArray atof malloc_zero_is_null malloc_Next).
Local Abbreviation fillArray' := (fillArray atof malloc_zero_is_null malloc_Next).
Local Abbreviation valueStep' := (valueStep atof malloc_zero_is_null malloc_Next).
Local Abbreviation countFrom' := (countFrom atof malloc_zero_is_null malloc_Next).
Local Abbreviation fillFrom' := (fillFrom atof malloc_zero_is_null malloc_Next).

(** One turn of each loop. *)
Lemma parseLoop_S fuel buf size idx :
  parseLoop' (S fuel) buf size idx =
  if idx <? size then
    let* (Token, i) := tokenizeString buf idx in
    match TokenType Token with
    | JSON_TOKEN_INVALID => Ok (json_object_init, i)
    | JSON_TOKEN_OBJECT_START => parseMembers' fuel buf size i json_object_init
    | _ => parseLoop' fuel buf size i
    end
  else Ok (json_object_init, idx).
Proof. reflexivity. Qed.

Lemma parseMembers_S fuel buf size idx Result :
  parseMembers' (S fuel) buf size idx Result =
  let* (KeyToken, i1) := tokenizeString buf idx in
  match TokenType KeyToken with
  | JSON_TOKEN_STRING =>
      let* (ColonToken, i2) := tokenizeString buf i1 in
      match TokenType ColonToken with
      | JSON_TOKEN_COLON =>
          let* (added, i4) :=
            valueStep' fuel buf size Result (Some (TokenString KeyToken)) i2 in
          match added with
          | None => Ok (invalidate Result, i4)
          | Some Result' =>
              let* (CommaToken, i5) := tokenizeString buf i4 in
              match TokenType CommaToken with
              | JSON_TOKEN_COMMA => parseMembers' fuel buf size i5 Result'
              | _ => Ok (Result', i5)
              end
          end
      | _ => Ok (invalidate Result, i2)
      end
  | _ => Ok (invalidate Result, i1)
  end.
Proof. reflexivity. Qed.

Lemma countArray_S fuel buf size ArrayToken idx n :
  countArray' (S fuel) buf size ArrayToken idx n =
  match TokenType ArrayToken with
  | JSON_TOKEN_ARRAY_END => Ok (Some n, idx)
  | JSON_TOKEN_OBJECT_START =>
      let* (_, i) := parseLoop' fuel buf size (idx - 1) in
      countFrom' fuel buf size i (S n)
  | JSON_TOKEN_NUMBER | JSON_TOKEN_BOOLEAN | JSON_TOKEN_NULL
  | JSON_TOKEN_STRING => countFrom' fuel buf size idx (S n)
  | JSON_TOKEN_COMMA => countFrom' fuel buf size idx n
  | _ => Ok (None, idx)
  end.
Proof. reflexivity. Qed.

Lemma fillArray_S fuel buf size ArrayToken idx ValueArray :
  fillArray' (S fuel) buf size ArrayToken idx ValueArray =
  match TokenType ArrayToken with
  | JSON_TOKEN_ARRAY_END => Ok (Some ValueArray, idx)
  | JSON_TOKEN_OBJECT_START =>
      let* (TempObject, i) := parseLoop' fuel buf size (idx - 1) in
      fillFrom' fuel buf size i (ValueArray ++ [JSON_TYPE_MEMBER (First TempObject)])
  | JSON_TOKEN_NUMBER =>
      fillFrom' fuel buf size idx
        (ValueArray ++ [JSON_TYPE_NUMBER (atof (TokenString ArrayToken))])
  | JSON_TOKEN_BOOLEAN =>
      fillFrom' fuel buf size idx
        (ValueArray ++ [JSON_TYPE_BOOLEAN (isTrueText (TokenString ArrayToken))])
  | JSON_TOKEN_NULL => fillFrom' fuel buf size idx (ValueArray ++ [JSON_TYPE_NULL])
  | JSON_TOKEN_STRING =>
      fillFrom' fuel buf size idx
        (ValueArray ++ [JSON_TYPE_STRING (TokenString ArrayToken)])
  | JSON_TOKEN_COMMA => fillFrom' fuel buf size idx ValueArray
  | _ => Ok (None, idx)
  end.
Proof. reflexivity. Qed.

End ParseSteps.

(** The texts of the grammar are parsed into the trees they denote when
    the blocks [malloc] hands out for the members hold a null [Next]. *)
Section ParseText.

Variable atof : string -> float.
Variable malloc_zero_is_null : bool.

Local Abbreviation parseLoop' := (parseLoop atof malloc_zero_is_null nullptr).
Local Abbreviation parseMembers' := (parseMembers atof malloc_zero_is_null nullptr).
Local Abbreviation countArray' := (countArray atof malloc_zero_is_null nullptr).
Local Abbreviation fillArray' := (fillArray atof malloc_zero_is_null nullptr).
Local Abbreviation valueStep' := (valueStep atof malloc_zero_is_null nullptr).
Local Abbreviation countFrom' := (countFrom atof malloc_zero_is_null nullptr).
Local Abbreviation fillFrom' := (fillFrom atof malloc_zero_is_null nullptr).
Local Abbreviation ValueText' := (ValueText atof JSON_TOKEN_STRING_SIZE).
Local Abbreviation MembersText' := (MembersText atof JSON_TOKEN_STRING_SIZE).
Local Abbreviation ElementsText' := (ElementsText atof JSON_TOKEN_STRING_SIZE).

(** Moving the cursor over a piece of the text. *)
Lemma cursor_over (buf a X : list ascii) (i : nat) :
  skipn i buf = a ++ X -> skipn (i + length a) buf = X.
Proof. apply skipn_shift. Qed.

Lemma cursor_over_byte (buf w : list ascii) (c : ascii) (X : list ascii) (i : nat) :
  skipn i buf = w ++ c :: X -> skipn (i + length w + 1) buf = X.
Proof.
  intros H. replace (i + length w + 1) with (i + length (w ++ [c]))
    by (rewrite length_app; simpl; lia).
  apply skipn_shift. rewrite <- app_assoc. exact H.
Qed.

Lemma cursor_over_two (buf w s X : list ascii) (i : nat) :
  skipn i buf = w ++ s ++ X -> skipn (i + length w + length s) buf = X.
Proof.
  intros H. replace (i + length w + length s) with (i + length (w ++ s))
    by (rewrite length_app; lia).
  apply skipn_shift. rewrite <- app_assoc. exact H.
Qed.

Lemma cursor_over_string (buf w k X : list ascii) (i : nat) :
  skipn i buf = w ++ DQUOTE :: k ++ DQUOTE :: X ->
  skipn (i + length w + length k + 2) buf = X.
Proof.
  intros H.
  replace (i + length w + length k + 2)
    with (i + length (w ++ DQUOTE :: k ++ [DQUOTE]))
    by (rewrite length_app; simpl; rewrite length_app; simpl; lia).
  apply skipn_shift. rewrite <- app_assoc. cbn [app].
  rewrite <- app_assoc. exact H.
Qed.

(** An object: the opening brace, then the members up to the closing
    brace. *)
Lemma parseLoop_object (s : list ascii) (m : json_member_ptr) :
  (forall fuel buf size Result i rest,
     skipn i buf = s ++ "}"%char :: rest ->
     i + length s + 1 <= size ->
     2 * length s <= fuel ->
     parseMembers' fuel buf size i Result
     = Ok (mkObject (appendMember (First Result) m) (IsValid Result),
           i + length s + 1)) ->
  forall fuel buf size i w rest,
    blank w ->
    skipn i buf = w ++ "{"%char :: s ++ "}"%char :: rest ->
    i + length w + length s + 2 <= size ->
    2 * length s + 1 <= fuel ->
    parseLoop' fuel buf size i = Ok (mkObject m true, i + length w + length s + 2).
Proof.
  intros Hmembers fuel buf size i w rest Hw Hbuf Hsize Hfuel.
  destruct fuel as [|fuel]; [lia|].
  rewrite parseLoop_S.
  replace (i <? size) with true by (symmetry; apply Nat.ltb_lt; lia).
  rewrite (tokenizeString_cursor _ _ _ Hbuf), (tokenizeAt_object_start _ _ _ Hw).
  cbn [bind TokenType simpleToken].
  rewrite (Hmembers fuel buf size json_object_init (i + length w + 1) rest
             (cursor_over_byte _ _ _ _ _ Hbuf)) by lia.
  cbn [First IsValid json_object_init appendMember]. f_equal. f_equal. lia.
Qed.

Lemma appendMember_last (a : json_member_ptr) k v next :
  appendMember (appendMember a (Member k v nullptr)) next
  = appendMember a (Member k v next).
Proof.
  induction a as [|k' v' a IH] using member_next_ind; simpl; [reflexivity|].
  rewrite IH. reflexivity.
Qed.

Lemma supportedValue_array (vs : list json_value) :
  supportedValue malloc_zero_is_null (JSON_TYPE_ARRAY vs)
  = (negb malloc_zero_is_null || negb (length vs =? 0))
    && supportedElements malloc_zero_is_null vs.
Proof.
  cbn [supportedValue]. f_equal.
Qed.

Lemma mallocValueArray_supported (vs : list json_value) :
  negb malloc_zero_is_null || negb (length vs =? 0) = true ->
  mallocValueArray malloc_zero_is_null (length vs) vs = Some vs.
Proof.
  destruct vs as [|e vs]; [|reflexivity].
  simpl. destruct malloc_zero_is_null; [discriminate|reflexivity].
Qed.

(** Scalars: one token, in a member and in both passes over an array. *)
Lemma scalar_parsed (sv : list ascii) (v : json_value) (Token : json_token) :
  (forall buf i w rest,
     blank w -> delimited rest -> skipn i buf = w ++ sv ++ rest ->
     tokenizeString buf i = Ok (Token, i + length w + length sv)) ->
  (forall Result k,
     match TokenType Token with
     | JSON_TOKEN_STRING => Some (addJsonMemberString nullptr Result (Some k) (TokenString Token))
     | JSON_TOKEN_NUMBER =>
         Some (addJsonMemberNumber nullptr Result (Some k) (atof (TokenString Token)))
     | JSON_TOKEN_BOOLEAN =>
         Some (addJsonMemberBoolean nullptr Result (Some k) (isTrueText (TokenString Token)))
     | JSON_TOKEN_NULL => Some (addJsonMemberNull nullptr Result (Some k))
     | _ => None
     end = Some (appendNew nullptr Result k v)) ->
  match TokenType Token with
  | JSON_TOKEN_STRING => JSON_TYPE_STRING (TokenString Token)
  | JSON_TOKEN_NUMBER => JSON_TYPE_NUMBER (atof (TokenString Token))
  | JSON_TOKEN_BOOLEAN => JSON_TYPE_BOOLEAN (isTrueText (TokenString Token))
  | JSON_TOKEN_NULL => JSON_TYPE_NULL
  | _ => JSON_TYPE_INVALID
  end = v ->
  valueParsed atof malloc_zero_is_null nullptr sv v.
Proof.
  intros Htok Hadd Hval _. split.
  - intros fuel buf size Result k i w rest Hw Hd Hbuf _ _.
    unfold valueStep. rewrite (Htok buf i w rest Hw Hd Hbuf). cbn [bind].
    specialize (Hadd Result k).
    destruct (TokenType Token); try discriminate Hadd;
      rewrite Hadd; reflexivity.
  - intros _ fuel buf size i w rest Hw Hd Hbuf _ _. split.
    + intros n. unfold countFrom at 1.
      rewrite (Htok buf i w rest Hw Hd Hbuf). cbn [bind].
      rewrite countArray_S.
      destruct (TokenType Token); try reflexivity;
        specialize (Hadd json_object_init EmptyString); discriminate Hadd.
    + intros acc. unfold fillFrom at 1.
      rewrite (Htok buf i w rest Hw Hd Hbuf). cbn [bind].
      rewrite fillArray_S. rewrite <- Hval.
      destruct (TokenType Token); try reflexivity;
        specialize (Hadd json_object_init EmptyString); discriminate Hadd.
Qed.

Lemma addJsonMemberObject_parsed (Result : json_object) k (m : json_member_ptr) :
  m <> nullptr ->
  addJsonMemberObject nullptr Result (Some k) (mkObject m true)
  = appendNew nullptr Result k (JSON_TYPE_MEMBER m).
Proof. destruct m; [contradiction|reflexivity]. Qed.

Lemma supportedValue_member (m : json_member_ptr) :
  supportedValue malloc_zero_is_null (JSON_TYPE_MEMBER m) = true ->
  m <> nullptr /\ supportedMembers malloc_zero_is_null m = true.
Proof.
  destruct m as [|k v next]; [discriminate|].
  intros H. split; [discriminate|exact H].
Qed.

Ltac text_length :=
  repeat (rewrite length_app || (progress cbn [length])); lia.

Ltac flat_buffer H :=
  repeat (rewrite <- app_assoc in H || (progress cbn [app] in H)).

Lemma json_text_parsed :
  (forall sv v, ValueText' sv v -> valueParsed atof malloc_zero_is_null nullptr sv v)
  /\ (forall s m, MembersText' s m -> membersParsed atof malloc_zero_is_null nullptr s m)
  /\ (forall s vs, ElementsText' s vs -> elementsParsed atof malloc_zero_is_null nullptr s vs).
Proof.
  apply JsonText_mutind.
  - (* a string *)
    intros s Hs.
    apply scalar_parsed
      with (Token := mkToken JSON_TOKEN_STRING (string_of_list_ascii s));
      [|reflexivity|reflexivity].
    intros buf i w rest Hw Hd Hbuf. flat_buffer Hbuf.
    rewrite (tokenizeString_cursor _ _ _ Hbuf), (tokenizeAt_plain_string _ _ _ _ Hw Hs).
    f_equal. f_equal. text_length.
  - (* a number *)
    intros s Hs.
    apply scalar_parsed
      with (Token := mkToken JSON_TOKEN_NUMBER (string_of_list_ascii s));
      [|reflexivity|reflexivity].
    intros buf i w rest Hw Hd Hbuf.
    rewrite (tokenizeString_cursor _ _ _ Hbuf).
    apply tokenizeAt_number_text; assumption.
  - (* true *)
    apply scalar_parsed with (Token := mkToken JSON_TOKEN_BOOLEAN "true");
      [|reflexivity|reflexivity].
    intros buf i w rest Hw Hd Hbuf.
    rewrite (tokenizeString_cursor _ _ _ Hbuf). apply tokenizeAt_true. exact Hw.
  - (* false *)
    apply scalar_parsed with (Token := mkToken JSON_TOKEN_BOOLEAN "false");
      [|reflexivity|reflexivity].
    intros buf i w rest Hw Hd Hbuf.
    rewrite (tokenizeString_cursor _ _ _ Hbuf). apply tokenizeAt_false. exact Hw.
  - (* null *)
    apply scalar_parsed with (Token := mkToken JSON_TOKEN_NULL "null");
      [|reflexivity|reflexivity].
    intros buf i w rest Hw Hd Hbuf.
    rewrite (tokenizeString_cursor _ _ _ Hbuf). apply tokenizeAt_null. exact Hw.
  - (* an object *)
    intros s m _ IH Hsup.
    apply supportedValue_member in Hsup as [Hm Hsup].
    specialize (IH Hm Hsup).
    assert (Hobj : forall fuel buf size i w rest,
              blank w -> skipn i buf = w ++ ("{"%char :: s ++ ["}"%char]) ++ rest ->
              i + length w + length ("{"%char :: s ++ ["}"%char]) <= size ->
              2 * length ("{"%char :: s ++ ["}"%char]) <= S fuel ->
              tokenizeString buf i
              = Ok (simpleToken JSON_TOKEN_OBJECT_START, i + length w + 1)
              /\ parseLoop' fuel buf size (i + length w + 1 - 1)
                 = Ok (mkObject m true,
                       i + length w + length ("{"%char :: s ++ ["}"%char]))).
    { intros fuel buf size i w rest Hw Hbuf Hsize Hfuel. flat_buffer Hbuf.
      split.
      - rewrite (tokenizeString_cursor _ _ _ Hbuf). apply tokenizeAt_object_start.
        exact Hw.
      - replace (i + length w + 1 - 1) with (i + length w) by lia.
        replace (i + length w + length ("{"%char :: s ++ ["}"%char]))
          with (i + length w + length (@nil ascii) + length s + 2) by text_length.
        apply (parseLoop_object s m IH fuel buf size (i + length w) [] rest).
        + reflexivity.
        + exact (cursor_over _ _ _ _ Hbuf).
        + revert Hsize. text_length.
        + revert Hfuel. text_length. }
    split.
    + intros fuel buf size Result k i w rest Hw Hd Hbuf Hsize Hfuel.
      destruct (Hobj fuel buf size i w rest Hw Hbuf Hsize ltac:(lia)) as [Htok Hparse].
      unfold valueStep. rewrite Htok. cbn [bind TokenType simpleToken].
      rewrite Hparse. cbn [bind].
      rewrite (addJsonMemberObject_parsed _ _ _ Hm). reflexivity.
    + intros _ fuel buf size i w rest Hw Hd Hbuf Hsize Hfuel.
      destruct (Hobj fuel buf size i w rest Hw Hbuf Hsize ltac:(lia)) as [Htok Hparse].
      split.
      * intros n. unfold countFrom at 1. rewrite Htok. cbn [bind].
        rewrite countArray_S. cbn [TokenType simpleToken].
        rewrite Hparse. reflexivity.
      * intros acc. unfold fillFrom at 1. rewrite Htok. cbn [bind].
        rewrite fillArray_S. cbn [TokenType simpleToken].
        rewrite Hparse. reflexivity.
  - (* an array *)
    intros s vs _ IH Hsup.
    rewrite supportedValue_array in Hsup. apply andb_prop in Hsup as [Hmalloc Hsup].
    specialize (IH Hsup).
    split; [|discriminate].
    intros fuel buf size Result k i w rest Hw Hd Hbuf Hsize Hfuel.
    flat_buffer Hbuf.
    unfold valueStep.
    rewrite (tokenizeString_cursor _ _ _ Hbuf), (tokenizeAt_array_start _ _ _ Hw).
    cbn [bind TokenType simpleToken].
    destruct (IH fuel buf size (i + length w + 1) rest
                (cursor_over_byte _ _ _ _ _ Hbuf)) as [Hcount Hfill].
    { revert Hsize. text_length. }
    { revert Hfuel. text_length. }
    rewrite Hcount. cbn [bind]. rewrite Hfill. cbn [bind app Nat.add].
    rewrite (mallocValueArray_supported _ Hmalloc).
    unfold addJsonMemberArray. rewrite Nat.leb_refl, firstn_all. cbn [bind].
    f_equal. f_equal. text_length.
  - (* no member *)
    intros w _ Hm. contradiction.
  - (* the last member *)
    intros w1 k w2 w3 sv v w4 Hw1 Hk Hw2 Hw3 _ IHv Hw4 _ Hsup
           fuel buf size Result i rest Hbuf Hsize Hfuel.
    cbn [supportedMembers] in Hsup. apply andb_prop in Hsup as [Hsupv _].
    destruct (IHv Hsupv) as [Hvalue _].
    flat_buffer Hbuf.
    destruct fuel as [|fuel]; [revert Hfuel; text_length|].
    rewrite parseMembers_S.
    rewrite (tokenizeString_cursor _ _ _ Hbuf), (tokenizeAt_plain_string _ _ _ _ Hw1 Hk).
    cbn [bind TokenType TokenString].
    pose proof (cursor_over_string _ _ _ _ _ Hbuf) as Hbuf1.
    rewrite (tokenizeString_cursor _ _ _ Hbuf1), (tokenizeAt_colon _ _ _ Hw2).
    cbn [bind TokenType simpleToken].
    pose proof (cursor_over_byte _ _ _ _ _ Hbuf1) as Hbuf2.
    rewrite (Hvalue fuel buf size Result (string_of_list_ascii k) _ w3
               (w4 ++ "}"%char :: rest) Hw3
               (delimited_blank_then w4 "}"%char _ Hw4 eq_refl eq_refl) Hbuf2)
      by (revert Hsize Hfuel; text_length).
    cbn [bind].
    pose proof (cursor_over_two _ _ _ _ _ Hbuf2) as Hbuf3.
    rewrite (tokenizeString_cursor _ _ _ Hbuf3), (tokenizeAt_object_end _ _ _ Hw4).
    cbn [bind TokenType simpleToken appendNew].
    f_equal. f_equal. text_length.
  - (* a member followed by others *)
    intros w1 k w2 w3 sv v w4 s' next Hw1 Hk Hw2 Hw3 _ IHv Hw4 _ IHn Hnext _ Hsup
           fuel buf size Result i rest Hbuf Hsize Hfuel.
    cbn [supportedMembers] in Hsup. apply andb_prop in Hsup as [Hsupv Hsupn].
    destruct (IHv Hsupv) as [Hvalue _].
    specialize (IHn Hnext Hsupn).
    flat_buffer Hbuf.
    destruct fuel as [|fuel]; [revert Hfuel; text_length|].
    rewrite parseMembers_S.
    rewrite (tokenizeString_cursor _ _ _ Hbuf), (tokenizeAt_plain_string _ _ _ _ Hw1 Hk).
    cbn [bind TokenType TokenString].
    pose proof (cursor_over_string _ _ _ _ _ Hbuf) as Hbuf1.
    rewrite (tokenizeString_cursor _ _ _ Hbuf1), (tokenizeAt_colon _ _ _ Hw2).
    cbn [bind TokenType simpleToken].
    pose proof (cursor_over_byte _ _ _ _ _ Hbuf1) as Hbuf2.
    rewrite (Hvalue fuel buf size Result (string_of_list_ascii k) _ w3
               (w4 ++ ","%char :: s' ++ "}"%char :: rest) Hw3
               (delimited_blank_then w4 ","%char _ Hw4 eq_refl eq_refl) Hbuf2)
      by (revert Hsize Hfuel; text_length).
    cbn [bind].
    pose proof (cursor_over_two _ _ _ _ _ Hbuf2) as Hbuf3.
    rewrite (tokenizeString_cursor _ _ _ Hbuf3), (tokenizeAt_comma _ _ _ Hw4).
    cbn [bind TokenType simpleToken].
    rewrite (IHn fuel buf size _ _ rest (cursor_over_byte _ _ _ _ _ Hbuf3))
      by (revert Hsize Hfuel; text_length).
    cbn [First IsValid appendNew]. rewrite appendMember_last.
    f_equal. f_equal. text_length.
  - (* no element *)
    intros w Hw _ fuel buf size i rest Hbuf Hsize Hfuel.
    destruct fuel as [|fuel]; [lia|].
    split.
    + intros n. unfold countFrom.
      rewrite (tokenizeString_cursor _ _ _ Hbuf), (tokenizeAt_array_end _ _ _ Hw).
      cbn [bind]. rewrite countArray_S. cbn [TokenType simpleToken length].
      rewrite Nat.add_0_r. reflexivity.
    + intros acc. unfold fillFrom.
      rewrite (tokenizeString_cursor _ _ _ Hbuf), (tokenizeAt_array_end _ _ _ Hw).
      cbn [bind]. rewrite fillArray_S. cbn [TokenType simpleToken].
      rewrite app_nil_r. reflexivity.
  - (* the last element *)
    intros w1 sv v w2 Hw1 _ IHv Hw2 Hsup fuel buf size i rest Hbuf Hsize Hfuel.
    cbn [supportedElements forallb] in Hsup.
    apply andb_prop in Hsup as [Hsup _]. apply andb_prop in Hsup as [Harr Hsupv].
    apply negb_true_iff in Harr.
    destruct (IHv Hsupv) as [_ Hpass]. specialize (Hpass Harr).
    flat_buffer Hbuf.
    destruct fuel as [|fuel]; [lia|].
    destruct (Hpass fuel buf size i w1 (w2 ++ "]"%char :: rest) Hw1
                (delimited_blank_then w2 "]"%char _ Hw2 eq_refl eq_refl) Hbuf)
      as [Hcount Hfill]; try (revert Hsize Hfuel; text_length).
    pose proof (cursor_over_two _ _ _ _ _ Hbuf) as Hbuf1.
    destruct fuel as [|fuel]; [lia|].
    split.
    + intros n. rewrite Hcount. unfold countFrom.
      rewrite (tokenizeString_cursor _ _ _ Hbuf1), (tokenizeAt_array_end _ _ _ Hw2).
      cbn [bind]. rewrite countArray_S. cbn [TokenType simpleToken length].
      f_equal. f_equal; [f_equal; lia|text_length].
    + intros acc. rewrite Hfill. unfold fillFrom.
      rewrite (tokenizeString_cursor _ _ _ Hbuf1), (tokenizeAt_array_end _ _ _ Hw2).
      cbn [bind]. rewrite fillArray_S. cbn [TokenType simpleToken].
      f_equal. f_equal. text_length.
  - (* an element followed by others *)
    intros w1 sv v w2 s' vs Hw1 _ IHv Hw2 _ IHe _ Hsup
           fuel buf size i rest Hbuf Hsize Hfuel.
    cbn [supportedElements forallb] in Hsup.
    apply andb_prop in Hsup as [Hsup Hsupe]. apply andb_prop in Hsup as [Harr Hsupv].
    apply negb_true_iff in Harr.
    destruct (IHv Hsupv) as [_ Hpass]. specialize (Hpass Harr).
    specialize (IHe Hsupe).
    flat_buffer Hbuf.
    destruct fuel as [|fuel]; [lia|].
    destruct (Hpass fuel buf size i w1 (w2 ++ ","%char :: s' ++ "]"%char :: rest) Hw1
                (delimited_blank_then w2 ","%char _ Hw2 eq_refl eq_refl) Hbuf)
      as [Hcount Hfill]; try (revert Hsize Hfuel; text_length).
    pose proof (cursor_over_two _ _ _ _ _ Hbuf) as Hbuf1.
    destruct fuel as [|fuel]; [lia|].
    destruct (IHe fuel buf size _ rest (cursor_over_byte _ _ _ _ _ Hbuf1))
      as [Hcount' Hfill']; try (revert Hsize Hfuel; text_length).
    split.
    + intros n. rewrite Hcount. unfold countFrom at 1.
      rewrite (tokenizeString_cursor _ _ _ Hbuf1), (tokenizeAt_comma _ _ _ Hw2).
      cbn [bind]. rewrite countArray_S. cbn [TokenType simpleToken].
      rewrite Hcount'. cbn [length].
      f_equal. f_equal; [f_equal; lia|text_length].
    + intros acc. rewrite Hfill. unfold fillFrom at 1.
      rewrite (tokenizeString_cursor _ _ _ Hbuf1), (tokenizeAt_comma _ _ _ Hw2).
      cbn [bind]. rewrite fillArray_S. cbn [TokenType simpleToken].
      rewrite Hfill'. rewrite <- app_assoc. cbn [app].
      f_equal. f_equal. text_length.
Qed.

(** A JSON object text is parsed into the tree it denotes, with the cursor
    left after the closing brace, whenever the declared length covers the
    text. *)
Lemma parseStringToJson_object_text (text rest : list ascii) (m : json_member_ptr)
  (size : nat) :
  ObjectText atof JSON_TOKEN_STRING_SIZE text m ->
  m <> nullptr ->
  supportedMembers malloc_zero_is_null m = true ->
  length text <= size ->
  parseStringToJson atof malloc_zero_is_null nullptr (text ++ rest) size 0
  = Ok (mkObject m true, length text).
Proof.
  intros (w & s & Hw & -> & Hs) Hm Hsup Hsize.
  inversion Hs as [| | | | |s0 m0 Hmembers|]; subst.
  pose proof (proj1 (proj2 json_text_parsed) s0 m Hmembers Hm Hsup) as Hparsed.
  unfold parseStringToJson.
  replace (length (w ++ "{"%char :: s0 ++ ["}"%char]))
    with (0 + length w + length s0 + 2) by text_length.
  apply (parseLoop_object s0 m Hparsed _ _ _ 0 w rest Hw).
  - rewrite <- app_assoc. cbn [app]. rewrite <- app_assoc. reflexivity.
  - revert Hsize. text_length.
  - unfold parseFuel. text_length.
Qed.

End ParseText.

(** ** Printing a parsed tree *)

(** Induction on a tree: values, member lists and the elements of
    arrays. *)
Lemma json_tree_ind (P : json_value -> Prop) (Q : json_member_ptr -> Prop) :
  P JSON_TYPE_INVALID ->
  (forall Child, Q Child -> P (JSON_TYPE_MEMBER Child)) ->
  (forall Head, Forall P Head -> P (JSON_TYPE_ARRAY Head)) ->
  (forall s, P (JSON_TYPE_STRING s)) ->
  (forall n, P (JSON_TYPE_NUMBER n)) ->
  (forall b, P (JSON_TYPE_BOOLEAN b)) ->
  P JSON_TYPE_NULL ->
  Q nullptr ->
  (forall k v next, P v -> Q next -> Q (Member k v next)) ->
  (forall v, P v) /\ (forall m, Q m).
Proof.
  intros Hinv Hmem Harr Hstr Hnum Hbool Hnull Hnil Hnode.
  assert (Hv : forall v, P v).
  { fix onValue 1. intros v. destruct v as [|Child|Head|s|n|b|].
    - exact Hinv.
    - apply Hmem. revert Child. fix onMembers 1. intros [|k v next].
      + exact Hnil.
      + apply Hnode; [apply onValue | apply onMembers].
    - apply Harr. induction Head as [|e Head IH]; constructor.
      + apply onValue.
      + exact IH.
    - apply Hstr.
    - apply Hnum.
    - apply Hbool.
    - exact Hnull. }
  split; [exact Hv|].
  fix onMembers 1. intros [|k v next].
  - exact Hnil.
  - apply Hnode; [apply Hv | apply onMembers].
Qed.

Section PrintFacts.

Variable modf_fractional : float -> float.
Variable printf_d_int32 : float -> string.
Variable printf_4lf : float -> string.
Variable malloc_zero_is_null : bool.

Local Abbreviation printJsonValue' :=
  (printJsonValue modf_fractional printf_d_int32 printf_4lf).
Local Abbreviation printJsonLoop' :=
  (printJsonLoop modf_fractional printf_d_int32 printf_4lf).

Local Abbreviation printElements' :=
  (printElements modf_fractional printf_d_int32 printf_4lf).

Lemma printJsonValue_member (k : string) (v : json_value) (next : json_member_ptr) :
  printJsonValue' (JSON_TYPE_MEMBER (Member k v next))
  = let* s := printJsonLoop' (Member k v next) in Ok ("{" +:+ s +:+ "}").
Proof. reflexivity. Qed.

Lemma printJsonValue_array (Head : list json_value) :
  printJsonValue' (JSON_TYPE_ARRAY Head)
  = let* s := printElements' Head in Ok ("[" +:+ s +:+ "]").
Proof. reflexivity. Qed.

Lemma printJsonLoop_node (k : string) (v : json_value) (next : json_member_ptr) :
  printJsonLoop' (Member k v next)
  = let* s := printJsonValue' v in
    match next with
    | nullptr => Ok (quoted k +:+ " : " +:+ s)
    | _ =>
        let* r := printJsonLoop' next in
        Ok (quoted k +:+ " : " +:+ s +:+ ", " +:+ r)
    end.
Proof. reflexivity. Qed.

(** The print functions run to their end on the trees the parser builds:
    they never meet a null [Child]. *)
Lemma print_supported :
  (forall v, supportedValue malloc_zero_is_null v = true ->
             exists s, printJsonValue' v = Ok s)
  /\ (forall m, m <> nullptr -> supportedMembers malloc_zero_is_null m = true ->
                exists s, printJsonLoop' m = Ok s).
Proof.
  apply json_tree_ind.
  - intros _. eexists. reflexivity.
  - intros Child IH Hsup. destruct Child as [|k v next]; [discriminate|].
    destruct (IH ltac:(discriminate) Hsup) as [s Hs].
    rewrite printJsonValue_member, Hs. eexists. reflexivity.
  - intros Head IH Hsup. rewrite supportedValue_array in Hsup.
    apply andb_prop in Hsup as [_ Hsup].
    rewrite printJsonValue_array.
    assert (Helems : exists s, printElements' Head = Ok s).
    { induction Head as [|e Head IHl]; [eexists; reflexivity|].
      cbn [supportedElements forallb] in Hsup.
      apply andb_prop in Hsup as [He Hrest]. apply andb_prop in He as [_ He].
      inversion IH as [|e' Head' Pe PHead]; subst.
      destruct (Pe He) as [a Ha]. cbn [printElements]. rewrite Ha. cbn [bind].
      destruct Head as [|e2 Head]; [eexists; reflexivity|].
      destruct (IHl PHead Hrest) as [b Hb]. rewrite Hb. eexists. reflexivity. }
    destruct Helems as [s Hs]. rewrite Hs. eexists. reflexivity.
  - intros s _. eexists. reflexivity.
  - intros n _. cbn [printJsonValue].
    destruct (isFractionalPartZero modf_fractional n); eexists; reflexivity.
  - intros b _. eexists. reflexivity.
  - intros _. eexists. reflexivity.
  - intros Hnull. contradiction.
  - intros k v next IHv IHn _ Hsup. cbn [supportedMembers] in Hsup.
    apply andb_prop in Hsup as [Hsupv Hsupn].
    destruct (IHv Hsupv) as [s Hs]. rewrite printJsonLoop_node, Hs. cbn [bind].
    destruct next as [|k' v' next']; [eexists; reflexivity|].
    destruct (IHn ltac:(discriminate) Hsupn) as [r Hr]. rewrite Hr.
    eexists. reflexivity.
Qed.

Lemma append_assoc (a b c : string) : (a +:+ b) +:+ c = a +:+ b +:+ c.
Proof.
  induction a as [|x a IH]; [reflexivity|].
  change (String x ((a +:+ b) +:+ c) = String x (a +:+ b +:+ c)).
  f_equal. exact IH.
Qed.

Local Abbreviation renderValue' :=
  (renderValue modf_fractional printf_d_int32 printf_4lf).
Local Abbreviation renderPairs' :=
  (renderPairs modf_fractional printf_d_int32 printf_4lf).

(** On the tree of a JSON text the print functions write what the
    specification renders: the members of an object and the elements of an
    array one after the other, in their order. *)
Lemma text_printed (atof : string -> float) :
  (forall sv v, ValueText atof JSON_TOKEN_STRING_SIZE sv v ->
     supportedValue malloc_zero_is_null v = true ->
     printJsonValue' v = Ok (renderValue' v))
  /\ (forall s m, MembersText atof JSON_TOKEN_STRING_SIZE s m ->
        m <> nullptr -> supportedMembers malloc_zero_is_null m = true ->
        printJsonLoop' m = Ok (String.concat ", " (renderPairs' m)))
  /\ (forall s vs, ElementsText atof JSON_TOKEN_STRING_SIZE s vs ->
        supportedElements malloc_zero_is_null vs = true ->
        printElements' vs = Ok (String.concat ", " (map renderValue' vs))).
Proof.
  apply JsonText_mutind.
  - intros s _ _. reflexivity.
  - intros s _ _. cbn [printJsonValue renderValue]. unfold printedNumber.
    destruct (isFractionalPartZero modf_fractional _); reflexivity.
  - intros _. reflexivity.
  - intros _. reflexivity.
  - intros _. reflexivity.
  - intros s m _ IH Hsup.
    destruct (supportedValue_member _ _ Hsup) as [Hm Hsupm].
    destruct m as [|k v next]; [contradiction|].
    rewrite printJsonValue_member, (IH Hm Hsupm). reflexivity.
  - intros s vs _ IH Hsup. rewrite supportedValue_array in Hsup.
    apply andb_prop in Hsup as [_ Hsup].
    rewrite printJsonValue_array, (IH Hsup). reflexivity.
  - intros w _ Hm. contradiction.
  - intros w1 k w2 w3 sv v w4 _ _ _ _ _ IHv _ _ Hsup.
    cbn [supportedMembers] in Hsup. apply andb_prop in Hsup as [Hsupv _].
    rewrite printJsonLoop_node, (IHv Hsupv). reflexivity.
  - intros w1 k w2 w3 sv v w4 s' next _ _ _ _ _ IHv _ _ IHn Hnext _ Hsup.
    cbn [supportedMembers] in Hsup. apply andb_prop in Hsup as [Hsupv Hsupn].
    rewrite printJsonLoop_node, (IHv Hsupv). cbn [bind].
    rewrite (IHn Hnext Hsupn).
    destruct next as [|k' v' next']; [contradiction|].
    cbn [bind renderPairs String.concat].
    rewrite !append_assoc. reflexivity.
  - intros w _ _. reflexivity.
  - intros w1 sv v w2 _ _ IHv _ Hsup.
    cbn [supportedElements forallb] in Hsup.
    apply andb_prop in Hsup as [Hsupv _]. apply andb_prop in Hsupv as [_ Hsupv].
    cbn [printElements]. rewrite (IHv Hsupv). reflexivity.
  - intros w1 sv v w2 s' vs _ _ IHv _ _ IHvs Hvs Hsup.
    cbn [supportedElements forallb] in Hsup.
    apply andb_prop in Hsup as [Hsupv Hsupvs]. apply andb_prop in Hsupv as [_ Hsupv].
    cbn [printElements]. rewrite (IHv Hsupv). cbn [bind].
    destruct vs as [|v' vs]; [contradiction|].
    rewrite (IHvs Hsupvs). reflexivity.
Qed.

(** C3 (as the code has it).  For every JSON object text without exponent
    and without escapes whose strings and numbers are shorter than the
    64-byte token buffer, that denotes a tree with at least one member,
    without empty nested object, without array inside an array and
    (where [malloc(0)] returns null) without empty array, for every
    declared length that covers the text, and when the blocks [malloc]
    hands out for the members hold a null [Next]: [parseStringToJson]
    returns exactly the tree the text denotes, valid, with all keys and
    values in the order of the text and the cursor after the closing
    brace, whatever follows the text in memory; and [printJsonObject]
    writes what the specification renders for that tree: the pairs
    ["key" : value] of every object and the elements of every array, each
    in the order of the text and separated by commas, between braces and
    brackets, and a newline.  A number is written as [printf] writes it
    for [%d] when its fractional part is below 1e-9 in magnitude, and for
    [%.4lf] otherwise. *)
Theorem parse_print_object_text (atof : string -> float)
  (malloc_Next : json_member_ptr)
  (text rest : list ascii) (m : json_member_ptr) (size : nat) :
  malloc_Next = nullptr ->
  ObjectText atof JSON_TOKEN_STRING_SIZE text m ->
  m <> nullptr ->
  supportedMembers malloc_zero_is_null m = true ->
  length text <= size ->
  parseStringToJson atof malloc_zero_is_null malloc_Next (text ++ rest) size 0
  = Ok (mkObject m true, length text)
  /\ (let* (Result, _) :=
        parseStringToJson atof malloc_zero_is_null malloc_Next (text ++ rest) size 0 in
      printJsonObject modf_fractional printf_d_int32 printf_4lf Result)
     = Ok (renderObject modf_fractional printf_d_int32 printf_4lf m).
Proof.
  intros -> Htext Hm Hsup Hsize.
  pose proof (parseStringToJson_object_text atof malloc_zero_is_null
                text rest m size Htext Hm Hsup Hsize) as Hparse.
  split; [exact Hparse|].
  rewrite Hparse. cbn [bind].
  destruct Htext as (w & s & _ & _ & Hs).
  inversion Hs as [| | | | |s0 m0 Hmembers|]; subst.
  pose proof (proj1 (proj2 (text_printed atof)) s0 m Hmembers Hm Hsup) as Hprint.
  destruct m as [|k v next]; [contradiction|].
  unfold printJsonObject, printJsonMember, renderObject.
  cbn [First IsValid negb]. rewrite Hprint. reflexivity.
Qed.

End PrintFacts.

Lemma parse_print_object_text_witness :
  parseStringToJson atofDigits false nullptr (dq " {'a':1}" ++ dq " ") 9 0
  = Ok (mkObject (Member "a" (JSON_TYPE_NUMBER 1) nullptr) true, 8)
  /\ (let* (Result, _) :=
        parseStringToJson atofDigits false nullptr (dq " {'a':1}" ++ dq " ") 9 0 in
      printJsonObject (fun _ => 0%float) (fun _ => "1") (fun _ => "1.0000") Result)
     = Ok (string_of_list_ascii (dq "{'a' : 1}") +:+ newline).
Proof.
  assert (Htext : ObjectText atofDigits JSON_TOKEN_STRING_SIZE (dq " {'a':1}")
                    (Member "a" (JSON_TYPE_NUMBER (atofDigits "1")) nullptr)).
  { exists (dq " "), (dq "{'a':1}"). split; [reflexivity|]. split; [reflexivity|].
    apply (VT_object atofDigits JSON_TOKEN_STRING_SIZE (dq "'a':1")).
    apply (MT_last atofDigits JSON_TOKEN_STRING_SIZE [] (dq "a") [] [] (dq "1")
             (JSON_TYPE_NUMBER (atofDigits "1")) []); try reflexivity.
    - split; [reflexivity|vm_compute; lia].
    - apply (VT_number atofDigits JSON_TOKEN_STRING_SIZE (dq "1")).
      exists [], (dq "1"), []. split; [reflexivity|]. split; [left; reflexivity|].
      split; [discriminate|]. split; [reflexivity|]. split; [left; reflexivity|].
      vm_compute. lia. }
  exact (parse_print_object_text (fun _ => 0%float) (fun _ => "1") (fun _ => "1.0000")
           false
           atofDigits nullptr (dq " {'a':1}") (dq " ") _ 9 eq_refl Htext
           ltac:(discriminate) eq_refl ltac:(vm_compute; lia)).
Defined.

(** Two JSON object texts on which keys and values are not kept.
    [{"a":{}}] has one key, and parsing it returns an object without any
    member: the nested object has no member, so [addJsonMember] refuses
    it, and what is printed does not mention the key.
    [{"a":0.0000000001}] is parsed into the binary64 nearest to that
    number, which is not zero, and printed as [{"a" : 0}]: the fractional
    part is below 1e-9, so the number is cast to [int32_t] and written
    with [%d].  ([atofDecimal] reads the number as [atof] does; for a
    number below 1 in magnitude, as here, [modf] leaves the number as its
    fractional part and [%d] writes the cast as 0.) *)
Lemma parse_print_not_preserved :
  (ObjectText atofDigits JSON_TOKEN_STRING_SIZE (dq "{'a':{}}")
     (Member "a" (JSON_TYPE_MEMBER nullptr) nullptr)
   /\ parseStringToJson atofDigits false nullptr (dq "{'a':{}}") 8 0
      = Ok (mkObject nullptr true, 8)
   /\ printJsonObject (fun x => x) (fun _ => EmptyString) (fun _ => EmptyString)
        (mkObject nullptr true)
      = Ok ("This JSON object is empty." +:+ newline))
  /\ (parseStringToJson atofDecimal false nullptr (dq "{'a':0.0000000001}") 18 0
      = Ok (mkObject (Member "a" (JSON_TYPE_NUMBER 0x1.b7cdfd9d7bdbbp-34) nullptr) true,
            18)
      /\ PrimFloat.eqb 0x1.b7cdfd9d7bdbbp-34 0 = false
      /\ printJsonObject (fun x => x) (fun _ => "0") (fun _ => EmptyString)
           (mkObject (Member "a" (JSON_TYPE_NUMBER 0x1.b7cdfd9d7bdbbp-34) nullptr) true)
         = Ok (string_of_list_ascii (dq "{'a' : 0}") +:+ newline)
      /\ parseStringToJson atofDecimal false nullptr (dq "{'a' : 0}") 9 0
         = Ok (mkObject (Member "a" (JSON_TYPE_NUMBER 0) nullptr) true, 9)).
Proof.
  split; [split; [|split; [vm_compute; reflexivity|reflexivity]]|].
  - exists [], (dq "{'a':{}}"). split; [reflexivity|]. split; [reflexivity|].
    apply (VT_object atofDigits JSON_TOKEN_STRING_SIZE (dq "'a':{}")).
    apply (MT_last atofDigits JSON_TOKEN_STRING_SIZE [] (dq "a") [] [] (dq "{}")
             (JSON_TYPE_MEMBER nullptr) []); try reflexivity.
    + split; [reflexivity|vm_compute; lia].
    + apply (VT_object atofDigits JSON_TOKEN_STRING_SIZE []).
      apply MT_none. reflexivity.
  - repeat split; vm_compute; reflexivity.
Qed.

(** The other limits of the statement are met by the code too: an array
    inside an array stops the parse with an invalid object, a string of
    64 bytes does not fit the token buffer, and where [malloc(0)] returns
    null the member of an empty array is not added. *)
Lemma parse_beyond_supported_texts :
  parseStringToJson atofDigits false nullptr (dq "{'a':[[1]]}") 11 0
  = Ok (mkObject nullptr false, 7)
  /\ parseStringToJson atofDigits false nullptr
       (dq "{'a':'" ++ repeat "x"%char 64 ++ dq "'}") 72 0
     = Fault TokenOverflow
  /\ parseStringToJson atofDigits true nullptr (dq "{'a':[]}") 8 0
     = Ok (mkObject nullptr true, 8)
  /\ parseStringToJson atofDigits false nullptr (dq "{'a':[]}") 8 0
     = Ok (mkObject (Member "a" (JSON_TYPE_ARRAY []) nullptr) true, 8).
Proof. repeat split; vm_compute; reflexivity. Qed.

(** ** Buffer accesses and the terminator *)

Lemma inBounds_bind {A B : Type} (bound : nat) (m : run (A * nat))
  (k : A * nat -> run (B * nat)) :
  inBounds bound m ->
  (forall a j, j <= bound -> inBounds bound (k (a, j))) ->
  inBounds bound (bind m k).
Proof.
  destruct m as [[a j]|f]; simpl; intros Hm Hk; [apply Hk; exact Hm|exact Hm].
Qed.

(** A scan that stops on NUL stays inside a NUL-terminated memory. *)
Lemma scanWhile_terminated (p : ascii -> bool) (l : list ascii) (i : nat) :
  p NUL = false ->
  exists j l', scanWhile p (l ++ [NUL]) i = Ok (j, l' ++ [NUL])
               /\ j + length l' = i + length l.
Proof.
  intros Hp. revert i. induction l as [|c l IH]; intros i.
  - exists i, []. simpl. rewrite Hp. split; [reflexivity|lia].
  - simpl. destruct (p c).
    + destruct (IH (S i)) as (j & l' & Hscan & Hlen).
      exists j, l'. split; [exact Hscan|lia].
    + exists i, (c :: l). split; [reflexivity|simpl; lia].
Qed.

Lemma strncmpLiteral_terminated (Literal l : list ascii) (i : nat) :
  forallb (fun c => negb (c =? NUL)%char) Literal = true ->
  exists b, strncmpLiteral (l ++ [NUL]) Literal i = Ok b
            /\ (b = true -> length Literal <= length l).
Proof.
  revert l i. induction Literal as [|x Literal IH]; intros l i Hlit.
  - exists true. split; [reflexivity|simpl; lia].
  - simpl in Hlit. apply andb_prop in Hlit as [Hx Hlit].
    destruct l as [|c l]; cbn [app strncmpLiteral].
    + apply negb_true_iff in Hx. rewrite Ascii.eqb_sym, Hx.
      exists false. split; [reflexivity|discriminate].
    + destruct (c =? x)%char.
      * destruct (IH l (S i) Hlit) as (b & Hb & Hlen).
        exists b. split; [exact Hb|]. intros E. specialize (Hlen E).
        cbn [length]. lia.
      * exists false. split; [reflexivity|discriminate].
Qed.

Lemma copyTokenText_inBounds {A : Type} (from : list ascii) (n bound : nat)
  (k : string -> run (A * nat)) :
  (forall s, inBounds bound (k s)) ->
  inBounds bound (let* s := copyTokenText from n in k s).
Proof.
  intros Hk. unfold copyTokenText.
  destruct (n <? JSON_TOKEN_STRING_SIZE); [apply Hk|exact I].
Qed.

(** [tokenizeString] on a memory that ends with NUL. *)
Lemma tokenizeAt_terminated (l : list ascii) (i : nat) :
  inBounds (i + length l) (tokenizeAt (l ++ [NUL]) i).
Proof.
  unfold tokenizeAt.
  destruct (scanWhile_terminated isWhiteSpace l i eq_refl) as (j & l' & -> & Hj).
  cbn [bind]. destruct l' as [|c l'].
  - cbn. lia.
  - cbn [app length] in *.
    repeat match goal with
           | |- inBounds _ (if ?b then _ else _) => destruct b
           end;
      try (cbn; lia).
    + (* a string *)
      destruct (scanWhile_terminated isStringBody l' (S j) eq_refl)
        as (j2 & l2 & -> & Hj2).
      cbn [bind]. destruct l2 as [|c2 l2].
      * cbn. lia.
      * cbn [app length] in *. destruct (c2 =? NUL)%char; [cbn; lia|].
        apply copyTokenText_inBounds. intros s. cbn. lia.
    + (* a number *)
      destruct (scanWhile_terminated isNumberBody l' (S j) eq_refl)
        as (j2 & l2 & -> & Hj2).
      cbn [bind]. destruct l2 as [|c2 l2].
      * cbn. lia.
      * cbn [app length] in *. destruct (c2 =? NUL)%char; [cbn; lia|].
        apply copyTokenText_inBounds. intros s. cbn. lia.
    + destruct (strncmpLiteral_terminated (lit "true") (c :: l') j eq_refl)
        as (b & Hb & Hlen).
      change (c :: l' ++ [NUL]) with ((c :: l') ++ [NUL]).
      unfold lit in Hb. rewrite Hb. cbn [bind].
      destruct b; [specialize (Hlen eq_refl)|]; cbn in *; lia.
    + destruct (strncmpLiteral_terminated (lit "false") (c :: l') j eq_refl)
        as (b & Hb & Hlen).
      change (c :: l' ++ [NUL]) with ((c :: l') ++ [NUL]).
      unfold lit in Hb. rewrite Hb. cbn [bind].
      destruct b; [specialize (Hlen eq_refl)|]; cbn in *; lia.
    + destruct (strncmpLiteral_terminated (lit "null") (c :: l') j eq_refl)
        as (b & Hb & Hlen).
      change (c :: l' ++ [NUL]) with ((c :: l') ++ [NUL]).
      unfold lit in Hb. rewrite Hb. cbn [bind].
      destruct b; [specialize (Hlen eq_refl)|]; cbn in *; lia.
Qed.

Lemma tokenizeString_terminated (data : list ascii) (i : nat) :
  i <= length data ->
  inBounds (length data) (tokenizeString (data ++ [NUL]) i).
Proof.
  intros Hi. unfold tokenizeString. rewrite drop_app_le by exact Hi.
  replace (length data) with (i + length (drop i data))
    by (rewrite length_drop; lia).
  apply tokenizeAt_terminated.
Qed.

Section Terminated.

Variable atof : string -> float.
Variable malloc_zero_is_null : bool.
Variable malloc_Next : json_member_ptr.
Variable data : list ascii.

Local Abbreviation buf := (data ++ [NUL]).
Local Abbreviation bound := (length data).

Tactic Notation "token_read" ident(tok) ident(j) ident(Hj) :=
  apply inBounds_bind;
  [apply tokenizeString_terminated; lia | intros tok j Hj; cbn beta iota].

Ltac finished := solve [exact I | cbn; lia].

(** The four loops of [parseStringToJson] on a memory that ends with NUL:
    whatever the declared length, the cursor never passes the NUL. *)
Lemma parse_terminated (fuel : nat) :
  (forall size i, i <= bound ->
     inBounds bound (parseLoop atof malloc_zero_is_null malloc_Next fuel buf size i))
  /\ (forall size i Result, i <= bound ->
        inBounds bound (parseMembers atof malloc_zero_is_null malloc_Next fuel buf size i Result))
  /\ (forall size Token i n, i <= bound ->
        inBounds bound (countArray atof malloc_zero_is_null malloc_Next fuel buf size Token i n))
  /\ (forall size Token i values, i <= bound ->
        inBounds bound (fillArray atof malloc_zero_is_null malloc_Next fuel buf size Token i values)).
Proof.
  induction fuel as [|fuel (IHloop & IHmembers & IHcount & IHfill)].
  - repeat split; intros; exact I.
  - repeat split.
    + intros size i Hi. rewrite parseLoop_S.
      destruct (i <? size); [|cbn; lia].
      token_read Token i1 Hi1.
      destruct (TokenType Token); try finished;
        solve [apply IHloop; lia | apply IHmembers; lia].
    + intros size i Result Hi. rewrite parseMembers_S.
      token_read KeyToken i1 Hi1.
      destruct (TokenType KeyToken); try finished.
      token_read ColonToken i2 Hi2.
      destruct (TokenType ColonToken); try finished.
      apply inBounds_bind.
      * unfold valueStep. token_read ValueToken i3 Hi3.
        destruct (TokenType ValueToken); try finished.
        -- apply inBounds_bind; [apply IHloop; lia|].
           intros Child i' Hi'. cbn. lia.
        -- apply inBounds_bind.
           ++ unfold countFrom. token_read ArrayToken i4 Hi4. apply IHcount. lia.
           ++ intros [ArraySize|] i' Hi'; [|cbn; lia].
              apply inBounds_bind.
              ** unfold fillFrom. token_read ArrayToken i4 Hi4. apply IHfill. lia.
              ** intros [values|] i'' Hi''; [|cbn; lia].
                 array_insert Result'; cbn; [lia|exact I].
      * intros [Result'|] i4 Hi4; [|cbn; lia].
        token_read CommaToken i5 Hi5.
        destruct (TokenType CommaToken); try finished.
        apply IHmembers. lia.
    + intros size Token i n Hi. rewrite countArray_S.
      destruct (TokenType Token); try finished;
        try (unfold countFrom; token_read ArrayToken i1 Hi1; apply IHcount; lia).
      apply inBounds_bind; [apply IHloop; lia|].
      intros Child i' Hi'. unfold countFrom.
      token_read ArrayToken i1 Hi1. apply IHcount. lia.
    + intros size Token i values Hi. rewrite fillArray_S.
      destruct (TokenType Token); try finished;
        try (unfold fillFrom; token_read ArrayToken i1 Hi1; apply IHfill; lia).
      apply inBounds_bind; [apply IHloop; lia|].
      intros Child i' Hi'. unfold fillFrom.
      token_read ArrayToken i1 Hi1. apply IHfill. lia.
Qed.

End Terminated.

(** ** Bytes that follow the memory a run has read *)

Lemma covers_bind {A B : Type} (m m' : run A) (k k' : A -> run B) :
  covers m m' -> (forall a, covers (k a) (k' a)) ->
  covers (bind m k) (bind m' k').
Proof.
  intros Hm Hk Hrun.
  assert (Hm' : m' = m).
  { apply Hm. intros i E. subst m. exact (Hrun i eq_refl). }
  rewrite Hm'. destruct m as [a|f]; [|reflexivity].
  cbn [bind] in *. apply Hk. exact Hrun.
Qed.

Lemma covers_refl {A : Type} (r : run A) : covers r r.
Proof. intros _. reflexivity. Qed.

Lemma scanWhile_consumed (p : ascii -> bool) (l : list ascii) (i j : nat)
  (r : list ascii) :
  scanWhile p l i = Ok (j, r) ->
  exists pre c r', l = pre ++ r /\ r = c :: r' /\ j = i + length pre.
Proof.
  revert i. induction l as [|c l IH]; intros i H; simpl in H; [discriminate|].
  destruct (p c).
  - destruct (IH (S i) H) as (pre & c' & r' & -> & -> & ->).
    exists (c :: pre), c', r'. repeat split. simpl. lia.
  - injection H as <- <-. exists [], c, l. repeat split. simpl. lia.
Qed.

Lemma scanWhile_extend (p : ascii -> bool) (l ext : list ascii) (i : nat) :
  covers (let* (j, r) := scanWhile p l i in Ok (j, r ++ ext))
         (scanWhile p (l ++ ext) i).
Proof.
  revert i. induction l as [|c l IH]; intros i Hrun.
  - exfalso. exact (Hrun i eq_refl).
  - cbn [app scanWhile] in *. destruct (p c); [apply IH; exact Hrun|reflexivity].
Qed.

Lemma strncmpLiteral_extend (Literal l ext : list ascii) (i : nat) :
  covers (strncmpLiteral l Literal i) (strncmpLiteral (l ++ ext) Literal i).
Proof.
  revert l i. induction Literal as [|x Literal IH]; intros l i Hrun; [reflexivity|].
  destruct l as [|c l].
  - exfalso. exact (Hrun i eq_refl).
  - cbn [app strncmpLiteral] in *.
    destruct (c =? x)%char; [apply IH; exact Hrun|reflexivity].
Qed.

(** The token does not depend on the bytes after those the scan has
    read. *)
Lemma tokenizeAt_extend (l ext : list ascii) (i : nat) :
  covers (tokenizeAt l i) (tokenizeAt (l ++ ext) i).
Proof.
  intros Hrun. unfold tokenizeAt in *.
  pose proof (scanWhile_extend isWhiteSpace l ext i) as Hscan.
  destruct (scanWhile isWhiteSpace l i) as [[j r]|f] eqn:Ews.
  - rewrite Hscan by (intros k; discriminate). cbn [bind] in *.
    destruct r as [|c r']; [exfalso; exact (Hrun j eq_refl)|].
    cbn [app].
    repeat match goal with
           | |- (if ?b then _ else _) = (if ?b then _ else _) =>
               destruct b; try reflexivity
           | H : context [if ?b then _ else _] |- _ => destruct b
           end.
    + (* a string *)
      pose proof (scanWhile_extend isStringBody r' ext (S j)) as Hbody.
      destruct (scanWhile isStringBody r' (S j)) as [[j2 r2]|f] eqn:Es.
      * rewrite Hbody by (intros k; discriminate). cbn [bind] in *.
        destruct (scanWhile_consumed _ _ _ _ _ Es) as (pre & c2 & r3 & -> & -> & ->).
        cbn [app]. destruct (c2 =? NUL)%char; [reflexivity|].
        unfold copyTokenText.
        replace (S j + length pre - S j) with (length pre) by lia.
        rewrite <- app_assoc. rewrite !firstn_app_exact. reflexivity.
      * cbn [bind] in Hrun. destruct f; try (exfalso; exact (Hrun _ eq_refl)).
        all: rewrite Hbody; [reflexivity|intros k; discriminate].
    + (* a number *)
      pose proof (scanWhile_extend isNumberBody r' ext (S j)) as Hbody.
      destruct (scanWhile isNumberBody r' (S j)) as [[j2 r2]|f] eqn:Es.
      * rewrite Hbody by (intros k; discriminate). cbn [bind] in *.
        destruct (scanWhile_consumed _ _ _ _ _ Es) as (pre & c2 & r3 & -> & -> & ->).
        cbn [app]. destruct (c2 =? NUL)%char; [reflexivity|].
        unfold copyTokenText.
        replace (S j + length pre - j) with (length (c :: pre)) by (simpl; lia).
        change (c :: (pre ++ c2 :: r3) ++ ext) with ((c :: pre ++ c2 :: r3) ++ ext).
        change (c :: pre ++ c2 :: r3) with ((c :: pre) ++ c2 :: r3).
        rewrite <- app_assoc. rewrite !firstn_app_exact. reflexivity.
      * cbn [bind] in Hrun. destruct f; try (exfalso; exact (Hrun _ eq_refl)).
        all: rewrite Hbody; [reflexivity|intros k; discriminate].
    + change (c :: r' ++ ext) with ((c :: r') ++ ext).
      apply (covers_bind _ _ _ _ (strncmpLiteral_extend _ _ _ _)
               (fun b => covers_refl _)). exact Hrun.
    + change (c :: r' ++ ext) with ((c :: r') ++ ext).
      apply (covers_bind _ _ _ _ (strncmpLiteral_extend _ _ _ _)
               (fun b => covers_refl _)). exact Hrun.
    + change (c :: r' ++ ext) with ((c :: r') ++ ext).
      apply (covers_bind _ _ _ _ (strncmpLiteral_extend _ _ _ _)
               (fun b => covers_refl _)). exact Hrun.
  - cbn [bind] in *. destruct f; try (exfalso; exact (Hrun _ eq_refl)).
    all: rewrite Hscan; [reflexivity|intros k; discriminate].
Qed.

Lemma tokenizeString_extend (buf ext : list ascii) (i : nat) :
  covers (tokenizeString buf i) (tokenizeString (buf ++ ext) i).
Proof.
  unfold tokenizeString. intros Hrun.
  destruct (Nat.le_gt_cases i (length buf)) as [Hi|Hi].
  - rewrite drop_app_le by exact Hi. apply tokenizeAt_extend. exact Hrun.
  - exfalso. rewrite drop_ge in Hrun by lia. exact (Hrun i eq_refl).
Qed.

Section Extended.

Variable atof : string -> float.
Variable malloc_zero_is_null : bool.
Variable malloc_Next : json_member_ptr.
Variable buf ext : list ascii.

Tactic Notation "same_token" ident(tok) ident(j) :=
  apply covers_bind; [apply tokenizeString_extend | intros [tok j]; cbn beta iota].

(** The four loops of [parseStringToJson] do not depend on the bytes after
    those they have read. *)
Lemma parse_extend (fuel : nat) :
  (forall size i,
     covers (parseLoop atof malloc_zero_is_null malloc_Next fuel buf size i)
            (parseLoop atof malloc_zero_is_null malloc_Next fuel (buf ++ ext) size i))
  /\ (forall size i Result,
        covers (parseMembers atof malloc_zero_is_null malloc_Next fuel buf size i Result)
               (parseMembers atof malloc_zero_is_null malloc_Next fuel (buf ++ ext) size i Result))
  /\ (forall size Token i n,
        covers (countArray atof malloc_zero_is_null malloc_Next fuel buf size Token i n)
               (countArray atof malloc_zero_is_null malloc_Next fuel (buf ++ ext) size Token i n))
  /\ (forall size Token i values,
        covers (fillArray atof malloc_zero_is_null malloc_Next fuel buf size Token i values)
               (fillArray atof malloc_zero_is_null malloc_Next fuel (buf ++ ext) size Token i values)).
Proof.
  induction fuel as [|fuel (IHloop & IHmembers & IHcount & IHfill)].
  - repeat split; intros; apply covers_refl.
  - repeat split.
    + intros size i. rewrite !parseLoop_S.
      destruct (i <? size); [|apply covers_refl].
      same_token Token i1.
      destruct (TokenType Token); try apply covers_refl;
        solve [apply IHloop | apply IHmembers].
    + intros size i Result. rewrite !parseMembers_S.
      same_token KeyToken i1.
      destruct (TokenType KeyToken); try apply covers_refl.
      same_token ColonToken i2.
      destruct (TokenType ColonToken); try apply covers_refl.
      apply covers_bind.
      * unfold valueStep. same_token ValueToken i3.
        destruct (TokenType ValueToken); try apply covers_refl.
        -- apply covers_bind; [apply IHloop|]. intros [Child i']. apply covers_refl.
        -- apply covers_bind.
           ++ unfold countFrom. same_token ArrayToken i4. apply IHcount.
           ++ intros [[ArraySize|] i']; [|apply covers_refl].
              apply covers_bind.
              ** unfold fillFrom. same_token ArrayToken i4. apply IHfill.
              ** intros [filled i'']. apply covers_refl.
      * intros [[Result'|] i4]; [|apply covers_refl].
        same_token CommaToken i5.
        destruct (TokenType CommaToken); try apply covers_refl.
        apply IHmembers.
    + intros size Token i n. rewrite !countArray_S.
      destruct (TokenType Token); try apply covers_refl;
        try (unfold countFrom; same_token ArrayToken i1; apply IHcount).
      apply covers_bind; [apply IHloop|].
      intros [Child i']. unfold countFrom. same_token ArrayToken i1. apply IHcount.
    + intros size Token i values. rewrite !fillArray_S.
      destruct (TokenType Token); try apply covers_refl;
        try (unfold fillFrom; same_token ArrayToken i1; apply IHfill).
      apply covers_bind; [apply IHloop|].
      intros [Child i']. unfold fillFrom. same_token ArrayToken i1. apply IHfill.
Qed.

End Extended.

Lemma inBounds_covered {A : Type} (bound : nat) (r : run (A * nat)) :
  inBounds bound r -> forall k, r <> Fault (OutOfBounds k).
Proof. intros H k E. subst r. exact H. Qed.

(** C8 (as the code has it).  On a memory that holds the data followed by
    a NUL, and from any cursor up to the NUL, [tokenizeString] and
    [parseStringToJson] make no access beyond the NUL and leave the
    cursor at most on it, whatever the declared length and however long
    the run: the in-band terminator bounds the accesses.  So the bytes
    that follow the NUL in memory have no part in the result.  The
    declared length is only compared with the cursor before a token is
    read at the top level of [parseStringToJson]. *)
Theorem accesses_bounded_by_terminator (atof : string -> float) (mz : bool)
  (malloc_Next : json_member_ptr)
  (data : list ascii) (InputJsonFileSize BufferIndex : nat) :
  BufferIndex <= length data ->
  inBounds (length data) (tokenizeString (data ++ [NUL]) BufferIndex)
  /\ (forall fuel,
        inBounds (length data)
          (parseLoop atof mz malloc_Next fuel (data ++ [NUL]) InputJsonFileSize BufferIndex))
  /\ inBounds (length data)
       (parseStringToJson atof mz malloc_Next (data ++ [NUL]) InputJsonFileSize BufferIndex)
  /\ (forall after,
        tokenizeString (data ++ NUL :: after) BufferIndex
        = tokenizeString (data ++ [NUL]) BufferIndex)
  /\ (forall after fuel,
        parseLoop atof mz malloc_Next fuel (data ++ NUL :: after) InputJsonFileSize BufferIndex
        = parseLoop atof mz malloc_Next fuel (data ++ [NUL]) InputJsonFileSize BufferIndex).
Proof.
  intros Hi.
  assert (Htoken : inBounds (length data) (tokenizeString (data ++ [NUL]) BufferIndex))
    by (apply tokenizeString_terminated; exact Hi).
  assert (Hloop : forall fuel,
            inBounds (length data)
              (parseLoop atof mz malloc_Next fuel (data ++ [NUL]) InputJsonFileSize BufferIndex))
    by (intros fuel; apply (parse_terminated atof mz malloc_Next data fuel); exact Hi).
  split; [exact Htoken|]. split; [exact Hloop|]. split; [apply Hloop|]. split.
  - intros after.
    replace (data ++ NUL :: after) with ((data ++ [NUL]) ++ after)
      by (rewrite <- app_assoc; reflexivity).
    apply tokenizeString_extend. exact (inBounds_covered _ _ Htoken).
  - intros after fuel.
    replace (data ++ NUL :: after) with ((data ++ [NUL]) ++ after)
      by (rewrite <- app_assoc; reflexivity).
    apply (parse_extend atof mz malloc_Next (data ++ [NUL]) after fuel).
    exact (inBounds_covered _ _ (Hloop fuel)).
Qed.

Lemma accesses_bounded_by_terminator_witness :
  inBounds 7 (parseStringToJson atofDigits false nullptr (dq "{'a':1," ++ [NUL]) 7 0).
Proof.
  assert (Hcursor : 0 <= length (dq "{'a':1,")) by (vm_compute; lia).
  exact (proj1 (proj2 (proj2 (accesses_bounded_by_terminator atofDigits false
                                nullptr (dq "{'a':1,") 7 0 Hcursor)))).
Defined.

(** With the memory cut at the declared length, the accesses at or beyond
    it show: parsing the seven bytes of [{"a":1,] with declared length 7
    reads index 7, and tokenizing an unterminated string of three bytes
    reads index 3.  When more bytes follow in memory they are parsed:
    with declared length 7 on [{"a":1,"b":2}] the member ["b"] is read
    from the bytes after the declared length. *)
Lemma accesses_reach_declared_length :
  length (dq "{'a':1,") = 7
  /\ parseStringToJson atofDigits false nullptr (dq "{'a':1,") 7 0 = Fault (OutOfBounds 7)
  /\ length (dq "'ab") = 3
  /\ tokenizeString (dq "'ab") 0 = Fault (OutOfBounds 3)
  /\ parseStringToJson atofDigits false nullptr (dq "{'a':1,'b':2}") 7 0
     = Ok (mkObject (Member "a" (JSON_TYPE_NUMBER 1)
                       (Member "b" (JSON_TYPE_NUMBER 2) nullptr)) true, 13).
Proof. repeat split; vm_compute; reflexivity. Qed.

(** ** The fuel of [parseStringToJson] *)

Lemma strncmpLiteral_matched (Literal l : list ascii) (i : nat) :
  strncmpLiteral l Literal i = Ok true -> length Literal <= length l.
Proof.
  revert l i. induction Literal as [|x Literal IH]; intros l i H; [simpl; lia|].
  destruct l as [|c l]; [discriminate|].
  cbn [strncmpLiteral] in H. destruct (c =? x)%char; [|discriminate].
  specialize (IH l (S i) H). cbn [length]. lia.
Qed.

(** Every token moves the cursor forward inside the memory, strictly
    unless it is invalid, and an opening brace is one byte long. *)
Lemma tokenizeAt_progress (l : list ascii) (i j : nat) (Token : json_token) :
  tokenizeAt l i = Ok (Token, j) ->
  i <= j /\ j <= i + length l
  /\ (TokenType Token <> JSON_TOKEN_INVALID -> i < j)
  /\ (TokenType Token = JSON_TOKEN_OBJECT_START ->
      exists pre r, l = pre ++ "{"%char :: r /\ j = i + length pre + 1
                    /\ Token = simpleToken JSON_TOKEN_OBJECT_START).
Proof.
  unfold tokenizeAt.
  destruct (scanWhile isWhiteSpace l i) as [[j0 r]|f] eqn:Ews; [|discriminate].
  destruct (scanWhile_consumed _ _ _ _ _ Ews) as (pre & c & r' & -> & -> & ->).
  cbn [bind]. rewrite length_app. cbn [length].
  destruct (c =? "{")%char eqn:Eobj.
  { intros H. injection H as <- <-. apply Ascii.eqb_eq in Eobj. subst c.
    split; [lia|]. split; [lia|]. split; [intros _; lia|].
    intros _. exists pre, r'. split; [reflexivity|]. split; [lia|reflexivity]. }
  repeat match goal with
         | |- (if ?b then _ else _) = _ -> _ => destruct b
         end;
    try (intros H; injection H as <- <-;
         repeat split; try lia; cbn; intros; solve [discriminate | congruence]).
  - (* a string *)
    destruct (scanWhile isStringBody r' (S (i + length pre))) as [[j2 r2]|f] eqn:Es;
      [|discriminate].
    destruct (scanWhile_consumed _ _ _ _ _ Es) as (pre2 & c2 & r3 & -> & -> & ->).
    cbn [bind]. rewrite length_app. cbn [length].
    destruct (c2 =? NUL)%char.
    + intros H. injection H as <- <-.
      repeat split; try lia; cbn; intros; solve [discriminate | congruence].
    + destruct (copyTokenText _ _); [|discriminate]. cbn [bind].
      intros H. injection H as <- <-.
      repeat split; try lia; cbn; intros; solve [discriminate | congruence].
  - (* a number *)
    destruct (scanWhile isNumberBody r' (S (i + length pre))) as [[j2 r2]|f] eqn:Es;
      [|discriminate].
    destruct (scanWhile_consumed _ _ _ _ _ Es) as (pre2 & c2 & r3 & -> & -> & ->).
    cbn [bind]. rewrite length_app. cbn [length].
    destruct (c2 =? NUL)%char.
    + intros H. injection H as <- <-.
      repeat split; try lia; cbn; intros; solve [discriminate | congruence].
    + destruct (copyTokenText _ _); [|discriminate]. cbn [bind].
      intros H. injection H as <- <-.
      repeat split; try lia; cbn; intros; solve [discriminate | congruence].
  - destruct (strncmpLiteral _ _ _) as [[]|] eqn:El; [| |discriminate];
      cbn [bind]; intros H; injection H as <- <-.
    + apply strncmpLiteral_matched in El. cbn in El.
      repeat split; try lia; cbn; intros; solve [discriminate | congruence].
    + repeat split; try lia; cbn; intros; solve [discriminate | congruence].
  - destruct (strncmpLiteral _ _ _) as [[]|] eqn:El; [| |discriminate];
      cbn [bind]; intros H; injection H as <- <-.
    + apply strncmpLiteral_matched in El. cbn in El.
      repeat split; try lia; cbn; intros; solve [discriminate | congruence].
    + repeat split; try lia; cbn; intros; solve [discriminate | congruence].
  - destruct (strncmpLiteral _ _ _) as [[]|] eqn:El; [| |discriminate];
      cbn [bind]; intros H; injection H as <- <-.
    + apply strncmpLiteral_matched in El. cbn in El.
      repeat split; try lia; cbn; intros; solve [discriminate | congruence].
    + repeat split; try lia; cbn; intros; solve [discriminate | congruence].
Qed.

Lemma scanWhile_fault (p : ascii -> bool) (l : list ascii) (i : nat) (f : fault) :
  scanWhile p l i = Fault f -> f <> OutOfFuel.
Proof.
  revert i. induction l as [|c l IH]; intros i H; simpl in H.
  - injection H as <-. discriminate.
  - destruct (p c); [exact (IH _ H)|discriminate].
Qed.

Lemma strncmpLiteral_fault (Literal l : list ascii) (i : nat) (f : fault) :
  strncmpLiteral l Literal i = Fault f -> f <> OutOfFuel.
Proof.
  revert l i. induction Literal as [|x Literal IH]; intros l i H; [discriminate|].
  destruct l as [|c l]; cbn [strncmpLiteral] in H.
  - injection H as <-. discriminate.
  - destruct (c =? x)%char; [exact (IH _ _ H)|discriminate].
Qed.

Lemma tokenizeAt_fault (l : list ascii) (i : nat) (f : fault) :
  tokenizeAt l i = Fault f -> f <> OutOfFuel.
Proof.
  unfold tokenizeAt.
  destruct (scanWhile isWhiteSpace l i) as [[j r]|f0] eqn:Ews.
  2:{ cbn [bind]. intros H. injection H as <-. exact (scanWhile_fault _ _ _ _ Ews). }
  cbn [bind]. destruct r as [|c r']; [intros H; injection H as <-; discriminate|].
  repeat match goal with
         | |- (if ?b then _ else _) = _ -> _ => destruct b
         end;
    try discriminate.
  - destruct (scanWhile isStringBody r' (S j)) as [[j2 r2]|f0] eqn:Es.
    2:{ cbn [bind]. intros H. injection H as <-. exact (scanWhile_fault _ _ _ _ Es). }
    cbn [bind]. destruct r2 as [|c2 r2]; [intros H; injection H as <-; discriminate|].
    destruct (c2 =? NUL)%char; [discriminate|].
    unfold copyTokenText. destruct (_ <? _); [discriminate|].
    cbn [bind]. intros H. injection H as <-. discriminate.
  - destruct (scanWhile isNumberBody r' (S j)) as [[j2 r2]|f0] eqn:Es.
    2:{ cbn [bind]. intros H. injection H as <-. exact (scanWhile_fault _ _ _ _ Es). }
    cbn [bind]. destruct r2 as [|c2 r2]; [intros H; injection H as <-; discriminate|].
    destruct (c2 =? NUL)%char; [discriminate|].
    unfold copyTokenText. destruct (_ <? _); [discriminate|].
    cbn [bind]. intros H. injection H as <-. discriminate.
  - destruct (strncmpLiteral _ _ _) as [[]|f0] eqn:El; try discriminate.
    cbn [bind]. intros H. injection H as <-. exact (strncmpLiteral_fault _ _ _ _ El).
  - destruct (strncmpLiteral _ _ _) as [[]|f0] eqn:El; try discriminate.
    cbn [bind]. intros H. injection H as <-. exact (strncmpLiteral_fault _ _ _ _ El).
  - destruct (strncmpLiteral _ _ _) as [[]|f0] eqn:El; try discriminate.
    cbn [bind]. intros H. injection H as <-. exact (strncmpLiteral_fault _ _ _ _ El).
Qed.

Lemma tokenizeString_progress (buf : list ascii) (i j : nat) (Token : json_token) :
  tokenizeString buf i = Ok (Token, j) ->
  i <= j /\ j <= length buf
  /\ (TokenType Token <> JSON_TOKEN_INVALID -> i < j)
  /\ (TokenType Token = JSON_TOKEN_OBJECT_START ->
      1 <= j
      /\ (exists r, skipn (j - 1) buf = "{"%char :: r)
      /\ tokenizeString buf (j - 1) = Ok (Token, j)).
Proof.
  unfold tokenizeString. intros H.
  destruct (Nat.le_gt_cases i (length buf)) as [Hi|Hi].
  2:{ rewrite drop_ge in H by lia. discriminate H. }
  destruct (tokenizeAt_progress _ _ _ _ H) as (H1 & H2 & H3 & H4).
  rewrite length_drop in H2.
  split; [exact H1|]. split; [lia|]. split; [exact H3|].
  intros Hobj. destruct (H4 Hobj) as (pre & r & Hl & -> & ->).
  pose proof (skipn_shift _ _ _ _ Hl) as Hbrace.
  replace (i + length pre + 1 - 1) with (i + length pre) by lia.
  split; [lia|]. split; [exists r; exact Hbrace|].
  rewrite Hbrace.
  pose proof (tokenizeAt_object_start [] r (i + length pre) eq_refl) as Htok.
  cbn [app] in Htok. rewrite Htok.
  f_equal. f_equal. simpl. lia.
Qed.

Lemma advances_bind {A B : Type} (lo lo' hi : nat) (m : run (A * nat))
  (k : A * nat -> run (B * nat)) :
  advances lo' hi m ->
  (forall a j, lo' <= j -> j <= hi -> advances lo hi (k (a, j))) ->
  advances lo hi (bind m k).
Proof.
  destruct m as [[a j]|f]; simpl; intros Hm Hk; [apply Hk; tauto|exact Hm].
Qed.

Lemma advances_from {A : Type} (lo lo' hi : nat) (r : run (A * nat)) :
  advances lo' hi r -> lo <= lo' -> advances lo hi r.
Proof.
  destruct r as [[a j]|f]; simpl; [lia|tauto].
Qed.

Section Fuel.

Variable atof : string -> float.
Variable malloc_zero_is_null : bool.
Variable malloc_Next : json_member_ptr.
Variable buf : list ascii.
Variable size : nat.
Hypothesis declared : braceFree buf size.

Local Abbreviation top := (length buf).

Tactic Notation "next_token" ident(tok) ident(j) ident(Hp) :=
  let E := fresh "E" in
  let f := fresh "f" in
  match goal with
  | |- advances _ _ (bind (tokenizeString buf ?i) _) =>
      destruct (tokenizeString buf i) as [[tok j]|f] eqn:E;
      [pose proof (tokenizeString_progress _ _ _ _ E) as Hp; cbn [bind];
       cbn beta iota
      |apply tokenizeAt_fault in E; cbn [bind]; destruct f;
       solve [exact I | contradiction]]
  end.

Ltac returned := solve [exact I | cbn; lia].

Lemma brace_token (i : nat) (r : list ascii) :
  skipn i buf = "{"%char :: r ->
  tokenizeString buf i = Ok (simpleToken JSON_TOKEN_OBJECT_START, S i)
  /\ i < size /\ S i <= top.
Proof.
  intros Hr. split; [|split].
  - rewrite (tokenizeString_cursor _ _ _ Hr).
    pose proof (tokenizeAt_object_start [] r i eq_refl) as Htok.
    cbn [app] in Htok. rewrite Htok. f_equal. f_equal. simpl. lia.
  - destruct (Nat.lt_ge_cases i size) as [Hlt|Hge]; [exact Hlt|].
    exfalso. exact (declared i r Hge Hr).
  - destruct (Nat.lt_ge_cases i top) as [Hlt|Hge]; [lia|].
    rewrite drop_ge in Hr by lia. discriminate Hr.
Qed.

(** With two units of fuel for each byte between the cursor and the end of
    the memory, no loop is cut short, and each returns with its cursor at
    or after the one it was given (after the brace, for an object). *)
Lemma parse_fuel (fuel : nat) :
  (forall i, i <= top -> 2 * (top - i) + 2 <= fuel ->
     advances i top (parseLoop atof malloc_zero_is_null malloc_Next fuel buf size i)
     /\ ((exists r, skipn i buf = "{"%char :: r) ->
         advances (S i) top (parseLoop atof malloc_zero_is_null malloc_Next fuel buf size i)))
  /\ (forall i Result, i <= top -> 2 * (top - i) + 1 <= fuel ->
        advances i top (parseMembers atof malloc_zero_is_null malloc_Next fuel buf size i Result))
  /\ (forall i n, i <= top -> 2 * (top - i) + 6 <= fuel ->
        advances i top (countFrom atof malloc_zero_is_null malloc_Next fuel buf size i n))
  /\ (forall i values, i <= top -> 2 * (top - i) + 6 <= fuel ->
        advances i top (fillFrom atof malloc_zero_is_null malloc_Next fuel buf size i values)).
Proof.
  induction fuel as [|fuel (IHloop & IHmembers & IHcount & IHfill)].
  - repeat split; intros; lia.
  - split; [|split; [|split]].
    + intros i Hi Hfuel. split.
      * rewrite parseLoop_S.
        destruct (i <? size); [|cbn; lia].
        next_token Token i1 Hp. destruct Hp as (H1 & H2 & H3 & _).
        destruct (TokenType Token) eqn:Ekind; try returned;
          (assert (i < i1) by (apply H3; discriminate);
           apply (advances_from i i1); [|lia];
           first [apply IHloop | apply IHmembers]; lia).
      * intros [r Hr]. destruct (brace_token i r Hr) as (Htok & Hlt & Htop).
        rewrite parseLoop_S.
        replace (i <? size) with true by (symmetry; apply Nat.ltb_lt; exact Hlt).
        rewrite Htok. cbn [bind TokenType simpleToken].
        apply IHmembers; lia.
    + intros i Result Hi Hfuel. rewrite parseMembers_S.
      next_token KeyToken i1 Hp1. destruct Hp1 as (Hk1 & Hk2 & Hk3 & _).
      destruct (TokenType KeyToken) eqn:Ekey; try returned.
      assert (i < i1) by (apply Hk3; discriminate).
      next_token ColonToken i2 Hp2. destruct Hp2 as (Hc1 & Hc2 & Hc3 & _).
      destruct (TokenType ColonToken) eqn:Ecolon; try returned.
      assert (i1 < i2) by (apply Hc3; discriminate).
      apply (advances_bind i i2).
      * unfold valueStep.
        next_token ValueToken i3 Hp3. destruct Hp3 as (Hv1 & Hv2 & Hv3 & _).
        destruct (TokenType ValueToken) eqn:Evalue; try returned;
          assert (i2 < i3) by (apply Hv3; discriminate).
        -- apply (advances_bind i2 (i3 - 1)); [apply IHloop; lia|].
           intros Child j Hlo Hhi. cbn. lia.
        -- apply (advances_bind i2 i3); [apply IHcount; lia|].
           intros [ArraySize|] j Hlo Hhi; [|cbn; lia].
           apply (advances_bind i2 i3); [apply IHfill; lia|].
           intros [values|] j' Hlo' Hhi'; [|cbn; lia].
           array_insert Result'; cbn; [lia|exact I].
      * intros [Result'|] i4 Hlo Hhi; [|cbn; lia].
        next_token CommaToken i5 Hp5. destruct Hp5 as (Hm1 & Hm2 & Hm3 & _).
        destruct (TokenType CommaToken) eqn:Ecomma; try returned.
        assert (i4 < i5) by (apply Hm3; discriminate).
        apply (advances_from i i5); [|lia]. apply IHmembers; lia.
    + intros i n Hi Hfuel. unfold countFrom.
      next_token ArrayToken i1 Hp. destruct Hp as (H1 & H2 & H3 & H4).
      rewrite countArray_S.
      destruct (TokenType ArrayToken) eqn:Ekind; try returned;
        assert (i < i1) by (apply H3; discriminate);
        try (apply (advances_from i i1); [|lia]; apply IHcount; lia).
      destruct (H4 eq_refl) as (Hone & Hbrace & _).
      apply (advances_bind i i1).
      * replace i1 with (S (i1 - 1)) at 1 by lia.
        apply IHloop; [lia|lia|exact Hbrace].
      * intros Child j Hlo Hhi.
        apply (advances_from i j); [|lia]. apply IHcount; lia.
    + intros i values Hi Hfuel. unfold fillFrom.
      next_token ArrayToken i1 Hp. destruct Hp as (H1 & H2 & H3 & H4).
      rewrite fillArray_S.
      destruct (TokenType ArrayToken) eqn:Ekind; try returned;
        assert (i < i1) by (apply H3; discriminate);
        try (apply (advances_from i i1); [|lia]; apply IHfill; lia).
      destruct (H4 eq_refl) as (Hone & Hbrace & _).
      apply (advances_bind i i1).
      * replace i1 with (S (i1 - 1)) at 1 by lia.
        apply IHloop; [lia|lia|exact Hbrace].
      * intros Child j Hlo Hhi.
        apply (advances_from i j); [|lia]. apply IHfill; lia.
Qed.

(** [parseStringToJson] is not cut short by its fuel when no opening brace
    lies at or after the declared length: it returns, or stops on a fault
    of the code. *)
Lemma parseStringToJson_returns (i : nat) :
  parseStringToJson atof malloc_zero_is_null malloc_Next buf size i <> Fault OutOfFuel.
Proof.
  unfold parseStringToJson, parseFuel.
  destruct (Nat.le_gt_cases i top) as [Hi|Hi].
  - pose proof (proj1 (proj1 (parse_fuel (2 * top + 8)) i Hi ltac:(lia))) as H.
    intros E. rewrite E in H. exact H.
  - replace (2 * top + 8) with (S (2 * top + 7)) by lia. rewrite parseLoop_S.
    destruct (i <? size); [|discriminate].
    unfold tokenizeString. rewrite drop_ge by lia. discriminate.
Qed.

End Fuel.

(** * Further properties of the code *)

(** ** The tokenizer: white space, numbers, the token buffer, the cursor *)

Lemma scanWhile_prefix (p : ascii -> bool) (w r : list ascii) (i : nat) :
  forallb p w = true ->
  scanWhile p (w ++ r) i = scanWhile p r (i + length w).
Proof.
  revert i. induction w as [|a w IH]; intros i Hw; simpl.
  - f_equal. lia.
  - simpl in Hw. apply andb_prop in Hw as [Ha Hw]. rewrite Ha.
    rewrite (IH (S i) Hw). f_equal. lia.
Qed.

(** X1.  [tokenizeString] skips the white space in front of a token:
    started on a run of spaces, newlines, tabs and carriage returns it
    does what it does when started after the run, token, cursor and fault
    alike. *)
Theorem tokenizeString_skips_white_space (buf w r : list ascii) (i : nat) :
  skipn i buf = w ++ r ->
  blank w ->
  tokenizeString buf i = tokenizeString buf (i + length w).
Proof.
  intros Hbuf Hw.
  rewrite (tokenizeString_cursor _ _ _ Hbuf).
  rewrite (tokenizeString_cursor _ _ _ (skipn_shift _ _ _ _ Hbuf)).
  unfold tokenizeAt. rewrite (scanWhile_prefix _ _ _ _ Hw). reflexivity.
Qed.

Lemma tokenizeString_skips_white_space_witness :
  tokenizeString (dq "{  'a':1}") 1 = tokenizeString (dq "{  'a':1}") 3
  /\ tokenizeString (dq "{  'a':1}") 3 = Ok (mkToken JSON_TOKEN_STRING "a", 6).
Proof.
  split; [|reflexivity].
  exact (tokenizeString_skips_white_space (dq "{  'a':1}") (dq "  ") (dq "'a':1}") 1
           eq_refl eq_refl).
Defined.

(** X2.  A number token is any run of digits, ['.'], ['e'] and ['-']
    that starts with a digit or ['-']; the run is not checked any further.
    When the byte that ends the run is NUL, the token is of the invalid
    kind and the cursor is left on the NUL; otherwise the token is of the
    number kind with the run as its text and the cursor on the byte that
    ends the run, unless the run has 64 bytes or more, which do not fit
    [json_token::String]. *)
Theorem tokenizeString_number_token (pre ws : list ascii) (c : ascii)
  (body : list ascii) (d : ascii) (rest : list ascii) :
  blank ws ->
  startsNumber c = true ->
  forallb isNumberBody body = true ->
  isNumberBody d = false ->
  tokenizeString (pre ++ ws ++ c :: body ++ d :: rest) (length pre)
  = if (d =? NUL)%char
    then Ok (json_token_init, length pre + length ws + 1 + length body)
    else if S (length body) <? JSON_TOKEN_STRING_SIZE
         then Ok (mkToken JSON_TOKEN_NUMBER (string_of_list_ascii (c :: body)),
                  length pre + length ws + 1 + length body)
         else Fault TokenOverflow.
Proof.
  intros Hw Hc Hbody Hd.
  destruct (startsNumber_dispatch c Hc) as (Hws & H1 & H2 & H3 & H4 & H5 & H6 & H7).
  rewrite tokenizeString_at.
  rewrite (tokenizeAt_blank ws c _ _ Hw Hws).
  unfold tokenizeAt. rewrite (scanWhile_here isWhiteSpace c _ _ Hws). cbn [bind].
  rewrite H1, H2, H3, H4, H5, H6, H7.
  unfold startsNumber in Hc. rewrite Hc.
  rewrite (scanWhile_stop isNumberBody body d rest _ Hbody Hd). cbn [bind].
  destruct (d =? NUL)%char; [f_equal; f_equal; lia|].
  unfold copyTokenText.
  replace (S (length pre + length ws) + length body - (length pre + length ws))
    with (S (length body)) by lia.
  destruct (S (length body) <? JSON_TOKEN_STRING_SIZE); [|reflexivity].
  change (c :: body ++ d :: rest) with ((c :: body) ++ d :: rest).
  change (S (length body)) with (length (c :: body)).
  rewrite firstn_app_exact. cbn [bind]. f_equal. f_equal. lia.
Qed.

Lemma tokenizeString_number_token_witness :
  tokenizeString (dq "[ 1e--.5]") 1 = Ok (mkToken JSON_TOKEN_NUMBER "1e--.5", 8)
  /\ tokenizeString (cstr "[ 42") 1 = Ok (json_token_init, 4).
Proof.
  split.
  - exact (tokenizeString_number_token (dq "[") (dq " ") "1"%char (dq "e--.5")
             "]"%char [] eq_refl eq_refl eq_refl eq_refl).
  - exact (tokenizeString_number_token (dq "[") (dq " ") "4"%char (dq "2")
             NUL [] eq_refl eq_refl eq_refl eq_refl).
Defined.

(** X3.  The text of a string token is copied into the 64 bytes of
    [json_token::String] without a check of its length: when 64 bytes or
    more stand between the quotes, the copy and the terminator written
    after it go past the end of the token. *)
Theorem tokenizeString_token_overflow (pre ws body rest : list ascii) :
  blank ws ->
  (forall c, In c body -> c <> DQUOTE /\ c <> NUL) ->
  JSON_TOKEN_STRING_SIZE <= length body ->
  tokenizeString (pre ++ ws ++ DQUOTE :: body ++ DQUOTE :: rest) (length pre)
  = Fault TokenOverflow.
Proof.
  intros Hw Hbody Hlen. apply isStringBody_forallb in Hbody.
  rewrite tokenizeString_at.
  rewrite (tokenizeAt_string_open ws body DQUOTE rest _ Hw Hbody eq_refl).
  change ((DQUOTE =? NUL)%char) with false. cbv iota.
  unfold copyTokenText.
  replace (length body <? JSON_TOKEN_STRING_SIZE) with false
    by (symmetry; apply Nat.ltb_ge; exact Hlen).
  reflexivity.
Qed.

Lemma tokenizeString_token_overflow_witness :
  tokenizeString (dq "{'" ++ repeat "k"%char 64 ++ dq "':1}") 1 = Fault TokenOverflow.
Proof.
  apply (tokenizeString_token_overflow (dq "{") [] (repeat "k"%char 64) (dq ":1}")).
  - reflexivity.
  - intros c Hc. apply repeat_spec in Hc. subst c. split; discriminate.
  - vm_compute. lia.
Defined.

Lemma scanWhile_fault_at (p : ascii -> bool) (l : list ascii) (i : nat) (f : fault) :
  scanWhile p l i = Fault f -> f = OutOfBounds (i + length l).
Proof.
  revert i. induction l as [|c l IH]; intros i H; simpl in H.
  - injection H as <-. f_equal. simpl. lia.
  - destruct (p c); [|discriminate].
    rewrite (IH _ H). f_equal. simpl. lia.
Qed.

Lemma strncmpLiteral_fault_at (Literal l : list ascii) (i : nat) (f : fault) :
  strncmpLiteral l Literal i = Fault f -> f = OutOfBounds (i + length l).
Proof.
  revert l i. induction Literal as [|x Literal IH]; intros l i H; [discriminate|].
  destruct l as [|c l]; cbn [strncmpLiteral] in H.
  - injection H as <-. f_equal. simpl. lia.
  - destruct (c =? x)%char; [|discriminate].
    rewrite (IH _ _ H). f_equal. simpl. lia.
Qed.

Lemma tokenizeAt_fault_at (l : list ascii) (i : nat) (f : fault) :
  tokenizeAt l i = Fault f -> f = TokenOverflow \/ f = OutOfBounds (i + length l).
Proof.
  unfold tokenizeAt.
  destruct (scanWhile isWhiteSpace l i) as [[j r]|f0] eqn:Ews.
  2:{ cbn [bind]. intros H. injection H as <-. right.
      exact (scanWhile_fault_at _ _ _ _ Ews). }
  destruct (scanWhile_consumed _ _ _ _ _ Ews) as (pre & c & r' & -> & -> & ->).
  cbn [bind]. rewrite length_app. cbn [length].
  repeat match goal with
         | |- (if ?b then _ else _) = _ -> _ => destruct b
         end;
    try discriminate.
  - destruct (scanWhile isStringBody r' (S (i + length pre))) as [[j2 r2]|f0] eqn:Es.
    2:{ cbn [bind]. intros H. injection H as <-. right.
        rewrite (scanWhile_fault_at _ _ _ _ Es). f_equal. lia. }
    destruct (scanWhile_consumed _ _ _ _ _ Es) as (pre2 & c2 & r3 & -> & -> & ->).
    cbn [bind]. destruct (c2 =? NUL)%char; [discriminate|].
    unfold copyTokenText. destruct (_ <? _); [discriminate|].
    cbn [bind]. intros H. injection H as <-. left. reflexivity.
  - destruct (scanWhile isNumberBody r' (S (i + length pre))) as [[j2 r2]|f0] eqn:Es.
    2:{ cbn [bind]. intros H. injection H as <-. right.
        rewrite (scanWhile_fault_at _ _ _ _ Es). f_equal. lia. }
    destruct (scanWhile_consumed _ _ _ _ _ Es) as (pre2 & c2 & r3 & -> & -> & ->).
    cbn [bind]. destruct (c2 =? NUL)%char; [discriminate|].
    unfold copyTokenText. destruct (_ <? _); [discriminate|].
    cbn [bind]. intros H. injection H as <-. left. reflexivity.
  - destruct (strncmpLiteral _ _ _) as [[]|f0] eqn:El; try discriminate.
    cbn [bind]. intros H. injection H as <-. right.
    rewrite (strncmpLiteral_fault_at _ _ _ _ El). f_equal. simpl. lia.
  - destruct (strncmpLiteral _ _ _) as [[]|f0] eqn:El; try discriminate.
    cbn [bind]. intros H. injection H as <-. right.
    rewrite (strncmpLiteral_fault_at _ _ _ _ El). f_equal. simpl. lia.
  - destruct (strncmpLiteral _ _ _) as [[]|f0] eqn:El; try discriminate.
    cbn [bind]. intros H. injection H as <-. right.
    rewrite (strncmpLiteral_fault_at _ _ _ _ El). f_equal. simpl. lia.
Qed.

Lemma tokenizeString_fault_at (buf : list ascii) (i : nat) (f : fault) :
  tokenizeString buf i = Fault f ->
  f = TokenOverflow \/ exists k, f = OutOfBounds k /\ length buf <= k.
Proof.
  unfold tokenizeString. intros H.
  destruct (tokenizeAt_fault_at _ _ _ H) as [->| ->]; [left; reflexivity|].
  right. eexists. split; [reflexivity|]. rewrite length_drop. lia.
Qed.

(** X4.  Whatever the memory holds, a call of [tokenizeString] that
    returns never moves the cursor backwards nor past the end of the
    memory, and a token of a valid kind moves it forward by at least one
    byte; a call that does not return has read a byte outside the memory
    or has written past the token buffer. *)
Theorem tokenizeString_cursor_advances (buf : list ascii) (i : nat) :
  match tokenizeString buf i with
  | Ok (Token, j) =>
      i <= j /\ j <= length buf
      /\ (TokenType Token <> JSON_TOKEN_INVALID -> i < j)
  | Fault f => f = TokenOverflow \/ exists k, f = OutOfBounds k /\ length buf <= k
  end.
Proof.
  destruct (tokenizeString buf i) as [[Token j]|f] eqn:E.
  - destruct (tokenizeString_progress _ _ _ _ E) as (H1 & H2 & H3 & _).
    repeat split; assumption.
  - exact (tokenizeString_fault_at _ _ _ E).
Qed.

(** ** The parser: what it returns on any input *)

Lemma yields_bind {A B : Type} (Q : A -> Prop) (P : B -> Prop) (m : run (A * nat))
  (k : A * nat -> run (B * nat)) :
  yields Q m ->
  (forall a j, Q a -> yields P (k (a, j))) ->
  yields P (bind m k).
Proof.
  destruct m as [[a j]|f]; simpl; intros Hm Hk; [apply Hk; exact Hm|exact I].
Qed.

Lemma yields_any {A B : Type} (P : B -> Prop) (m : run (A * nat))
  (k : A * nat -> run (B * nat)) :
  (forall a j, yields P (k (a, j))) ->
  yields P (bind m k).
Proof.
  intros Hk. apply (yields_bind (fun _ => True)); [destruct m as [[a j]|f]; exact I|].
  intros a j _. apply Hk.
Qed.

(** What a scan has passed over. *)
Lemma scanWhile_scanned (p : ascii -> bool) (l : list ascii) (i j : nat)
  (r : list ascii) :
  scanWhile p l i = Ok (j, r) ->
  exists pre c r', l = pre ++ r /\ r = c :: r' /\ j = i + length pre
                   /\ forallb p pre = true /\ p c = false.
Proof.
  revert i. induction l as [|c l IH]; intros i H; simpl in H; [discriminate|].
  destruct (p c) eqn:Ec.
  - destruct (IH (S i) H) as (pre & c' & r' & -> & -> & -> & Hpre & Hc').
    exists (c :: pre), c', r'. repeat split; try assumption.
    + simpl. lia.
    + simpl. rewrite Ec. exact Hpre.
  - injection H as <- <-. exists [], c, l. repeat split; try assumption.
    simpl. lia.
Qed.

(** The text of a token of the string kind. *)
Lemma tokenizeAt_string_text (l : list ascii) (i j : nat) (Token : json_token) :
  tokenizeAt l i = Ok (Token, j) ->
  TokenType Token = JSON_TOKEN_STRING ->
  isStringText (TokenString Token) = true.
Proof.
  unfold tokenizeAt.
  destruct (scanWhile isWhiteSpace l i) as [[j0 r]|f] eqn:Ews; [|discriminate].
  cbn [bind]. destruct r as [|c r']; [discriminate|].
  repeat match goal with
         | |- (if ?b then _ else _) = _ -> _ => destruct b
         end;
    try (intros H; injection H as <- <-; discriminate).
  - destruct (scanWhile isStringBody r' (S j0)) as [[j2 r2]|f] eqn:Es; [|discriminate].
    destruct (scanWhile_scanned _ _ _ _ _ Es)
      as (pre & c2 & r3 & -> & -> & -> & Hpre & Hc2).
    cbn [bind]. destruct (c2 =? NUL)%char; [intros H; injection H as <- <-; discriminate|].
    unfold copyTokenText.
    replace (S j0 + length pre - S j0) with (length pre) by lia.
    destruct (length pre <? JSON_TOKEN_STRING_SIZE) eqn:Elen; [|discriminate].
    cbn [bind]. intros H. injection H as <- <-. intros _.
    rewrite firstn_app_exact. unfold isStringText. cbn [TokenString].
    rewrite list_ascii_of_string_of_list_ascii, Elen, Hpre. reflexivity.
  - destruct (scanWhile isNumberBody r' (S j0)) as [[j2 r2]|f] eqn:Es; [|discriminate].
    cbn [bind]. destruct r2 as [|c2 r2]; [discriminate|].
    destruct (c2 =? NUL)%char; [intros H; injection H as <- <-; discriminate|].
    destruct (copyTokenText _ _); [|discriminate].
    cbn [bind]. intros H. injection H as <- <-. discriminate.
  - destruct (strncmpLiteral _ _ _) as [[]|f]; try discriminate;
      cbn [bind]; intros H; injection H as <- <-; discriminate.
  - destruct (strncmpLiteral _ _ _) as [[]|f]; try discriminate;
      cbn [bind]; intros H; injection H as <- <-; discriminate.
  - destruct (strncmpLiteral _ _ _) as [[]|f]; try discriminate;
      cbn [bind]; intros H; injection H as <- <-; discriminate.
Qed.

Lemma tokenizeString_string_text (buf : list ascii) (i : nat) :
  yields (fun Token => TokenType Token = JSON_TOKEN_STRING ->
                       isStringText (TokenString Token) = true)
         (tokenizeString buf i).
Proof.
  destruct (tokenizeString buf i) as [[Token j]|f] eqn:E; [|exact I].
  exact (tokenizeAt_string_text _ _ _ _ E).
Qed.

Lemma parsedValue_array (Head : list json_value) :
  parsedValue false (JSON_TYPE_ARRAY Head) = forallb (parsedValue true) Head.
Proof.
  cbn [parsedValue negb andb].
  induction Head as [|e Head IH]; [reflexivity|].
  cbn [forallb]. rewrite <- IH. reflexivity.
Qed.

Lemma parsedMembers_appendMember (a b : json_member_ptr) :
  parsedMembers (appendMember a b) = parsedMembers a && parsedMembers b.
Proof.
  induction a as [|k v next IH] using member_next_ind; [reflexivity|].
  cbn [appendMember parsedMembers]. rewrite IH, andb_assoc. reflexivity.
Qed.

Lemma parsedMembers_appendNew (Result : json_object) (k : string) (v : json_value) :
  parsedMembers (First Result) = true ->
  isStringText k = true ->
  parsedValue false v = true ->
  parsedMembers (First (appendNew nullptr Result k v)) = true.
Proof.
  intros HR Hk Hv. cbn [appendNew First].
  rewrite parsedMembers_appendMember, HR. cbn [parsedMembers andb].
  rewrite Hk, Hv. reflexivity.
Qed.

Lemma isBool32_isTrueText (s : string) : isBool32 (isTrueText s) = true.
Proof. unfold isTrueText. destruct (String.prefix "true" s); reflexivity. Qed.

Lemma forallb_firstn {A : Type} (p : A -> bool) (n : nat) (l : list A) :
  forallb p l = true -> forallb p (firstn n l) = true.
Proof.
  intros H.
  revert n. induction l as [|a l IH]; intros [|n]; try reflexivity.
  simpl in *. apply andb_prop in H as [Ha Hl]. rewrite Ha. exact (IH Hl n).
Qed.

Section ParsedShape.

Variable atof : string -> float.
Variable malloc_zero_is_null : bool.
Variable buf : list ascii.

Local Abbreviation shaped := (fun obj : json_object => parsedMembers (First obj) = true).
Local Abbreviation stringToken :=
  (fun Token : json_token => TokenType Token = JSON_TOKEN_STRING ->
                             isStringText (TokenString Token) = true).

Tactic Notation "read_token" ident(tok) ident(j) ident(H) :=
  apply (yields_bind stringToken);
  [apply tokenizeString_string_text | intros tok j H; cbn beta iota].

Ltac settled := solve [exact I | cbn; assumption | cbn; reflexivity].

(** The four loops of [parseStringToJson] build trees of the parsed
    shape, whatever the input and the declared length. *)
Lemma parse_shape (fuel : nat) :
  (forall size i,
     yields shaped (parseLoop atof malloc_zero_is_null nullptr fuel buf size i))
  /\ (forall size i Result, parsedMembers (First Result) = true ->
        yields shaped (parseMembers atof malloc_zero_is_null nullptr fuel buf size i Result))
  /\ (forall size i values, forallb (parsedValue true) values = true ->
        yields (fun filled => forall vs, filled = Some vs ->
                                forallb (parsedValue true) vs = true)
               (fillFrom atof malloc_zero_is_null nullptr fuel buf size i values)).
Proof.
  induction fuel as [|fuel (IHloop & IHmembers & IHfill)].
  - split; [|split]; intros; [exact I|exact I|].
    unfold fillFrom. apply yields_any. intros; exact I.
  - split; [|split].
    + intros size i. rewrite parseLoop_S.
      destruct (i <? size); [|reflexivity].
      apply yields_any. intros Token i1.
      destruct (TokenType Token); try settled;
        solve [apply IHloop | apply IHmembers; reflexivity].
    + intros size i Result HR. rewrite parseMembers_S.
      read_token KeyToken i1 Hkey.
      destruct (TokenType KeyToken) eqn:Ekey; try settled.
      specialize (Hkey eq_refl).
      apply yields_any. intros ColonToken i2.
      destruct (TokenType ColonToken); try settled.
      apply (yields_bind (fun added => forall R, added = Some R -> shaped R)).
      * unfold valueStep. read_token ValueToken i3 Hvalue.
        destruct (TokenType ValueToken) eqn:Evalue;
          try (cbn; intros R E; discriminate E).
        -- apply (yields_bind shaped); [apply IHloop|].
           intros Child j HChild. cbn. intros R E. injection E as <-.
           unfold addJsonMemberObject.
           destruct (First Child) as [|ck cv cnext] eqn:EChild; [exact HR|].
           cbn [addJsonMemberChild].
           apply parsedMembers_appendNew; [exact HR|exact Hkey|].
           cbn [parsedValue]. exact HChild.
        -- apply yields_any. intros [ArraySize|] j; [|cbn; intros R E; discriminate E].
           apply (yields_bind (fun filled => forall vs, filled = Some vs ->
                                               forallb (parsedValue true) vs = true)).
           ++ apply IHfill. reflexivity.
           ++ intros [values|] j' Hvalues; [|cbn; intros R E; discriminate E].
              unfold addJsonMemberArray.
              destruct (mallocValueArray _ _ _) as [stored|] eqn:Emalloc;
                [|cbn; intros R E; injection E as <-; exact HR].
              assert (stored = values) as ->.
              { unfold mallocValueArray in Emalloc.
                destruct ArraySize; [destruct malloc_zero_is_null|]; congruence. }
              destruct (ArraySize <=? length values); [|exact I].
              cbn. intros R E. injection E as <-.
              apply parsedMembers_appendNew; [exact HR|exact Hkey|].
              rewrite parsedValue_array. apply forallb_firstn.
              apply Hvalues. reflexivity.
        -- cbn. intros R E. injection E as <-.
           apply parsedMembers_appendNew; [exact HR|exact Hkey|].
           cbn [parsedValue]. apply Hvalue. reflexivity.
        -- cbn. intros R E. injection E as <-.
           apply parsedMembers_appendNew; [exact HR|exact Hkey|reflexivity].
        -- cbn. intros R E. injection E as <-.
           apply parsedMembers_appendNew; [exact HR|exact Hkey|].
           cbn [parsedValue]. apply isBool32_isTrueText.
        -- cbn. intros R E. injection E as <-.
           apply parsedMembers_appendNew; [exact HR|exact Hkey|reflexivity].
      * intros [Result'|] i4 Hadded; [|cbn; exact HR].
        specialize (Hadded _ eq_refl).
        apply yields_any. intros CommaToken i5.
        destruct (TokenType CommaToken); try settled.
        apply IHmembers. exact Hadded.
    + intros size i values Hvalues. unfold fillFrom.
      read_token ArrayToken i1 Htoken. rewrite fillArray_S.
      assert (Hmore : forall e j, parsedValue true e = true ->
                yields (fun filled => forall vs, filled = Some vs ->
                                        forallb (parsedValue true) vs = true)
                       (fillFrom atof malloc_zero_is_null nullptr fuel buf size j
                          (values ++ [e]))).
      { intros e j He. apply IHfill. rewrite forallb_app, Hvalues. cbn. rewrite He.
        reflexivity. }
      destruct (TokenType ArrayToken) eqn:Ekind;
        try (cbn; intros vs E; discriminate E).
      * apply (yields_bind shaped); [apply IHloop|].
        intros TempObject j HTemp. apply Hmore. cbn [parsedValue].
        destruct (First TempObject); [reflexivity|exact HTemp].
      * cbn. intros vs E. injection E as <-. exact Hvalues.
      * apply IHfill. exact Hvalues.
      * apply Hmore. cbn [parsedValue]. apply Htoken. reflexivity.
      * apply Hmore. reflexivity.
      * apply Hmore. cbn [parsedValue]. apply isBool32_isTrueText.
      * apply Hmore. reflexivity.
Qed.

End ParsedShape.

Lemma parsedMembers_preorder (m : json_member_ptr) :
  parsedMembers m = true ->
  forall k v, In (k, v) (preorder m) ->
    isStringText k = true /\ parsedValue false v = true.
Proof.
  induction m as [|k Child next IHc IHn|k v next Hv IHn] using member_list_ind;
    intros Hm k' v' Hin; [contradiction| |].
  - cbn [parsedMembers] in Hm.
    apply andb_prop in Hm as [Hm Hnext]. apply andb_prop in Hm as [Hk HChild].
    cbn [preorder] in Hin. destruct Hin as [E|Hin].
    + injection E as <- <-. split; assumption.
    + apply in_app_or in Hin as [Hin|Hin]; [|exact (IHn Hnext _ _ Hin)].
      apply (IHc) with (k := k') (v := v'); [|exact Hin].
      cbn [parsedValue] in HChild. destruct Child; [reflexivity|exact HChild].
  - cbn [parsedMembers] in Hm.
    apply andb_prop in Hm as [Hm Hnext]. apply andb_prop in Hm as [Hk Hval].
    cbn [preorder] in Hin. destruct Hin as [E|Hin].
    + injection E as <- <-. split; assumption.
    + apply (IHn Hnext). destruct v; try exact Hin.
      exfalso. eapply Hv. reflexivity.
Qed.

Lemma parsedMembers_membersValid (m : json_member_ptr) :
  parsedMembers m = true -> membersValid m.
Proof.
  intros Hm k v Hin.
  destruct (parsedMembers_preorder m Hm k v Hin) as [_ Hv].
  destruct v; try reflexivity. discriminate Hv.
Qed.

(** X5.  When the blocks [malloc] hands out for the members hold a
    null [Next]: whatever the input, the declared length and the cursor,
    and whether or not it is flagged valid, the object [parseStringToJson]
    returns has this shape: every key and every string is the text of a
    string token (fewer than 64 bytes, no double quote, no NUL); no value
    is of the invalid kind; a nested object stored under a key has at
    least one member (its [Child] is not null), while one stored in an
    array may have a null [Child]; an array holds no array; a boolean is
    0 or 1. *)
Theorem parseStringToJson_result_shape (atof : string -> float) (mz : bool)
  (malloc_Next : json_member_ptr)
  (buf : list ascii) (size i : nat) (obj : json_object) (j : nat) :
  malloc_Next = nullptr ->
  parseStringToJson atof mz malloc_Next buf size i = Ok (obj, j) ->
  parsedMembers (First obj) = true
  /\ (forall k v, In (k, v) (preorder (First obj)) ->
        isStringText k = true
        /\ v <> JSON_TYPE_INVALID /\ v <> JSON_TYPE_MEMBER nullptr
        /\ (forall Head e, v = JSON_TYPE_ARRAY Head -> In e Head ->
              e <> JSON_TYPE_INVALID /\ isArrayValue e = false)).
Proof.
  intros -> Hparse.
  pose proof (proj1 (parse_shape atof mz buf (parseFuel buf)) size i) as H.
  unfold parseStringToJson in Hparse. rewrite Hparse in H. cbn [yields] in H.
  split; [exact H|].
  intros k v Hin. destruct (parsedMembers_preorder _ H k v Hin) as [Hk Hv].
  split; [exact Hk|]. split; [intros ->; discriminate Hv|].
  split; [intros ->; discriminate Hv|].
  intros Head e -> He. rewrite parsedValue_array in Hv.
  pose proof (proj1 (forallb_forall _ _) Hv e He) as Hshape.
  split; [intros ->; discriminate Hshape|].
  destruct e; try reflexivity. discriminate Hshape.
Qed.

Lemma parseStringToJson_result_shape_witness :
  parsedMembers
    (Member "a" (JSON_TYPE_ARRAY [JSON_TYPE_MEMBER nullptr; JSON_TYPE_BOOLEAN 1])
       nullptr) = true.
Proof.
  exact (proj1 (parseStringToJson_result_shape atofDigits false nullptr
                  (cstr "{'a':[{},true]}") 15 0
                  (mkObject
                     (Member "a"
                        (JSON_TYPE_ARRAY [JSON_TYPE_MEMBER nullptr; JSON_TYPE_BOOLEAN 1])
                        nullptr) true) 15 eq_refl eq_refl)).
Defined.

(** X6.  When the blocks [malloc] hands out for the members hold a
    null [Next]: on every object [parseStringToJson] returns, [getJsonValue]
    finds the first member with the key in depth-first order (a member,
    then its nested object, then its siblings; the objects held in arrays
    are not searched), and it returns the invalid value exactly when no
    member in that order has the key. *)
Theorem getJsonValue_of_parsed (atof : string -> float) (mz : bool)
  (malloc_Next : json_member_ptr)
  (buf : list ascii) (size i : nat) (obj : json_object) (j : nat) (Key : string) :
  malloc_Next = nullptr ->
  parseStringToJson atof mz malloc_Next buf size i = Ok (obj, j) ->
  getJsonValue obj Key = firstMatch (First obj) Key
  /\ (getJsonValue obj Key = JSON_TYPE_INVALID
      <-> ~ In Key (map fst (preorder (First obj)))).
Proof.
  intros -> Hparse.
  pose proof (proj1 (parse_shape atof mz buf (parseFuel buf)) size i) as H.
  unfold parseStringToJson in Hparse. rewrite Hparse in H. cbn [yields] in H.
  apply parsedMembers_membersValid in H.
  assert (Hget : getJsonValue obj Key = firstMatch (First obj) Key).
  { unfold getJsonValue. rewrite <- (getJsonValueMember_firstMatch _ Key H).
    destruct (First obj); reflexivity. }
  split; [exact Hget|]. rewrite Hget. unfold firstMatch.
  destruct (List.find _ (preorder (First obj))) as [[k v]|] eqn:Efind.
  - pose proof (firstMatch_valid _ Key H k v Efind) as Hv.
    apply List.find_some in Efind as [Hin Hk]. cbn [fst] in Hk.
    apply String.eqb_eq in Hk. subst k. split.
    + intros ->. discriminate Hv.
    + intros Hno. exfalso. apply Hno. apply in_map_iff.
      exists (Key, v). split; [reflexivity|exact Hin].
  - split; [|reflexivity]. intros _ Hin. apply in_map_iff in Hin as [[k v] [Ek Hin]].
    cbn [fst] in Ek. subst k.
    pose proof (List.find_none _ _ Efind _ Hin) as Hno. cbn [fst] in Hno.
    rewrite String.eqb_refl in Hno. discriminate Hno.
Qed.

Lemma getJsonValue_of_parsed_witness :
  getJsonValue
    (mkObject (Member "p" (JSON_TYPE_ARRAY
                             [JSON_TYPE_MEMBER (Member "x" (JSON_TYPE_NUMBER 1) nullptr)])
                 nullptr) true) "x"
  = JSON_TYPE_INVALID.
Proof.
  apply (proj2 (getJsonValue_of_parsed atofDigits false nullptr
                  (cstr "{'p':[{'x':1}]}") 15 0 _ 15 "x" eq_refl eq_refl)).
  simpl. intros [E|[]]. discriminate E.
Defined.

(** ** The two passes over an array *)

Lemma passesAgree_stored (n : nat) (acc : list json_value) (e : json_value)
  (counted : run (option nat * nat))
  (filled : run (option (list json_value) * nat)) :
  passesAgree (S n) (acc ++ [e]) counted filled -> passesAgree n acc counted filled.
Proof.
  unfold passesAgree. destruct counted as [[[ArraySize|] j]|f]; try tauto.
  intros (vs & -> & ->). exists (e :: vs). split.
  - rewrite <- app_assoc. reflexivity.
  - simpl. lia.
Qed.

Section ArrayPasses.

Variable atof : string -> float.
Variable malloc_zero_is_null : bool.
Variable malloc_Next : json_member_ptr.
Variable buf : list ascii.
Variable size : nat.

Lemma array_passes (fuel : nat) :
  forall ArrayToken i n acc,
    passesAgree n acc
      (countArray atof malloc_zero_is_null malloc_Next fuel buf size ArrayToken i n)
      (fillArray atof malloc_zero_is_null malloc_Next fuel buf size ArrayToken i acc).
Proof.
  induction fuel as [|fuel IH]; intros ArrayToken i n acc; [reflexivity|].
  assert (IHfrom : forall i n acc,
             passesAgree n acc
               (countFrom atof malloc_zero_is_null malloc_Next fuel buf size i n)
               (fillFrom atof malloc_zero_is_null malloc_Next fuel buf size i acc)).
  { intros i' n' acc'. unfold countFrom, fillFrom.
    destruct (tokenizeString buf i') as [[Token j]|f]; [apply IH|reflexivity]. }
  rewrite countArray_S, fillArray_S.
  destruct (TokenType ArrayToken); try reflexivity;
    try (eapply passesAgree_stored; apply IHfrom).
  - destruct (parseLoop atof malloc_zero_is_null malloc_Next fuel buf size (i - 1))
      as [[TempObject j]|f]; [|reflexivity].
    cbn [bind]. apply passesAgree_stored with (e := JSON_TYPE_MEMBER (First TempObject)).
    apply IHfrom.
  - exists []. split; [rewrite app_nil_r; reflexivity|simpl; lia].
  - apply IHfrom.
Qed.

Lemma array_passes_from (fuel i : nat) :
  passesAgree 0 []
    (countFrom atof malloc_zero_is_null malloc_Next fuel buf size i 0)
    (fillFrom atof malloc_zero_is_null malloc_Next fuel buf size i []).
Proof.
  unfold countFrom, fillFrom.
  destruct (tokenizeString buf i) as [[Token j]|f]; [apply array_passes|reflexivity].
Qed.

(** X7.  [parseStringToJson] reads an array twice from the same
    cursor, first to count its elements, then to store them in the buffer
    it has allocated for that count.  The two passes agree on every
    input: when the first pass returns a count, the second pass stores
    exactly that many values and stops at the same cursor, so no element
    of the buffer is left unwritten and none is written past its end;
    when the first pass gives up or stops on a fault, so does the
    second. *)
Theorem array_passes_agree (fuel i : nat) :
  match countFrom atof malloc_zero_is_null malloc_Next fuel buf size i 0 with
  | Ok (Some ArraySize, j) =>
      exists values,
        fillFrom atof malloc_zero_is_null malloc_Next fuel buf size i [] = Ok (Some values, j)
        /\ length values = ArraySize
        /\ firstn ArraySize values = values
  | Ok (None, j) =>
      fillFrom atof malloc_zero_is_null malloc_Next fuel buf size i [] = Ok (None, j)
  | Fault f => fillFrom atof malloc_zero_is_null malloc_Next fuel buf size i [] = Fault f
  end.
Proof.
  pose proof (array_passes_from fuel i) as H.
  unfold passesAgree in H.
  destruct (countFrom atof malloc_zero_is_null malloc_Next fuel buf size i 0)
    as [[[ArraySize|] j]|f]; try exact H.
  destruct H as (vs & Hfill & ->). exists vs. cbn [app] in Hfill.
  split; [exact Hfill|]. split; [reflexivity|]. apply firstn_all.
Qed.

End ArrayPasses.

(** ** Termination *)

Lemma braceFree_declared (buf : list ascii) (size : nat) :
  length buf <= size -> braceFree buf size.
Proof.
  intros Hsize j r Hj E. rewrite drop_ge in E by lia. discriminate E.
Qed.

Lemma faultsOnRead_bind {A B : Type} (top : nat) (m : run A) (k : A -> run B) :
  faultsOnRead top m -> (forall a, faultsOnRead top (k a)) ->
  faultsOnRead top (bind m k).
Proof. destruct m as [a|f]; simpl; intros Hm Hk; [apply Hk|exact Hm]. Qed.

Lemma tokenizeString_faultsOnRead (buf : list ascii) (i : nat) :
  faultsOnRead (length buf) (tokenizeString buf i).
Proof.
  destruct (tokenizeString buf i) as [[Token j]|f] eqn:E; [exact I|].
  destruct (tokenizeString_fault_at _ _ _ E) as [->|(k & -> & Hk)].
  - left. reflexivity.
  - right. right. exists k. split; [reflexivity|exact Hk].
Qed.

Section ParseFaults.

Variable atof : string -> float.
Variable malloc_zero_is_null : bool.
Variable malloc_Next : json_member_ptr.
Variable buf : list ascii.

Ltac token_fault :=
  apply faultsOnRead_bind; [apply tokenizeString_faultsOnRead|intros [? ?]; cbn beta iota].

(** The four loops of [parseStringToJson] stop on no other fault than
    those of [tokenizeString]. *)
Lemma parse_faults (fuel : nat) :
  (forall size i,
     faultsOnRead (length buf) (parseLoop atof malloc_zero_is_null malloc_Next fuel buf size i))
  /\ (forall size i Result,
        faultsOnRead (length buf)
          (parseMembers atof malloc_zero_is_null malloc_Next fuel buf size i Result))
  /\ (forall size i n,
        faultsOnRead (length buf) (countFrom atof malloc_zero_is_null malloc_Next fuel buf size i n))
  /\ (forall size i values,
        faultsOnRead (length buf)
          (fillFrom atof malloc_zero_is_null malloc_Next fuel buf size i values)).
Proof.
  induction fuel as [|fuel (IHloop & IHmembers & IHcount & IHfill)].
  - split; [|split; [|split]]; intros; try (right; left; reflexivity).
    + unfold countFrom. token_fault. right. left. reflexivity.
    + unfold fillFrom. token_fault. right. left. reflexivity.
  - split; [|split; [|split]].
    + intros size i. rewrite parseLoop_S. destruct (i <? size); [|exact I].
      token_fault. destruct (TokenType _); try exact I;
        solve [apply IHloop | apply IHmembers].
    + intros size i Result. rewrite parseMembers_S.
      token_fault. destruct (TokenType _); try exact I.
      token_fault. destruct (TokenType _); try exact I.
      apply faultsOnRead_bind.
      * unfold valueStep. token_fault. destruct (TokenType _); try exact I.
        -- apply faultsOnRead_bind; [apply IHloop|]. intros [? ?]. exact I.
        -- match goal with
           | |- context [countFrom _ _ _ fuel buf size ?i3 0] =>
               pose proof (array_passes_from atof malloc_zero_is_null malloc_Next
                             buf size fuel i3) as Hagree;
               pose proof (IHcount size i3 0) as Hcount
           end.
           destruct (countFrom _ _ _ fuel buf size _ 0) as [[[ArraySize|] j']|f];
             cbn [bind]; [|exact I|exact Hcount].
           cbn [passesAgree] in Hagree. destruct Hagree as (vs & -> & ->).
           cbn [bind app Nat.add]. unfold addJsonMemberArray.
           destruct (mallocValueArray _ _ _) as [stored|] eqn:Emalloc; [|exact I].
           assert (stored = vs) as ->.
           { unfold mallocValueArray in Emalloc.
             destruct (length vs); [destruct malloc_zero_is_null|]; congruence. }
           rewrite Nat.leb_refl. exact I.
      * intros [[?|] ?]; [|exact I].
        token_fault. destruct (TokenType _); try exact I. apply IHmembers.
    + intros size i n. unfold countFrom. token_fault. rewrite countArray_S.
      destruct (TokenType _); try exact I; try apply IHcount.
      apply faultsOnRead_bind; [apply IHloop|]. intros [? ?]. apply IHcount.
    + intros size i values. unfold fillFrom. token_fault. rewrite fillArray_S.
      destruct (TokenType _); try exact I; try apply IHfill.
      apply faultsOnRead_bind; [apply IHloop|]. intros [? ?]. apply IHfill.
Qed.

End ParseFaults.

(** X8.  When the blocks [malloc] hands out for the members
    hold a null [Next]: [parseStringToJson] returns whenever no opening
    brace lies in memory at or after the declared length, and so whenever
    the declared length covers the memory: each of its loops then takes
    at most two turns for each byte of the memory.  It returns with the
    cursor at or after the one it was given and inside the memory, unless
    [tokenizeString] has read a byte outside the memory or written past
    the token buffer; it stops on no other fault: the insert operations
    find the end of each member list, and the array overload is handed
    as many values as it copies. *)
Theorem parseStringToJson_terminates (atof : string -> float) (mz : bool)
  (malloc_Next : json_member_ptr)
  (buf : list ascii) (size i : nat) :
  malloc_Next = nullptr ->
  length buf <= size \/ braceFree buf size ->
  i <= length buf ->
  match parseStringToJson atof mz malloc_Next buf size i with
  | Ok (_, j) => i <= j /\ j <= length buf
  | Fault f => f = TokenOverflow \/ exists k, f = OutOfBounds k /\ length buf <= k
  end.
Proof.
  intros -> Hdeclared Hi.
  assert (Hfree : braceFree buf size).
  { destruct Hdeclared as [Hsize|Hfree]; [apply braceFree_declared|]; assumption. }
  pose proof (proj1 (proj1 (parse_fuel atof mz nullptr buf size Hfree (parseFuel buf)) i Hi
                       ltac:(unfold parseFuel; lia))) as Hadvances.
  pose proof (proj1 (parse_faults atof mz nullptr buf (parseFuel buf)) size i) as Hfaults.
  unfold parseStringToJson.
  destruct (parseLoop atof mz nullptr (parseFuel buf) buf size i) as [[obj j]|f].
  - exact Hadvances.
  - cbn [advances faultsOnRead] in *.
    destruct Hfaults as [->|[->|Hread]]; [left; reflexivity|contradiction|].
    right. exact Hread.
Qed.

Lemma parseStringToJson_terminates_witness :
  match parseStringToJson atofDigits false nullptr (dq "{'a':[{'b':1}]}") 15 0 with
  | Ok (_, j) => 0 <= j /\ j <= 15
  | Fault f => f = TokenOverflow \/ exists k, f = OutOfBounds k /\ 15 <= k
  end.
Proof.
  apply (parseStringToJson_terminates atofDigits false nullptr (dq "{'a':[{'b':1}]}") 15 0).
  - reflexivity.
  - left. vm_compute. lia.
  - lia.
Defined.

Section DeclaredLength.

Variable atof : string -> float.
Variable malloc_zero_is_null : bool.
Variable malloc_Next : json_member_ptr.

Lemma brace_read (buf : list ascii) (j : nat) (r : list ascii) :
  skipn j buf = "{"%char :: r ->
  tokenizeString buf j = Ok (simpleToken JSON_TOKEN_OBJECT_START, S j).
Proof.
  intros Hr. rewrite (tokenizeString_cursor _ _ _ Hr).
  pose proof (tokenizeAt_object_start [] r j eq_refl) as Htok.
  cbn [app] in Htok. rewrite Htok. f_equal. f_equal. simpl. lia.
Qed.

Lemma countArray_turns_forever (buf : list ascii) (size j : nat) (r : list ascii) :
  size <= j ->
  skipn j buf = "{"%char :: r ->
  forall fuel n,
    countArray atof malloc_zero_is_null malloc_Next fuel buf size
      (simpleToken JSON_TOKEN_OBJECT_START) (S j) n = Fault OutOfFuel.
Proof.
  intros Hsize Hr. induction fuel as [|fuel IH]; intros n; [reflexivity|].
  rewrite countArray_S. cbn [TokenType simpleToken].
  replace (S j - 1) with j by lia.
  destruct fuel as [|fuel]; [reflexivity|].
  rewrite parseLoop_S.
  replace (j <? size) with false by (symmetry; apply Nat.ltb_ge; exact Hsize).
  cbn [bind]. unfold countFrom. rewrite (brace_read _ _ _ Hr). cbn [bind].
  apply IH.
Qed.

(** X9.  The first pass over an array never ends when it meets an
    opening brace that lies at or after the declared length: the nested
    call of [parseStringToJson] returns at once without moving the cursor,
    and the pass reads the same brace again, for ever.  So does the parse
    of [{"a":[{"b":1}]}] with the declared length 6. *)
Theorem parseStringToJson_never_returns :
  (forall (buf : list ascii) (size j : nat) (r : list ascii) (fuel n : nat),
     size <= j ->
     skipn j buf = "{"%char :: r ->
     countArray atof malloc_zero_is_null malloc_Next fuel buf size
       (simpleToken JSON_TOKEN_OBJECT_START) (S j) n = Fault OutOfFuel)
  /\ (forall fuel,
        parseLoop atof malloc_zero_is_null malloc_Next fuel (cstr "{'a':[{'b':1}]}") 6 0
        = Fault OutOfFuel).
Proof.
  split.
  - intros buf size j r fuel n Hsize Hr.
    exact (countArray_turns_forever buf size j r Hsize Hr fuel n).
  - intros fuel.
    destruct fuel as [|fuel]; [reflexivity|].
    rewrite parseLoop_S. cbn [Nat.ltb Nat.leb].
    change (tokenizeString (cstr "{'a':[{'b':1}]}") 0)
      with (@Ok (json_token * nat) (simpleToken JSON_TOKEN_OBJECT_START, 1)).
    cbn [bind TokenType simpleToken].
    destruct fuel as [|fuel]; [reflexivity|].
    rewrite parseMembers_S.
    change (tokenizeString (cstr "{'a':[{'b':1}]}") 1)
      with (@Ok (json_token * nat) (mkToken JSON_TOKEN_STRING "a", 4)).
    cbn [bind TokenType TokenString].
    change (tokenizeString (cstr "{'a':[{'b':1}]}") 4)
      with (@Ok (json_token * nat) (simpleToken JSON_TOKEN_COLON, 5)).
    cbn [bind TokenType simpleToken].
    unfold valueStep.
    change (tokenizeString (cstr "{'a':[{'b':1}]}") 5)
      with (@Ok (json_token * nat) (simpleToken JSON_TOKEN_ARRAY_START, 6)).
    cbn [bind TokenType simpleToken].
    unfold countFrom.
    change (tokenizeString (cstr "{'a':[{'b':1}]}") 6)
      with (@Ok (json_token * nat) (simpleToken JSON_TOKEN_OBJECT_START, 7)).
    cbn [bind].
    rewrite (countArray_turns_forever (cstr "{'a':[{'b':1}]}") 6 6
               (dq "'b':1}]}" ++ [NUL]) (le_n 6) eq_refl).
    reflexivity.
Qed.

End DeclaredLength.

Lemma parseStringToJson_never_returns_witness :
  countArray atofDigits false nullptr 1000 (cstr "{'a':[{'b':1}]}") 6
    (simpleToken JSON_TOKEN_OBJECT_START) 7 0 = Fault OutOfFuel.
Proof.
  exact (proj1 (parseStringToJson_never_returns atofDigits false nullptr)
           (cstr "{'a':[{'b':1}]}") 6 6 (dq "'b':1}]}" ++ [NUL]) 1000 0
           (le_n 6) eq_refl).
Defined.

(** ** Texts the parser accepts *)

Section WithoutObject.

Variable atof : string -> float.
Variable malloc_zero_is_null : bool.
Variable malloc_Next : json_member_ptr.
Variable buf : list ascii.
Hypothesis no_brace : braceFree buf 0.

Lemma parseLoop_without_brace (fuel size i : nat) :
  match parseLoop atof malloc_zero_is_null malloc_Next fuel buf size i with
  | Ok (obj, _) => obj = json_object_init
  | Fault f => f = TokenOverflow \/ f = OutOfFuel \/ exists k, f = OutOfBounds k
  end.
Proof.
  revert i. induction fuel as [|fuel IH]; intros i; [right; left; reflexivity|].
  rewrite parseLoop_S. destruct (i <? size); [|reflexivity].
  destruct (tokenizeString buf i) as [[Token j]|f] eqn:E.
  - cbn [bind].
    destruct (TokenType Token) eqn:Ekind; try reflexivity; try apply IH.
    exfalso.
    destruct (tokenizeString_progress _ _ _ _ E) as (_ & _ & _ & Hbrace).
    destruct (Hbrace Ekind) as (_ & (r & Hr) & _).
    exact (no_brace (j - 1) r (Nat.le_0_l _) Hr).
  - cbn [bind]. destruct (tokenizeString_fault_at _ _ _ E) as [->|(k & -> & _)].
    + left. reflexivity.
    + right. right. exists k. reflexivity.
Qed.

End WithoutObject.

(** X10.  A text that holds no opening brace, handed over as a
    C string (its bytes, then a NUL), is never reported as invalid: whatever its bytes are (an array, a bare value, anything
    that is not JSON, or nothing at all), [parseStringToJson] returns the
    object without members with [IsValid] true and the cursor inside the
    text, unless a string or number of 64 bytes or more overflows the
    token buffer. *)
Theorem parseStringToJson_without_object (atof : string -> float) (mz : bool)
  (malloc_Next : json_member_ptr)
  (data : list ascii) (size : nat) :
  ~ In "{"%char data ->
  match parseStringToJson atof mz malloc_Next (data ++ [NUL]) size 0 with
  | Ok (obj, j) => obj = mkObject nullptr true /\ j <= length data
  | Fault f => f = TokenOverflow
  end.
Proof.
  intros Hno.
  assert (Hfree : braceFree (data ++ [NUL]) 0).
  { intros j r _ E. apply Hno.
    assert (Hin : In "{"%char (skipn j (data ++ [NUL]))) by (rewrite E; left; reflexivity).
    assert (Hall : In "{"%char (data ++ [NUL])).
    { rewrite <- (firstn_skipn j (data ++ [NUL])). apply in_or_app. right. exact Hin. }
    apply in_app_or in Hall as [Hall|[Hall|[]]]; [exact Hall|].
    discriminate Hall. }
  pose proof (parseStringToJson_returns atof mz malloc_Next (data ++ [NUL]) size
                (fun j r _ => Hfree j r (Nat.le_0_l _)) 0) as Hfuel.
  pose proof (proj1 (parse_terminated atof mz malloc_Next data (parseFuel (data ++ [NUL])))
                size 0 (Nat.le_0_l _)) as Hbound.
  pose proof (parseLoop_without_brace atof mz malloc_Next (data ++ [NUL]) Hfree
                (parseFuel (data ++ [NUL])) size 0) as Hshape.
  unfold parseStringToJson in *.
  destruct (parseLoop atof mz malloc_Next (parseFuel (data ++ [NUL])) (data ++ [NUL]) size 0)
    as [[obj j]|f].
  - split; [exact Hshape|exact Hbound].
  - destruct Hshape as [->|[->|(k & ->)]]; [reflexivity| |].
    + exfalso. apply Hfuel. reflexivity.
    + contradiction Hbound.
Qed.

Lemma parseStringToJson_without_object_witness :
  ~ In "{"%char (dq "[1,2] is not an object")
  /\ match parseStringToJson atofDigits false nullptr (dq "[1,2] is not an object" ++ [NUL]) 22 0 with
     | Ok (obj, j) => obj = mkObject nullptr true /\ j <= 22
     | Fault f => f = TokenOverflow
     end.
Proof.
  assert (Hno : ~ In "{"%char (dq "[1,2] is not an object")).
  { intros Hin. simpl in Hin.
    repeat (destruct Hin as [Hin|Hin]; [discriminate Hin|]). exact Hin. }
  split; [exact Hno|].
  exact (parseStringToJson_without_object atofDigits false nullptr
           (dq "[1,2] is not an object") 22 Hno).
Defined.

(** X11.  The text of an object without members, [{}] with any
    white space around and inside and anything after it, is reported as
    invalid: the token that follows the opening brace has to be a string,
    and the closing brace is not one. *)
Theorem parseStringToJson_empty_object_invalid (atof : string -> float) (mz : bool)
  (malloc_Next : json_member_ptr)
  (w1 w2 rest : list ascii) (size : nat) :
  blank w1 -> blank w2 -> 0 < size ->
  parseStringToJson atof mz malloc_Next (w1 ++ "{"%char :: w2 ++ "}"%char :: rest) size 0
  = Ok (mkObject nullptr false, length w1 + length w2 + 2).
Proof.
  intros Hw1 Hw2 Hsize. unfold parseStringToJson, parseFuel.
  set (buf := w1 ++ "{"%char :: w2 ++ "}"%char :: rest).
  replace (2 * length buf + 8) with (S (S (2 * length buf + 6))) by lia.
  rewrite parseLoop_S.
  replace (0 <? size) with true by (symmetry; apply Nat.ltb_lt; exact Hsize).
  assert (Hbuf : skipn 0 buf = w1 ++ "{"%char :: w2 ++ "}"%char :: rest) by reflexivity.
  rewrite (tokenizeString_cursor _ _ _ Hbuf), (tokenizeAt_object_start _ _ _ Hw1).
  cbn [bind TokenType simpleToken].
  rewrite parseMembers_S.
  rewrite (tokenizeString_cursor _ _ _ (cursor_over_byte _ _ _ _ _ Hbuf)).
  rewrite (tokenizeAt_object_end _ _ _ Hw2).
  cbn [bind TokenType simpleToken]. unfold invalidate, json_object_init. cbn [First].
  f_equal. f_equal. lia.
Qed.

Lemma parseStringToJson_empty_object_invalid_witness :
  parseStringToJson atofDigits false nullptr (dq " { } ") 5 0 = Ok (mkObject nullptr false, 4).
Proof.
  exact (parseStringToJson_empty_object_invalid atofDigits false nullptr (dq " ") (dq " ")
           (dq " ") 5 eq_refl eq_refl ltac:(lia)).
Defined.

(** X12.  The closing brace of an object is not required.  After
    the value of a member, any token that is not a comma ends the object
    and the object is returned as valid: a closing bracket, a string, a
    byte that starts no token, all do what the closing brace does.  Here
    for an object whose single member has a value of the JSON text
    grammar, followed by a byte that is neither NUL nor part of a
    number, and with the blocks [malloc] hands out for the members
    holding a null [Next]. *)
Theorem parseStringToJson_end_not_checked (atof : string -> float) (mz : bool)
  (malloc_Next : json_member_ptr)
  (w1 w2 k w3 w4 sv : list ascii) (v : json_value) (rest : list ascii)
  (size : nat) (Token : json_token) (j : nat) :
  malloc_Next = nullptr ->
  blank w1 -> blank w2 -> plainText JSON_TOKEN_STRING_SIZE k ->
  blank w3 -> blank w4 ->
  ValueText atof JSON_TOKEN_STRING_SIZE sv v ->
  supportedValue mz v = true ->
  delimited rest ->
  length (w1 ++ "{"%char :: w2 ++ DQUOTE :: k ++ DQUOTE :: w3 ++ ":"%char :: w4 ++ sv)
  <= size ->
  tokenizeString
    ((w1 ++ "{"%char :: w2 ++ DQUOTE :: k ++ DQUOTE :: w3 ++ ":"%char :: w4 ++ sv) ++ rest)
    (length (w1 ++ "{"%char :: w2 ++ DQUOTE :: k ++ DQUOTE :: w3 ++ ":"%char :: w4 ++ sv))
  = Ok (Token, j) ->
  TokenType Token <> JSON_TOKEN_COMMA ->
  parseStringToJson atof mz malloc_Next
    ((w1 ++ "{"%char :: w2 ++ DQUOTE :: k ++ DQUOTE :: w3 ++ ":"%char :: w4 ++ sv) ++ rest)
    size 0
  = Ok (mkObject (Member (string_of_list_ascii k) v nullptr) true, j).
Proof.
  intros -> Hw1 Hw2 Hk Hw3 Hw4 Hsv Hsup Hrest Hsize Hnext Hkind.
  set (text := w1 ++ "{"%char :: w2 ++ DQUOTE :: k ++ DQUOTE :: w3 ++ ":"%char :: w4 ++ sv)
    in *.
  assert (Hlen : length text
                 = length w1 + 1 + length w2 + length k + 2 + length w3 + 1
                   + length w4 + length sv).
  { unfold text.
    repeat (rewrite length_app || (progress cbn [length])). lia. }
  assert (Hbuf : skipn 0 (text ++ rest)
                 = w1 ++ "{"%char :: w2 ++ DQUOTE :: k ++ DQUOTE :: w3
                      ++ ":"%char :: w4 ++ sv ++ rest).
  { unfold text. cbn [skipn].
    repeat (rewrite <- app_assoc || (progress cbn [app])). reflexivity. }
  unfold parseStringToJson, parseFuel.
  replace (2 * length (text ++ rest) + 8)
    with (S (S (2 * length (text ++ rest) + 6))) by lia.
  rewrite parseLoop_S.
  replace (0 <? size) with true by (symmetry; apply Nat.ltb_lt; lia).
  rewrite (tokenizeString_cursor _ _ _ Hbuf), (tokenizeAt_object_start _ _ _ Hw1).
  cbn [bind TokenType simpleToken].
  pose proof (cursor_over_byte _ _ _ _ _ Hbuf) as Hkey.
  rewrite parseMembers_S.
  rewrite (tokenizeString_cursor _ _ _ Hkey), (tokenizeAt_plain_string _ _ _ _ Hw2 Hk).
  cbn [bind TokenType TokenString].
  pose proof (cursor_over_string _ _ _ _ _ Hkey) as Hcolon.
  rewrite (tokenizeString_cursor _ _ _ Hcolon), (tokenizeAt_colon _ _ _ Hw3).
  cbn [bind TokenType simpleToken].
  pose proof (cursor_over_byte _ _ _ _ _ Hcolon) as Hvalue.
  destruct (proj1 (json_text_parsed atof mz) sv v Hsv Hsup) as [Hstep _].
  rewrite (Hstep _ _ size json_object_init (string_of_list_ascii k) _ w4 rest
             Hw4 Hrest Hvalue) by (try rewrite length_app; lia).
  cbn [bind].
  replace (0 + length w1 + 1 + length w2 + length k + 2 + length w3 + 1
           + length w4 + length sv) with (length text) by lia.
  rewrite Hnext. cbn [bind].
  destruct (TokenType Token); try reflexivity. contradiction Hkind. reflexivity.
Qed.

Lemma parseStringToJson_end_not_checked_witness :
  parseStringToJson atofDigits false nullptr (dq "{'a':true]") 10 0
  = Ok (mkObject (Member "a" (JSON_TYPE_BOOLEAN 1) nullptr) true, 10).
Proof.
  apply (parseStringToJson_end_not_checked atofDigits false nullptr
           [] [] (dq "a") [] [] (lit "true") (JSON_TYPE_BOOLEAN 1) (dq "]") 10
           (simpleToken JSON_TOKEN_ARRAY_END) 10); try reflexivity.
  - split; [reflexivity|vm_compute; lia].
  - apply VT_true.
  - exists "]"%char, []. repeat split.
  - vm_compute. lia.
  - discriminate.
Defined.

(** X25.  After a comma the next token has to be a string:
    when it is not (a closing brace after a trailing comma, the end of
    the data, a number, ...), [parseStringToJson] returns at once with
    [IsValid] false, and the object returned still holds the members
    read before the comma.  Here for an object whose first member has a
    value of the JSON text grammar, and with the blocks [malloc] hands
    out for the members holding a null [Next]. *)
Theorem parseStringToJson_key_required (atof : string -> float) (mz : bool)
  (malloc_Next : json_member_ptr)
  (w1 w2 k w3 w4 sv : list ascii) (v : json_value) (w5 rest : list ascii)
  (size : nat) (Token : json_token) (j : nat) :
  malloc_Next = nullptr ->
  blank w1 -> blank w2 -> plainText JSON_TOKEN_STRING_SIZE k ->
  blank w3 -> blank w4 ->
  ValueText atof JSON_TOKEN_STRING_SIZE sv v ->
  supportedValue mz v = true ->
  blank w5 ->
  length (w1 ++ "{"%char :: w2 ++ DQUOTE :: k ++ DQUOTE :: w3 ++ ":"%char :: w4 ++ sv)
  <= size ->
  tokenizeString
    ((w1 ++ "{"%char :: w2 ++ DQUOTE :: k ++ DQUOTE :: w3 ++ ":"%char :: w4 ++ sv)
       ++ w5 ++ ","%char :: rest)
    (length (w1 ++ "{"%char :: w2 ++ DQUOTE :: k ++ DQUOTE :: w3 ++ ":"%char :: w4 ++ sv)
     + length w5 + 1)
  = Ok (Token, j) ->
  TokenType Token <> JSON_TOKEN_STRING ->
  parseStringToJson atof mz malloc_Next
    ((w1 ++ "{"%char :: w2 ++ DQUOTE :: k ++ DQUOTE :: w3 ++ ":"%char :: w4 ++ sv)
       ++ w5 ++ ","%char :: rest)
    size 0
  = Ok (mkObject (Member (string_of_list_ascii k) v nullptr) false, j).
Proof.
  intros -> Hw1 Hw2 Hk Hw3 Hw4 Hsv Hsup Hw5 Hsize Hnext Hkind.
  set (text := w1 ++ "{"%char :: w2 ++ DQUOTE :: k ++ DQUOTE :: w3 ++ ":"%char :: w4 ++ sv)
    in *.
  assert (Hlen : length text
                 = length w1 + 1 + length w2 + length k + 2 + length w3 + 1
                   + length w4 + length sv).
  { unfold text.
    repeat (rewrite length_app || (progress cbn [length])). lia. }
  assert (Hbuf : skipn 0 (text ++ w5 ++ ","%char :: rest)
                 = w1 ++ "{"%char :: w2 ++ DQUOTE :: k ++ DQUOTE :: w3
                      ++ ":"%char :: w4 ++ sv ++ w5 ++ ","%char :: rest).
  { unfold text. cbn [skipn].
    repeat (rewrite <- app_assoc || (progress cbn [app])). reflexivity. }
  unfold parseStringToJson, parseFuel.
  replace (2 * length (text ++ w5 ++ ","%char :: rest) + 8)
    with (S (S (S (2 * length (text ++ w5 ++ ","%char :: rest) + 5)))) by lia.
  rewrite parseLoop_S.
  replace (0 <? size) with true by (symmetry; apply Nat.ltb_lt; lia).
  rewrite (tokenizeString_cursor _ _ _ Hbuf), (tokenizeAt_object_start _ _ _ Hw1).
  cbn [bind TokenType simpleToken].
  pose proof (cursor_over_byte _ _ _ _ _ Hbuf) as Hkey.
  rewrite parseMembers_S.
  rewrite (tokenizeString_cursor _ _ _ Hkey), (tokenizeAt_plain_string _ _ _ _ Hw2 Hk).
  cbn [bind TokenType TokenString].
  pose proof (cursor_over_string _ _ _ _ _ Hkey) as Hcolon.
  rewrite (tokenizeString_cursor _ _ _ Hcolon), (tokenizeAt_colon _ _ _ Hw3).
  cbn [bind TokenType simpleToken].
  pose proof (cursor_over_byte _ _ _ _ _ Hcolon) as Hvalue.
  destruct (proj1 (json_text_parsed atof mz) sv v Hsv Hsup) as [Hstep _].
  rewrite (Hstep _ _ size json_object_init (string_of_list_ascii k) _ w4
             (w5 ++ ","%char :: rest) Hw4
             (delimited_blank_then w5 ","%char rest Hw5 eq_refl eq_refl) Hvalue)
    by (repeat rewrite length_app; cbn [length]; lia).
  cbn [bind].
  pose proof (cursor_over_two _ _ _ _ _ Hvalue) as Hcomma.
  rewrite (tokenizeString_cursor _ _ _ Hcomma), (tokenizeAt_comma _ _ _ Hw5).
  cbn [bind TokenType simpleToken].
  rewrite parseMembers_S.
  replace (0 + length w1 + 1 + length w2 + length k + 2 + length w3 + 1
           + length w4 + length sv + length w5 + 1)
    with (length text + length w5 + 1) by lia.
  rewrite Hnext. cbn [bind].
  destruct (TokenType Token); try reflexivity. contradiction Hkind. reflexivity.
Qed.

Lemma parseStringToJson_key_required_witness :
  parseStringToJson atofDigits false nullptr (dq "{'a':null , }") 13 0
  = Ok (mkObject (Member "a" JSON_TYPE_NULL nullptr) false, 13).
Proof.
  apply (parseStringToJson_key_required atofDigits false nullptr
           [] [] (dq "a") [] [] (lit "null") JSON_TYPE_NULL (dq " ") (dq " }") 13
           (simpleToken JSON_TOKEN_OBJECT_END) 13); try reflexivity.
  - split; [reflexivity|vm_compute; lia].
  - apply VT_null.
  - vm_compute. lia.
  - discriminate.
Defined.

(** ** Insertion and lookup *)

Lemma getJsonValueMember_appendMember (m new : json_member_ptr) (Key : string) :
  membersValid m ->
  getJsonValueMember (appendMember m new) Key
  = match getJsonValueMember m Key with
    | JSON_TYPE_INVALID => getJsonValueMember new Key
    | Result => Result
    end.
Proof.
  induction m as [|k Child next IHc IHn|k v next Hv IHn] using member_list_ind;
    intros Hvalid.
  - reflexivity.
  - cbn [appendMember getJsonValueMember].
    destruct (String.eqb k Key); [reflexivity|].
    rewrite (IHn (membersValid_next _ _ _ Hvalid)).
    destruct (getJsonValueMember Child Key); reflexivity.
  - cbn [appendMember getJsonValueMember].
    destruct (String.eqb k Key) eqn:Ek.
    + assert (Hnot : isInvalid v = false).
      { apply (Hvalid k v). simpl. left. reflexivity. }
      destruct v; try reflexivity. discriminate Hnot.
    + pose proof (IHn (membersValid_next _ _ _ Hvalid)) as IH.
      destruct v; try exact IH. exfalso. eapply Hv. reflexivity.
Qed.

Lemma getJsonValue_appendNew (JsonObject : json_object) (k : string) (v : json_value)
  (Key : string) :
  membersValid (First JsonObject) ->
  getJsonValue (appendNew nullptr JsonObject k v) Key
  = match getJsonValue JsonObject Key with
    | JSON_TYPE_INVALID => getJsonValueMember (Member k v nullptr) Key
    | Result => Result
    end.
Proof.
  intros Hvalid.
  assert (Hget : forall o, getJsonValue o Key = getJsonValueMember (First o) Key).
  { intros o. unfold getJsonValue. destruct (First o); reflexivity. }
  rewrite !Hget. cbn [appendNew First].
  apply getJsonValueMember_appendMember. exact Hvalid.
Qed.

(** X14.  Insert and lookup, for the overloads with a string, a
    number, a boolean, null and an array, on an object whose members hold
    no value of the invalid kind and when the block [malloc] hands out
    for the new member holds a null [Next].  After a member has been
    added under the key [k]: a lookup that found a value before finds the
    same value (so a second member with a key already there is never the
    one lookup returns); a lookup of [k] that found nothing before
    returns the value just added; and a lookup of any other key that
    found nothing before still finds nothing. *)
Theorem getJsonValue_after_addJsonMember (malloc_Next : json_member_ptr)
  (JsonObject : json_object) (k : string)
  (v : json_value) (JsonObject' : json_object) :
  malloc_Next = nullptr ->
  membersValid (First JsonObject) ->
  (exists s, v = JSON_TYPE_STRING s
             /\ JsonObject' = addJsonMemberString malloc_Next JsonObject (Some k) s)
  \/ (exists n, v = JSON_TYPE_NUMBER n
                /\ JsonObject' = addJsonMemberNumber malloc_Next JsonObject (Some k) n)
  \/ (exists b, v = JSON_TYPE_BOOLEAN b
                /\ JsonObject' = addJsonMemberBoolean malloc_Next JsonObject (Some k) b)
  \/ (v = JSON_TYPE_NULL
      /\ JsonObject' = addJsonMemberNull malloc_Next JsonObject (Some k))
  \/ (exists values ArraySize,
        v = JSON_TYPE_ARRAY (firstn ArraySize values)
        /\ addJsonMemberArray malloc_Next JsonObject (Some k) (Some values) ArraySize
           = Ok JsonObject') ->
  (forall Key, getJsonValue JsonObject Key <> JSON_TYPE_INVALID ->
               getJsonValue JsonObject' Key = getJsonValue JsonObject Key)
  /\ (getJsonValue JsonObject k = JSON_TYPE_INVALID -> getJsonValue JsonObject' k = v)
  /\ (forall Key, getJsonValue JsonObject Key = JSON_TYPE_INVALID -> Key <> k ->
        getJsonValue JsonObject' Key = JSON_TYPE_INVALID).
Proof.
  intros -> Hvalid Hadd.
  assert (Hnew : JsonObject' = appendNew nullptr JsonObject k v
                 /\ isInvalid v = false
                 /\ forall Child, v <> JSON_TYPE_MEMBER Child).
  { destruct Hadd as [(s & -> & ->)|[(n & -> & ->)|[(b & -> & ->)|[[-> ->]|
                     (values & ArraySize & -> & Harray)]]]];
      try (split; [reflexivity|split; [reflexivity|discriminate]]).
    unfold addJsonMemberArray in Harray.
    destruct (ArraySize <=? length values); [|discriminate Harray].
    injection Harray as <-. split; [reflexivity|split; [reflexivity|discriminate]]. }
  destruct Hnew as (-> & Hv & Hscalar). split; [|split].
  - intros Key Hfound. rewrite getJsonValue_appendNew by exact Hvalid.
    destruct (getJsonValue JsonObject Key); try reflexivity. contradiction.
  - intros Hnone. rewrite getJsonValue_appendNew by exact Hvalid.
    rewrite Hnone. cbn [getJsonValueMember]. rewrite String.eqb_refl. reflexivity.
  - intros Key Hnone Hkey. rewrite getJsonValue_appendNew by exact Hvalid.
    rewrite Hnone. cbn [getJsonValueMember].
    replace (String.eqb k Key) with false
      by (symmetry; apply String.eqb_neq; intros E; apply Hkey; symmetry; exact E).
    destruct v; try reflexivity. exfalso. exact (Hscalar _ eq_refl).
Qed.

Lemma getJsonValue_after_addJsonMember_witness :
  getJsonValue
    (addJsonMemberNumber nullptr (mkObject (Member "a" JSON_TYPE_NULL nullptr) true)
       (Some "a") 2) "a"
  = JSON_TYPE_NULL.
Proof.
  assert (Hvalid : membersValid (Member "a" JSON_TYPE_NULL nullptr)).
  { intros k v [E|[]]. injection E as <- <-. reflexivity. }
  refine (proj1 (getJsonValue_after_addJsonMember nullptr
                   (mkObject (Member "a" JSON_TYPE_NULL nullptr) true) "a"
                   (JSON_TYPE_NUMBER 2) _ eq_refl Hvalid _) "a" _).
  - right. left. exists 2%float. split; reflexivity.
  - discriminate.
Defined.

(** X15.  When [getJsonValueArrayMember] succeeds on an array: exactly
    when the index lies between 0 and [getJsonValueArraySize] and the
    element there is a nested object with at least one member, which is
    then what is returned.  No index is checked against the size: every
    other index reads outside the array, and every other element is
    dereferenced through a [Child] it does not hold or that is null. *)
Theorem getJsonValueArrayMember_succeeds (Head : list json_value) (Index : Z)
  (m : json_member_ptr) :
  getJsonValueArrayMember (JSON_TYPE_ARRAY Head) Index = Ok m
  <-> (0 <= Index < getJsonValueArraySize (JSON_TYPE_ARRAY Head))%Z
      /\ nth_error Head (Z.to_nat Index) = Some (JSON_TYPE_MEMBER m)
      /\ m <> nullptr.
Proof.
  unfold getJsonValueArrayMember, getJsonValueArraySize. split.
  - destruct (Z.ltb_spec Index 0) as [Hneg|Hpos]; [discriminate|].
    destruct (nth_error Head (Z.to_nat Index)) as [e|] eqn:Enth; [|discriminate].
    assert (Hrange : Z.to_nat Index < length Head).
    { apply nth_error_Some. rewrite Enth. discriminate. }
    destruct e as [|[|k v next]| | | | |]; try discriminate.
    intros H. injection H as <-.
    split; [lia|]. split; [reflexivity|discriminate].
  - intros ([Hpos Hrange] & Hnth & Hm).
    destruct (Z.ltb_spec Index 0) as [Hneg|_]; [lia|].
    rewrite Hnth. destruct m; [contradiction|reflexivity].
Qed.

(** ** Delete on a laid-out object *)

Section Delete.
Import Heap HeapSpec DeleteSpec.

Lemma loadChars_some (st : state) (a : nat) (s : string) :
  blocks st !! a = Some (BChars s) -> loadChars st (Some a) = Ok s.
Proof. intros H. unfold loadChars. rewrite H. reflexivity. Qed.

Lemma destroySize_child a ka k (Child next : lmember) :
  destroySize Child < destroySize (L_Node a ka k (L_MEMBER Child) next).
Proof. simpl. lia. Qed.

(** The search of delete over members none of which has the key: nothing
    is written, nothing is freed, and the result is false.  The statement
    is about the list [m] handed to the function, and about the nested
    object of its first member, which the function is handed later. *)
Lemma deleteJsonMemberList_absent (DeleteKey : string) (h : gmap nat block)
  (log : list nat) (m : lmember) :
  childrenNonNull m = true ->
  (forall a b, In (a, b) (blocksOfMember m) -> h !! a = Some b) ->
  (forall a ka k v next, m = L_Node a ka k v next ->
     ~ In DeleteKey (searchedKeys next) ->
     forall fuel, destroySize m <= fuel ->
       deleteJsonMemberList fuel (mkState h log) (Some a) DeleteKey
       = Ok (mkState h log, false))
  /\ (forall a ka k c kc k' v' cnext next,
        m = L_Node a ka k (L_MEMBER (L_Node c kc k' v' cnext)) next ->
        ~ In DeleteKey (searchedKeys cnext) ->
        forall fuel, destroySize (L_Node c kc k' v' cnext) <= fuel ->
          deleteJsonMemberList fuel (mkState h log) (Some c) DeleteKey
          = Ok (mkState h log, false)).
Proof.
  induction m as [|a ka k Child next IHc IHn|a ka k v next Hv IHn]
    using lmember_reach_ind; intros Hnn Hh.
  - split; intros; discriminate.
  - (* the first member holds a nested object *)
    simpl in Hnn. apply andb_prop in Hnn as [HnnC HnnN].
    assert (HnnC' : childrenNonNull Child = true).
    { destruct Child; [discriminate|exact HnnC]. }
    assert (HhC : forall x b, In (x, b) (blocksOfMember Child) -> h !! x = Some b).
    { intros x b Hin. apply Hh. simpl. right. right. apply in_or_app. left. exact Hin. }
    assert (HhN : forall x b, In (x, b) (blocksOfMember next) -> h !! x = Some b).
    { intros x b Hin. apply Hh. simpl. right. right. apply in_or_app. right. exact Hin. }
    destruct (IHc HnnC' HhC) as [IHc1 _].
    destruct (IHn HnnN HhN) as [IHn1 IHn2].
    split.
    + intros a0 ka0 k0 v0 next0 E Habsent fuel Hfuel.
      injection E as <- <- <- <- <-.
      destruct fuel as [|fuel]; [simpl in Hfuel; lia|].
      cbn [deleteJsonMemberList].
      rewrite (loadMember_some (mkState h log) a _ (Hh _ _ (or_introl eq_refl))).
      cbn [bind Next].
      destruct next as [|a' ka' k2 v2 next2]; [reflexivity|].
      cbn [ptrOf].
      rewrite (loadMember_some (mkState h log) a' _ (HhN _ _ (or_introl eq_refl))).
      cbn [bind Key].
      rewrite (loadChars_some (mkState h log) ka' k2
                 (HhN _ _ (or_intror (or_introl eq_refl)))).
      cbn [bind]. cbn [searchedKeys] in Habsent.
      replace (String.eqb k2 DeleteKey) with false
        by (symmetry; apply String.eqb_neq; intros ->; apply Habsent; left; reflexivity).
      cbn [Value].
      assert (Hnested :
                match valueOf v2 with
                | V_MEMBER Child2 =>
                    deleteJsonMemberList fuel (mkState h log) Child2 DeleteKey
                | _ => Ok (mkState h log, false)
                end = Ok (mkState h log, false)).
      { destruct v2 as [|Child2| | | | |]; try reflexivity.
        cbn [valueOf].
        destruct Child2 as [|c kc k3 v3 cnext].
        { simpl in HnnN. discriminate HnnN. }
        cbn [ptrOf].
        apply (IHn2 _ _ _ _ _ _ _ _ _ eq_refl).
        - intros Hin. apply Habsent. right. apply in_or_app. left. exact Hin.
        - simpl in Hfuel |- *. lia. }
      rewrite Hnested. cbn [bind].
      rewrite (loadMember_some (mkState h log) a _ (Hh _ _ (or_introl eq_refl))).
      cbn [bind Next ptrOf].
      apply (IHn1 _ _ _ _ _ eq_refl).
      * intros Hin. apply Habsent. right. apply in_or_app. right. exact Hin.
      * simpl in Hfuel |- *. lia.
    + intros a0 ka0 k0 c kc k' v' cnext next0 E Habsent fuel Hfuel.
      injection E as <- <- <- -> <-.
      apply (IHc1 _ _ _ _ _ eq_refl Habsent). exact Hfuel.
  - (* the first member holds no nested object *)
    simpl in Hnn.
    assert (HnnN : childrenNonNull next = true).
    { destruct v as [|[|]| | | | |]; try discriminate Hnn;
        apply andb_prop in Hnn as [_ Hnn]; exact Hnn. }
    assert (HhN : forall x b, In (x, b) (blocksOfMember next) -> h !! x = Some b).
    { intros x b Hin. apply Hh. simpl. right. right. apply in_or_app. right. exact Hin. }
    destruct (IHn HnnN HhN) as [IHn1 IHn2].
    split.
    + intros a0 ka0 k0 v0 next0 E Habsent fuel Hfuel.
      injection E as <- <- <- <- <-.
      destruct fuel as [|fuel]; [simpl in Hfuel; lia|].
      cbn [deleteJsonMemberList].
      rewrite (loadMember_some (mkState h log) a _ (Hh _ _ (or_introl eq_refl))).
      cbn [bind Next].
      destruct next as [|a' ka' k2 v2 next2]; [reflexivity|].
      cbn [ptrOf].
      rewrite (loadMember_some (mkState h log) a' _ (HhN _ _ (or_introl eq_refl))).
      cbn [bind Key].
      rewrite (loadChars_some (mkState h log) ka' k2
                 (HhN _ _ (or_intror (or_introl eq_refl)))).
      cbn [bind]. cbn [searchedKeys] in Habsent.
      replace (String.eqb k2 DeleteKey) with false
        by (symmetry; apply String.eqb_neq; intros ->; apply Habsent; left; reflexivity).
      cbn [Value].
      assert (Hnested :
                match valueOf v2 with
                | V_MEMBER Child2 =>
                    deleteJsonMemberList fuel (mkState h log) Child2 DeleteKey
                | _ => Ok (mkState h log, false)
                end = Ok (mkState h log, false)).
      { destruct v2 as [|Child2| | | | |]; try reflexivity.
        cbn [valueOf].
        destruct Child2 as [|c kc k3 v3 cnext].
        { simpl in HnnN. discriminate HnnN. }
        cbn [ptrOf].
        apply (IHn2 _ _ _ _ _ _ _ _ _ eq_refl).
        - intros Hin. apply Habsent. right. apply in_or_app. left. exact Hin.
        - assert (Hsize : destroySize (L_Node a ka k v
                                         (L_Node a' ka' k2
                                            (L_MEMBER (L_Node c kc k3 v3 cnext)) next2))
                          <= S fuel) by exact Hfuel.
          simpl in Hsize |- *. lia. }
      rewrite Hnested. cbn [bind].
      rewrite (loadMember_some (mkState h log) a _ (Hh _ _ (or_introl eq_refl))).
      cbn [bind Next ptrOf].
      apply (IHn1 _ _ _ _ _ eq_refl).
      * intros Hin. apply Habsent. right. apply in_or_app. right. exact Hin.
      * simpl in Hfuel |- *. lia.
    + intros a0 ka0 k0 c kc k' v' cnext next0 E. injection E as _ _ _ E _.
      exfalso. eapply Hv. exact E.
Qed.


(** X16.  [deleteJsonMember] on an object returns false, frees
    nothing and leaves every block as it was when none of the keys it
    compares is the key to delete.  These are the key of the first member
    and the keys met from its second member on, where the search enters
    the nested object of a member only after that object's first member:
    neither the nested object of the first member of the object nor the
    first member of any nested object is ever compared, so a key that
    lookup finds there is not deleted. *)
Theorem deleteJsonMember_key_not_searched (m : lmember) (h : gmap nat block)
  (log : list nat) (valid : bool) (fuel : nat) (DeleteKey : string) :
  m <> L_nullptr ->
  childrenNonNull m = true ->
  holds h m ->
  destroySize m <= fuel ->
  ~ In DeleteKey (objectKeys m) ->
  deleteJsonMember fuel (mkState h log) (mkObject (ptrOf m) valid) DeleteKey
  = Ok (mkState h log, mkObject (ptrOf m) valid, false).
Proof.
  intros Hm Hnn [_ Hh] Hfuel Habsent.
  destruct m as [|a ka k v next]; [contradiction|].
  unfold deleteJsonMember. cbn [First ptrOf].
  rewrite (loadMember_some (mkState h log) a _ (Hh _ _ (or_introl eq_refl))).
  cbn [bind Key].
  rewrite (loadChars_some (mkState h log) ka k (Hh _ _ (or_intror (or_introl eq_refl)))).
  cbn [bind]. cbn [objectKeys] in Habsent.
  replace (String.eqb k DeleteKey) with false
    by (symmetry; apply String.eqb_neq; intros ->; apply Habsent; left; reflexivity).
  destruct (deleteJsonMemberList_absent DeleteKey h log _ Hnn Hh) as [Hlist _].
  rewrite (Hlist _ _ _ _ _ eq_refl) by
    (solve [intros Hin; apply Habsent; right; exact Hin | exact Hfuel]).
  reflexivity.
Qed.

Lemma deleteJsonMember_key_not_searched_witness :
  let t := L_Node 1 2 "a" (L_MEMBER (L_Node 3 4 "c" (L_NUMBER 1) L_nullptr))
             (L_Node 5 6 "b" (L_MEMBER (L_Node 7 8 "d" L_NULL L_nullptr)) L_nullptr) in
  getJsonValueMember (eraseMember t) "d" = JSON_TYPE_NULL
  /\ deleteJsonMember 4 (mkState (heapOf t) []) (mkObject (Some 1) true) "d"
     = Ok (mkState (heapOf t) [], mkObject (Some 1) true, false).
Proof.
  intros t. split; [reflexivity|].
  assert (Hh : holds (heapOf t) t).
  { split.
    - simpl. repeat (apply List.NoDup_cons; [simpl; intuition discriminate|]).
      apply List.NoDup_nil.
    - intros a b Hin. simpl in Hin.
      repeat (destruct Hin as [Hin|Hin];
              [injection Hin as <- <-; vm_compute; reflexivity|]).
      contradiction. }
  apply (deleteJsonMember_key_not_searched t (heapOf t) [] true 4 "d").
  - discriminate.
  - reflexivity.
  - exact Hh.
  - vm_compute. lia.
  - simpl. intuition discriminate.
Defined.

(** Delete of the key of the first member: the run and the state it ends
    in. *)
Lemma deleteJsonMember_first_run (a ka : nat) (k : string) (v : lvalue)
  (next : lmember) (h : gmap nat block) (valid : bool) (fuel : nat) :
  childrenNonNull (L_Node a ka k v next) = true ->
  holds h (L_Node a ka k v next) ->
  2 * destroySize (L_Node a ka k v next) + 2 <= fuel ->
  deleteJsonMember fuel (mkState h []) (mkObject (Some a) valid) k
  = Ok (mkState (freeAll (destroyOrder (L_Node a ka k v next)) h)
          (destroyOrder (L_Node a ka k v next)),
        mkObject (ptrOf next) valid, true).
Proof.
  intros Hnn [Hnd Hh] Hfuel.
  unfold deleteJsonMember. cbn [First].
  rewrite (loadMember_some (mkState h []) a _ (Hh _ _ (or_introl eq_refl))).
  cbn [bind Key].
  rewrite (loadChars_some (mkState h []) ka k (Hh _ _ (or_intror (or_introl eq_refl)))).
  cbn [bind]. rewrite String.eqb_refl.
  destruct fuel as [|fuel]; [lia|].
  cbn [destroyJsonMember].
  rewrite (loadMember_some (mkState h []) a _ (Hh _ _ (or_introl eq_refl))).
  cbn [bind Next].
  change (Some a) with (ptrOf (L_Node a ka k v next)).
  change (ptrOf next) with (nextPtr (L_Node a ka k v next)) at 1.
  rewrite (destroyLoop_layout _ Hnn fuel h [] Hnd Hh) by lia.
  reflexivity.
Qed.

(** X17.  When the key to delete is the key of the first member of
    an object, [deleteJsonMember] returns true with [First] set to the
    second member, and frees the whole member list: [destroyJsonMember]
    is handed the first member with its [Next] still in place and walks on
    through every sibling.  Every member of the object is freed, with its
    key and its nested objects, and [First] is left pointing to a freed
    block whenever the object had a second member. *)
Theorem deleteJsonMember_first_frees_all (a ka : nat) (k : string) (v : lvalue)
  (next : lmember) (h : gmap nat block) (valid : bool) (fuel : nat) :
  childrenNonNull (L_Node a ka k v next) = true ->
  holds h (L_Node a ka k v next) ->
  2 * destroySize (L_Node a ka k v next) + 2 <= fuel ->
  exists st,
    deleteJsonMember fuel (mkState h []) (mkObject (Some a) valid) k
    = Ok (st, mkObject (ptrOf next) valid, true)
    /\ freed st = destroyOrder (L_Node a ka k v next)
    /\ (forall x, In x (reachableNodes (L_Node a ka k v next)) -> blocks st !! x = None)
    /\ (forall x, First (mkObject (ptrOf next) valid) = Some x -> blocks st !! x = None).
Proof.
  intros Hnn Hh Hfuel.
  exists (mkState (freeAll (destroyOrder (L_Node a ka k v next)) h)
            (destroyOrder (L_Node a ka k v next))).
  assert (Hfreed : forall x, In x (reachableNodes (L_Node a ka k v next)) ->
                     freeAll (destroyOrder (L_Node a ka k v next)) h !! x = None).
  { intros x Hx. apply freeAll_lookup_in. apply destroyOrder_reachable. left. exact Hx. }
  split; [|split; [reflexivity|split; [exact Hfreed|]]].
  - apply deleteJsonMember_first_run; assumption.
  - intros x Hx. cbn [First blocks] in *. apply Hfreed.
    destruct next as [|a' ka' k' v' next']; [discriminate|].
    injection Hx as <-. simpl. right. apply in_or_app. right. left. reflexivity.
Qed.

Lemma deleteJsonMember_first_frees_all_witness :
  let t := L_Node 1 2 "a" (L_NUMBER 1)
             (L_Node 3 4 "b" L_NULL (L_Node 5 6 "c" L_NULL L_nullptr)) in
  exists st,
    deleteJsonMember 8 (mkState (heapOf t) []) (mkObject (Some 1) true) "a"
    = Ok (st, mkObject (Some 3) true, true)
    /\ freed st = [2; 1; 4; 3; 6; 5].
Proof.
  intros t.
  assert (Hh : holds (heapOf t) t).
  { split.
    - simpl. repeat (apply List.NoDup_cons; [simpl; intuition discriminate|]).
      apply List.NoDup_nil.
    - intros a b Hin. simpl in Hin.
      repeat (destruct Hin as [Hin|Hin];
              [injection Hin as <- <-; vm_compute; reflexivity|]).
      contradiction. }
  destruct (deleteJsonMember_first_frees_all 1 2 "a" (L_NUMBER 1)
              (L_Node 3 4 "b" L_NULL (L_Node 5 6 "c" L_NULL L_nullptr))
              (heapOf t) true 8 eq_refl Hh ltac:(vm_compute; lia))
    as (st & Hrun & Hfreed & _).
  exists st. split; [exact Hrun|exact Hfreed].
Defined.


(** X18.  Delete, then destroy.  After [deleteJsonMember] has
    removed the first member of an object that has a second member, the
    object cannot be destroyed: [First] points to the second member,
    which delete has freed with all the others, and
    [destroyJsonObject] starts by reading it. *)
Theorem destroyJsonObject_after_delete (a ka : nat) (k : string) (v : lvalue)
  (a2 ka2 : nat) (k2 : string) (v2 : lvalue) (next2 : lmember)
  (h : gmap nat block) (valid : bool) (fuel fuel' : nat) :
  childrenNonNull (L_Node a ka k v (L_Node a2 ka2 k2 v2 next2)) = true ->
  holds h (L_Node a ka k v (L_Node a2 ka2 k2 v2 next2)) ->
  2 * destroySize (L_Node a ka k v (L_Node a2 ka2 k2 v2 next2)) + 2 <= fuel ->
  (let* (deleted, _) :=
     deleteJsonMember fuel (mkState h []) (mkObject (Some a) valid) k in
   destroyJsonObject (S fuel') (fst deleted) (Some (snd deleted)))
  = Fault (InvalidFree a2).
Proof.
  intros Hnn Hh Hfuel.
  rewrite (deleteJsonMember_first_run _ _ _ _ _ _ _ _ Hnn Hh Hfuel).
  cbn [bind fst snd ptrOf]. unfold destroyJsonObject.
  cbn [First destroyJsonMember]. unfold loadMember. cbn [blocks].
  rewrite freeAll_lookup_in; [reflexivity|].
  apply destroyOrder_reachable. left. simpl. right. apply in_or_app. right.
  left. reflexivity.
Qed.

Lemma destroyJsonObject_after_delete_witness :
  let t := L_Node 1 2 "a" (L_NUMBER 1) (L_Node 3 4 "b" L_NULL L_nullptr) in
  (let* (deleted, _) :=
     deleteJsonMember 6 (mkState (heapOf t) []) (mkObject (Some 1) true) "a" in
   destroyJsonObject 1 (fst deleted) (Some (snd deleted)))
  = Fault (InvalidFree 3).
Proof.
  intros t.
  assert (Hh : holds (heapOf t) t).
  { split.
    - simpl. repeat (apply List.NoDup_cons; [simpl; intuition discriminate|]).
      apply List.NoDup_nil.
    - intros a b Hin. simpl in Hin.
      repeat (destruct Hin as [Hin|Hin];
              [injection Hin as <- <-; vm_compute; reflexivity|]).
      contradiction. }
  exact (destroyJsonObject_after_delete 1 2 "a" (L_NUMBER 1) 3 4 "b" L_NULL L_nullptr
           (heapOf t) true 6 0 eq_refl Hh ltac:(vm_compute; lia)).
Defined.

(** Induction on a layout along [Next] only. *)
Lemma lmember_next_ind (P : lmember -> Prop) :
  P L_nullptr ->
  (forall a ka k v next, P next -> P (L_Node a ka k v next)) ->
  forall m, P m.
Proof.
  intros Hnull Hnext. fix IH 1. intros [|a ka k v next].
  - exact Hnull.
  - apply Hnext. apply IH.
Qed.

Lemma chain_blocks (front tail : lmember) (x : nat) (b : block) :
  In (x, b) (blocksOfMember tail) -> In (x, b) (blocksOfMember (chain front tail)).
Proof.
  induction front as [|a ka k v next IH] using lmember_next_ind; [intros H; exact H|].
  intros H. cbn [chain blocksOfMember]. right. right. apply in_or_app. right.
  exact (IH H).
Qed.

(** The search of delete through the members [mid], none of which has the
    key, up to the member [pa] whose [Next] has it. *)
Lemma deleteJsonMemberList_found (DeleteKey : string) (a ka : nat) (v : lvalue)
  (post : lmember) (pa pka : nat) (pk : string) (pv : lvalue)
  (h : gmap nat block) (log : list nat) (mid : lmember) :
  let target := L_Node a ka DeleteKey v post in
  let whole := chain mid (L_Node pa pka pk pv target) in
  childrenNonNull whole = true ->
  (forall x b, In (x, b) (blocksOfMember whole) -> h !! x = Some b) ->
  pa <> a ->
  ~ In pa (addresses target) ->
  List.NoDup (addresses target) ->
  ~ In DeleteKey (searchedKeys (rest (chain mid (L_Node pa pka pk pv L_nullptr)))) ->
  forall fuel, 2 * destroySize whole + 2 <= fuel ->
    deleteJsonMemberList fuel (mkState h log) (ptrOf whole) DeleteKey
    = Ok (mkState
            (freeAll (destroyOrder target)
               (<[pa := BMember (mkMember (Some pka) (valueOf pv) (ptrOf post))]> h))
            (log ++ destroyOrder target), true).
Proof.
  intros target whole.
  assert (Hheads : forall front,
             exists a1 ka1 k1 v1 n1 n1',
               chain front (L_Node pa pka pk pv target) = L_Node a1 ka1 k1 v1 n1
               /\ chain front (L_Node pa pka pk pv L_nullptr) = L_Node a1 ka1 k1 v1 n1').
  { intros [|a1 ka1 k1 v1 n1]; cbn [chain]; repeat eexists. }
  subst whole. induction mid as [|ta tka tk tv mid IH] using lmember_next_ind;
    intros Hnn Hh Hpa Hfresh Hnd Habsent fuel Hfuel.
  - (* the member [pa] is the one the function is handed *)
    cbn [chain ptrOf] in *.
    assert (Hnnt : childrenNonNull target = true).
    { simpl in Hnn. apply andb_prop in Hnn as [_ Hnn]. exact Hnn. }
    assert (Hht : forall x b, In (x, b) (blocksOfMember target) -> h !! x = Some b).
    { intros x b Hin. apply Hh. simpl. right. right. apply in_or_app. right. exact Hin. }
    destruct fuel as [|fuel]; [lia|].
    cbn [deleteJsonMemberList].
    rewrite (loadMember_some (mkState h log) pa _ (Hh _ _ (or_introl eq_refl))).
    cbn [bind Next ptrOf target].
    rewrite (loadMember_some (mkState h log) a _ (Hht _ _ (or_introl eq_refl))).
    cbn [bind Key].
    rewrite (loadChars_some (mkState h log) ka DeleteKey
               (Hht _ _ (or_intror (or_introl eq_refl)))).
    cbn [bind]. rewrite String.eqb_refl.
    unfold storeNext.
    rewrite (loadMember_some (mkState h log) pa _ (Hh _ _ (or_introl eq_refl))).
    cbn [bind Key Value Next blocks freed].
    set (h1 := <[pa := BMember (mkMember (Some pka) (valueOf pv) (ptrOf post))]> h).
    assert (Hh1 : forall x b, In (x, b) (blocksOfMember target) -> h1 !! x = Some b).
    { intros x b Hin. unfold h1. rewrite lookup_insert_ne.
      - apply Hht. exact Hin.
      - intros ->. apply Hfresh. unfold addresses. apply in_map_iff.
        exists (x, b). split; [reflexivity|exact Hin]. }
    destruct fuel as [|fuel]; [simpl in Hfuel; lia|].
    cbn [destroyJsonMember].
    rewrite (loadMember_some (mkState h1 log) a _ (Hh1 _ _ (or_introl eq_refl))).
    cbn [bind Next].
    change (Some a) with (ptrOf target).
    change (ptrOf post) with (nextPtr target) at 1.
    rewrite (destroyLoop_layout _ Hnnt fuel h1 log Hnd Hh1)
      by (simpl in Hfuel |- *; lia).
    reflexivity.
  - (* the function is handed [ta], a member before [pa] *)
    cbn [chain ptrOf] in *.
    destruct (Hheads mid) as (a1 & ka1 & k1 & v1 & n1 & n1' & Enext & Ecut).
    rewrite Ecut in Habsent. cbn [rest searchedKeys] in Habsent.
    assert (HnnN : childrenNonNull (chain mid (L_Node pa pka pk pv target)) = true).
    { simpl in Hnn. apply andb_prop in Hnn as [_ Hnn]. exact Hnn. }
    assert (HhN : forall x b,
               In (x, b) (blocksOfMember (chain mid (L_Node pa pka pk pv target))) ->
               h !! x = Some b).
    { intros x b Hin. apply Hh. simpl. right. right. apply in_or_app. right. exact Hin. }
    destruct fuel as [|fuel]; [lia|].
    cbn [deleteJsonMemberList].
    rewrite (loadMember_some (mkState h log) ta _ (Hh _ _ (or_introl eq_refl))).
    cbn [bind Next].
    assert (Hsize : S (destroySize (chain mid (L_Node pa pka pk pv target)))
                    <= destroySize (L_Node ta tka tk tv
                                      (chain mid (L_Node pa pka pk pv target)))).
    { simpl. lia. }
    specialize (IH HnnN HhN Hpa Hfresh Hnd).
    revert IH HnnN HhN Hsize Hfuel. rewrite Enext. intros IH HnnN HhN Hsize Hfuel.
    cbn [ptrOf].
    rewrite (loadMember_some (mkState h log) a1 _ (HhN _ _ (or_introl eq_refl))).
    cbn [bind Key].
    rewrite (loadChars_some (mkState h log) ka1 k1
               (HhN _ _ (or_intror (or_introl eq_refl)))).
    cbn [bind].
    replace (String.eqb k1 DeleteKey) with false
      by (symmetry; apply String.eqb_neq; intros ->; apply Habsent; left; reflexivity).
    cbn [Value].
    assert (Hnested :
              match valueOf v1 with
              | V_MEMBER Child =>
                  deleteJsonMemberList fuel (mkState h log) Child DeleteKey
              | _ => Ok (mkState h log, false)
              end = Ok (mkState h log, false)).
    { destruct v1 as [|Child| | | | |]; try reflexivity.
      cbn [valueOf].
      destruct Child as [|c kc k3 v3 cnext].
      { simpl in HnnN. discriminate HnnN. }
      cbn [ptrOf].
      destruct (deleteJsonMemberList_absent DeleteKey h log _ HnnN HhN) as [_ Hchild].
      apply (Hchild _ _ _ _ _ _ _ _ _ eq_refl).
      - intros Hin. apply Habsent. right. apply in_or_app. left. exact Hin.
      - simpl in Hsize, Hfuel |- *. lia. }
    rewrite Hnested. cbn [bind].
    rewrite (loadMember_some (mkState h log) ta _ (Hh _ _ (or_introl eq_refl))).
    cbn [bind Next]. rewrite Enext.
    apply IH.
    + rewrite Ecut. cbn [rest]. intros Hin. apply Habsent. right.
      apply in_or_app. right. exact Hin.
    + lia.
Qed.


Lemma chain_addresses (front tail : lmember) :
  addresses (chain front tail) = addresses (chain front L_nullptr) ++ addresses tail.
Proof.
  unfold addresses.
  induction front as [|a ka k v next IH] using lmember_next_ind; [reflexivity|].
  cbn [chain blocksOfMember map fst]. rewrite !map_app, IH.
  cbn [app]. rewrite <- app_assoc. reflexivity.
Qed.

Lemma deleteJsonMember_found_run (DeleteKey : string) (a ka : nat)
  (v : lvalue) (post : lmember) (pa pka : nat) (pk : string) (pv : lvalue)
  (before : lmember) (h : gmap nat block) (valid : bool) (fuel : nat) :
  childrenNonNull
    (chain before (L_Node pa pka pk pv (L_Node a ka DeleteKey v post))) = true ->
  holds h (chain before (L_Node pa pka pk pv (L_Node a ka DeleteKey v post))) ->
  ~ In DeleteKey (objectKeys (chain before (L_Node pa pka pk pv L_nullptr))) ->
  2 * destroySize (chain before (L_Node pa pka pk pv (L_Node a ka DeleteKey v post))) + 2
  <= fuel ->
  deleteJsonMember fuel (mkState h [])
    (mkObject (ptrOf (chain before (L_Node pa pka pk pv (L_Node a ka DeleteKey v post))))
       valid) DeleteKey
  = Ok (mkState
          (freeAll (destroyOrder (L_Node a ka DeleteKey v post))
             (<[pa := BMember (mkMember (Some pka) (valueOf pv) (ptrOf post))]> h))
          (destroyOrder (L_Node a ka DeleteKey v post)),
        mkObject (ptrOf (chain before (L_Node pa pka pk pv (L_Node a ka DeleteKey v post))))
          valid,
        true)
  /\ ~ In pa (addresses (L_Node a ka DeleteKey v post)).
Proof.
  set (target := L_Node a ka DeleteKey v post).
  set (whole := chain before (L_Node pa pka pk pv target)).
  intros Hnn [Hnd Hh] Habsent Hfuel.
  assert (Hsplit : List.NoDup (addresses (L_Node pa pka pk pv target))).
  { fold (addresses whole) in Hnd. unfold whole in Hnd. rewrite chain_addresses in Hnd.
    exact (List.NoDup_app_remove_l _ _ Hnd). }
  unfold addresses in Hsplit. cbn [blocksOfMember map fst] in Hsplit.
  apply List.NoDup_cons_iff in Hsplit as [Hpa Hsplit].
  apply List.NoDup_cons_iff in Hsplit as [_ Hsplit].
  rewrite map_app in Hsplit, Hpa.
  pose proof (List.NoDup_app_remove_l _ _ Hsplit) as Hndt.
  assert (Hfresh : ~ In pa (addresses target)).
  { intros Hin. apply Hpa. right. apply in_or_app. right. exact Hin. }
  assert (Hne : pa <> a).
  { intros ->. apply Hfresh. unfold addresses, target. simpl. left. reflexivity. }
  assert (Hhead : exists a0 ka0 k0 v0 n0 n0',
             whole = L_Node a0 ka0 k0 v0 n0
             /\ chain before (L_Node pa pka pk pv L_nullptr) = L_Node a0 ka0 k0 v0 n0').
  { unfold whole. destruct before; cbn [chain]; repeat eexists. }
  destruct Hhead as (a0 & ka0 & k0 & v0 & n0 & n0' & Ewhole & Ecut).
  pose proof (deleteJsonMemberList_found DeleteKey a ka v post pa pka pk pv h []
                before) as Hfound.
  cbn zeta in Hfound. fold target in Hfound. fold whole in Hfound.
  specialize (Hfound Hnn Hh Hne Hfresh Hndt).
  rewrite Ecut in Hfound, Habsent. cbn [rest] in Hfound. cbn [objectKeys] in Habsent.
  specialize (Hfound (fun Hin => Habsent (or_intror Hin)) fuel Hfuel).
  split; [|exact Hfresh].
  unfold deleteJsonMember. cbn [First].
  revert Hh Hfound. rewrite Ewhole. intros Hh Hfound. cbn [ptrOf] in *.
  rewrite (loadMember_some (mkState h []) a0 _ (Hh _ _ (or_introl eq_refl))).
  cbn [bind Key].
  rewrite (loadChars_some (mkState h []) ka0 k0 (Hh _ _ (or_intror (or_introl eq_refl)))).
  cbn [bind].
  replace (String.eqb k0 DeleteKey) with false
    by (symmetry; apply String.eqb_neq; intros ->; apply Habsent; left; reflexivity).
  rewrite Hfound. reflexivity.
Qed.

(** X19.  When the key to delete is first met on a member of the
    top-level list that is not the first one, [deleteJsonMember] returns
    true and leaves [First] as it was, but what it frees is that member
    and every member after it: the member is unlinked by storing its
    [Next] in the member before it, and [destroyJsonMember] then walks
    from the deleted member through that same [Next].  The siblings that
    follow the deleted member are freed with their keys and nested
    objects, and the member before it is left pointing to the first of
    them. *)
Theorem deleteJsonMember_frees_following (DeleteKey : string) (a ka : nat)
  (v : lvalue) (post : lmember) (pa pka : nat) (pk : string) (pv : lvalue)
  (before : lmember) (h : gmap nat block) (valid : bool) (fuel : nat) :
  childrenNonNull
    (chain before (L_Node pa pka pk pv (L_Node a ka DeleteKey v post))) = true ->
  holds h (chain before (L_Node pa pka pk pv (L_Node a ka DeleteKey v post))) ->
  ~ In DeleteKey (objectKeys (chain before (L_Node pa pka pk pv L_nullptr))) ->
  2 * destroySize (chain before (L_Node pa pka pk pv (L_Node a ka DeleteKey v post))) + 2
  <= fuel ->
  exists st,
    deleteJsonMember fuel (mkState h [])
      (mkObject (ptrOf (chain before (L_Node pa pka pk pv (L_Node a ka DeleteKey v post))))
         valid) DeleteKey
    = Ok (st,
          mkObject (ptrOf (chain before (L_Node pa pka pk pv (L_Node a ka DeleteKey v post))))
            valid,
          true)
    /\ freed st = destroyOrder (L_Node a ka DeleteKey v post)
    /\ blocks st !! pa = Some (BMember (mkMember (Some pka) (valueOf pv) (ptrOf post)))
    /\ (forall x, In x (reachableNodes post) -> blocks st !! x = None)
    /\ (forall x, ~ In x (destroyOrder (L_Node a ka DeleteKey v post)) -> x <> pa ->
          blocks st !! x = h !! x).
Proof.
  set (target := L_Node a ka DeleteKey v post).
  intros Hnn Hh Habsent Hfuel.
  destruct (deleteJsonMember_found_run DeleteKey a ka v post pa pka pk pv before h valid
              fuel Hnn Hh Habsent Hfuel) as [Hrun Hfresh].
  fold target in Hrun, Hfresh.
  exists (mkState
            (freeAll (destroyOrder target)
               (<[pa := BMember (mkMember (Some pka) (valueOf pv) (ptrOf post))]> h))
            (destroyOrder target)).
  split; [exact Hrun|split; [reflexivity|split; [|split]]].
  - cbn [blocks]. rewrite freeAll_lookup_notin.
    + apply lookup_insert_eq.
    + intros Hin. apply Hfresh. apply destroyOrder_addresses. exact Hin.
  - intros x Hx. cbn [blocks]. apply freeAll_lookup_in.
    apply destroyOrder_reachable. left. unfold target. cbn [reachableNodes].
    right. apply in_or_app. right. exact Hx.
  - intros x Hx Hxpa. cbn [blocks]. rewrite freeAll_lookup_notin by exact Hx.
    apply lookup_insert_ne. intros E. apply Hxpa. symmetry. exact E.
Qed.

Lemma deleteJsonMember_frees_following_witness :
  let t := L_Node 1 2 "a" (L_NUMBER 1)
             (L_Node 3 4 "b" L_NULL (L_Node 5 6 "c" L_NULL L_nullptr)) in
  exists st,
    deleteJsonMember 8 (mkState (heapOf t) []) (mkObject (Some 1) true) "b"
    = Ok (st, mkObject (Some 1) true, true)
    /\ freed st = [4; 3; 6; 5]
    /\ blocks st !! 1 = Some (BMember (mkMember (Some 2) (V_NUMBER 1) (Some 5)))
    /\ blocks st !! 5 = None.
Proof.
  intros t.
  assert (Hh : holds (heapOf t) t).
  { split.
    - simpl. repeat (apply List.NoDup_cons; [simpl; intuition discriminate|]).
      apply List.NoDup_nil.
    - intros a b Hin. simpl in Hin.
      repeat (destruct Hin as [Hin|Hin];
              [injection Hin as <- <-; vm_compute; reflexivity|]).
      contradiction. }
  destruct (deleteJsonMember_frees_following "b" 3 4 L_NULL
              (L_Node 5 6 "c" L_NULL L_nullptr) 1 2 "a" (L_NUMBER 1) L_nullptr
              (heapOf t) true 8 eq_refl Hh
              ltac:(simpl; intuition discriminate) ltac:(vm_compute; lia))
    as (st & Hrun & Hfreed & Hpred & Hpost & _).
  exists st. split; [exact Hrun|]. split; [exact Hfreed|]. split; [exact Hpred|].
  apply Hpost. simpl. left. reflexivity.
Defined.

End Delete.

(** ** Reading back what the serializer prints *)

Lemma list_ascii_of_string_app (a b : string) :
  list_ascii_of_string (a +:+ b) = list_ascii_of_string a ++ list_ascii_of_string b.
Proof.
  induction a as [|c a IH]; [reflexivity|].
  simpl. rewrite IH. reflexivity.
Qed.

Lemma isPlainText_plain (s : string) :
  isPlainText s = true -> plainText JSON_TOKEN_STRING_SIZE (list_ascii_of_string s).
Proof.
  unfold isPlainText, plainText. intros H. apply andb_prop in H as [Hs Hlen].
  split; [exact Hs|]. apply Nat.ltb_lt. exact Hlen.
Qed.

Ltac printed_bytes :=
  unfold quoted;
  repeat (rewrite list_ascii_of_string_app
          || (progress cbn [list_ascii_of_string app])
          || rewrite <- app_assoc);
  try rewrite app_nil_r;
  reflexivity.

Section ReadBack.

Variable atof : string -> float.
Variable malloc_zero_is_null : bool.
Variable modf_fractional : float -> float.
Variable printf_d_int32 : float -> string.
Variable printf_4lf : float -> string.

Local Abbreviation print' := (printJsonValue modf_fractional printf_d_int32 printf_4lf).
Local Abbreviation printLoop' := (printJsonLoop modf_fractional printf_d_int32 printf_4lf).
Local Abbreviation printElements'' :=
  (printElements modf_fractional printf_d_int32 printf_4lf).
Local Abbreviation printable :=
  (printableValue atof modf_fractional printf_d_int32 printf_4lf).
Local Abbreviation printableList :=
  (printableMembers atof modf_fractional printf_d_int32 printf_4lf).
Local Abbreviation text := list_ascii_of_string.

Lemma printableValue_array (Head : list json_value) :
  printable (JSON_TYPE_ARRAY Head) -> Forall printable Head.
Proof.
  cbn [printableValue]. induction Head as [|e Head IH]; intros H; constructor.
  - exact (proj1 H).
  - exact (IH (proj2 H)).
Qed.

(** What is printed for a tree is a text of the JSON grammar that denotes
    the tree. *)
Lemma printed_text :
  (forall v, supportedValue malloc_zero_is_null v = true -> printable v ->
     forall s, print' v = Ok s ->
       ValueText atof JSON_TOKEN_STRING_SIZE (text s) v)
  /\ (forall m, m <> nullptr -> supportedMembers malloc_zero_is_null m = true ->
        printableList m ->
        forall w s, blank w -> printLoop' m = Ok s ->
          MembersText atof JSON_TOKEN_STRING_SIZE (w ++ text s) m).
Proof.
  apply json_tree_ind.
  - intros _ [].
  - (* a nested object *)
    intros Child IH Hsup Hp s Hs.
    destruct (supportedValue_member malloc_zero_is_null Child Hsup) as [HChild HsupC].
    destruct Child as [|k v next]; [contradiction|].
    rewrite printJsonValue_member in Hs.
    destruct (printLoop' (Member k v next)) as [s0|f] eqn:Eloop; [|discriminate].
    cbn [bind] in Hs. injection Hs as <-.
    replace (text ("{" +:+ s0 +:+ "}")) with ("{"%char :: text s0 ++ ["}"%char])
      by printed_bytes.
    apply VT_object. apply (IH HChild HsupC Hp [] s0 eq_refl eq_refl).
  - (* an array *)
    intros Head IH Hsup Hp s Hs.
    rewrite supportedValue_array in Hsup. apply andb_prop in Hsup as [_ Hsup].
    apply printableValue_array in Hp.
    rewrite printJsonValue_array in Hs.
    destruct (printElements'' Head) as [s0|f] eqn:Eelems; [|discriminate].
    cbn [bind] in Hs. injection Hs as <-.
    replace (text ("[" +:+ s0 +:+ "]")) with ("["%char :: text s0 ++ ["]"%char])
      by printed_bytes.
    apply VT_array.
    assert (Helems : forall w s, blank w -> printElements'' Head = Ok s ->
                       ElementsText atof JSON_TOKEN_STRING_SIZE (w ++ text s) Head).
    { clear s0 Eelems.
      induction Head as [|e Head IHl]; intros w s Hw Hs.
      - cbn in Hs. injection Hs as <-. cbn [list_ascii_of_string].
        rewrite app_nil_r. apply ET_none. exact Hw.
      - cbn [supportedElements forallb] in Hsup.
        apply andb_prop in Hsup as [He Hrest]. apply andb_prop in He as [_ He].
        inversion IH as [|e' Head' Pe PHead]; subst.
        inversion Hp as [|e' Head' Hpe HpHead]; subst.
        cbn [printElements] in Hs.
        destruct (print' e) as [a|f] eqn:Ea; [|discriminate].
        cbn [bind] in Hs.
        pose proof (Pe He Hpe a eq_refl) as Hvalue.
        destruct Head as [|e2 Head].
        + injection Hs as <-.
          replace (w ++ text a) with (w ++ text a ++ []) by (rewrite app_nil_r; reflexivity).
          apply ET_last; [exact Hw|exact Hvalue|reflexivity].
        + destruct (printElements'' (e2 :: Head)) as [b|f] eqn:Eb; [|discriminate].
          cbn [bind] in Hs. injection Hs as <-.
          replace (w ++ text (a +:+ ", " +:+ b))
            with (w ++ text a ++ [] ++ ","%char :: (" "%char :: text b))
            by printed_bytes.
          apply ET_more; [exact Hw|exact Hvalue|reflexivity| |discriminate].
          apply (IHl PHead Hrest HpHead [" "%char] b eq_refl eq_refl). }
    apply (Helems [] s0 eq_refl Eelems).
  - (* a string *)
    intros s0 _ Hp s Hs. cbn in Hs. injection Hs as <-.
    replace (text (quoted s0)) with (DQUOTE :: text s0 ++ [DQUOTE]) by printed_bytes.
    rewrite <- (string_of_list_ascii_of_string s0) at 2.
    apply VT_string. apply isPlainText_plain. exact Hp.
  - (* a number *)
    intros n _ [Hnumber Hatof] s Hs.
    assert (Es : s = printedNumber modf_fractional printf_d_int32 printf_4lf n).
    { cbn [printJsonValue] in Hs. unfold printedNumber.
      destruct (isFractionalPartZero modf_fractional n); injection Hs as <-; reflexivity. }
    subst s. rewrite <- Hatof at 2.
    rewrite <- (string_of_list_ascii_of_string
                  (printedNumber modf_fractional printf_d_int32 printf_4lf n)) at 2.
    apply VT_number. exact Hnumber.
  - (* a boolean *)
    intros b _ Hp s Hs. cbn in Hs. injection Hs as <-.
    unfold isBool32 in Hp. apply orb_prop in Hp as [Hb|Hb].
    + rewrite Hb. apply Z.eqb_eq in Hb. subst b. apply VT_false.
    + apply Z.eqb_eq in Hb. subst b. apply VT_true.
  - intros _ _ s Hs. cbn in Hs. injection Hs as <-. apply VT_null.
  - intros Hnull. contradiction.
  - (* a member *)
    intros k v next IHv IHn _ Hsup [Hk [Hpv Hpn]] w s Hw Hs.
    cbn [supportedMembers] in Hsup. apply andb_prop in Hsup as [Hsupv Hsupn].
    rewrite printJsonLoop_node in Hs.
    destruct (print' v) as [sv|f] eqn:Ev; [|discriminate].
    cbn [bind] in Hs.
    pose proof (IHv Hsupv Hpv sv eq_refl) as Hvalue.
    pose proof (isPlainText_plain k Hk) as Hkey.
    rewrite <- (string_of_list_ascii_of_string k).
    destruct next as [|k' v' next'].
    + injection Hs as <-.
      replace (w ++ text (quoted k +:+ " : " +:+ sv))
        with (w ++ DQUOTE :: text k ++ DQUOTE :: [" "%char] ++ ":"%char
                :: [" "%char] ++ text sv ++ [])
        by printed_bytes.
      apply MT_last; try assumption; reflexivity.
    + destruct (printLoop' (Member k' v' next')) as [r|f] eqn:Er; [|discriminate].
      cbn [bind] in Hs. injection Hs as <-.
      replace (w ++ text (quoted k +:+ " : " +:+ sv +:+ ", " +:+ r))
        with (w ++ DQUOTE :: text k ++ DQUOTE :: [" "%char] ++ ":"%char
                :: [" "%char] ++ text sv ++ [] ++ ","%char :: (" "%char :: text r))
        by printed_bytes.
      apply MT_more; try assumption; try reflexivity; [|discriminate].
      apply (IHn ltac:(discriminate) Hsupn Hpn [" "%char] r eq_refl eq_refl).
Qed.

(** X20.  What [printJsonObject] prints is read back by
    [parseStringToJson] as the object that was printed: same members,
    same order, flagged valid, with the cursor after the closing brace,
    whatever the declared length beyond that brace and whatever follows
    in memory.  This holds for every object with at least one member whose
    nested objects are not empty, whose arrays hold no arrays (and are not
    empty where [malloc(0)] returns null), whose keys and strings are
    fewer than 64 bytes without double quote, backslash or control
    character, whose booleans are 0 or 1, and whose numbers are written by
    [printf] as plain decimal numbers that [atof] reads back as the same
    number; and it holds when the blocks [malloc] hands out for the
    members hold a null [Next]. *)
Theorem parseStringToJson_of_printed (malloc_Next m : json_member_ptr) :
  malloc_Next = nullptr ->
  m <> nullptr ->
  supportedMembers malloc_zero_is_null m = true ->
  printableList m ->
  exists out,
    printJsonObject modf_fractional printf_d_int32 printf_4lf (mkObject m true) = Ok out
    /\ forall rest size,
         length (text out) - 1 <= size ->
         parseStringToJson atof malloc_zero_is_null malloc_Next (text out ++ rest) size 0
         = Ok (mkObject m true, length (text out) - 1).
Proof.
  intros -> Hm Hsup Hp.
  destruct (proj2 (print_supported modf_fractional printf_d_int32 printf_4lf
                     malloc_zero_is_null) m Hm Hsup) as [s Hs].
  exists (("{" +:+ s +:+ "}") +:+ newline). split.
  - unfold printJsonObject, printJsonMember. cbn [First IsValid negb].
    destruct m as [|k v next]; [contradiction|]. rewrite Hs. reflexivity.
  - intros rest size Hsize.
    pose proof (proj2 printed_text m Hm Hsup Hp [] s eq_refl Hs) as Hmembers.
    cbn [app] in Hmembers.
    pose proof (proj1 (proj2 (json_text_parsed atof malloc_zero_is_null))
                  (text s) m Hmembers Hm Hsup) as Hparsed.
    assert (Hout : text (("{" +:+ s +:+ "}") +:+ newline) ++ rest
                   = [] ++ "{"%char :: text s ++ "}"%char :: "010"%char :: rest).
    { unfold newline.
      repeat (rewrite list_ascii_of_string_app
              || (progress cbn [list_ascii_of_string app])
              || rewrite <- app_assoc).
      reflexivity. }
    assert (Hlen : length (text (("{" +:+ s +:+ "}") +:+ newline)) - 1
                   = 0 + length (@nil ascii) + length (text s) + 2).
    { unfold newline.
      repeat (rewrite list_ascii_of_string_app
              || (progress cbn [list_ascii_of_string app length])
              || rewrite length_app).
      lia. }
    rewrite Hlen in *. unfold parseStringToJson.
    apply (parseLoop_object atof malloc_zero_is_null (text s) m Hparsed _ _ _ 0 []
             ("010"%char :: rest) eq_refl).
    + rewrite Hout. reflexivity.
    + exact Hsize.
    + unfold parseFuel. rewrite Hout.
      repeat (rewrite length_app || (progress cbn [length app])). lia.
Qed.

End ReadBack.

Lemma parseStringToJson_of_printed_witness :
  exists out,
    printJsonObject (fun _ => 0%float) (fun _ => "7") (fun _ => "7")
      (mkObject (Member "k" (JSON_TYPE_ARRAY [JSON_TYPE_NUMBER 7; JSON_TYPE_BOOLEAN 0])
                   (Member "s" (JSON_TYPE_STRING "x y") nullptr)) true) = Ok out
    /\ forall rest size,
         length (list_ascii_of_string out) - 1 <= size ->
         parseStringToJson atofDigits false nullptr (list_ascii_of_string out ++ rest)
           size 0
         = Ok (mkObject (Member "k" (JSON_TYPE_ARRAY [JSON_TYPE_NUMBER 7; JSON_TYPE_BOOLEAN 0])
                           (Member "s" (JSON_TYPE_STRING "x y") nullptr)) true,
               length (list_ascii_of_string out) - 1).
Proof.
  apply (parseStringToJson_of_printed atofDigits false (fun _ => 0%float)
           (fun _ => "7") (fun _ => "7") nullptr).
  - reflexivity.
  - discriminate.
  - reflexivity.
  - cbn. repeat split; try reflexivity.
    exists [], (dq "7"), []. split; [reflexivity|]. split; [left; reflexivity|].
    split; [discriminate|]. split; [reflexivity|]. split; [left; reflexivity|].
    vm_compute. lia.
Defined.

(** ** When the serializer fails *)

Section PrintFaults.

Variable modf_fractional : float -> float.
Variable printf_d_int32 : float -> string.
Variable printf_4lf : float -> string.

Local Abbreviation print' := (printJsonValue modf_fractional printf_d_int32 printf_4lf).
Local Abbreviation printLoop' := (printJsonLoop modf_fractional printf_d_int32 printf_4lf).
Local Abbreviation printElements'' :=
  (printElements modf_fractional printf_d_int32 printf_4lf).

Lemma nullFreeValue_array (Head : list json_value) :
  nullFreeValue (JSON_TYPE_ARRAY Head) = forallb nullFreeValue Head.
Proof.
  cbn [nullFreeValue]. induction Head as [|e Head IH]; [reflexivity|].
  cbn [forallb]. rewrite <- IH. reflexivity.
Qed.

Lemma print_null_child :
  (forall v, printsOrNull (nullFreeValue v) (print' v))
  /\ (forall m, m <> nullptr -> printsOrNull (nullFreeMembers m) (printLoop' m)).
Proof.
  apply json_tree_ind.
  - reflexivity.
  - intros [|k v next] IH; [split; reflexivity|].
    specialize (IH ltac:(discriminate)).
    rewrite printJsonValue_member. cbn [nullFreeValue].
    destruct (printLoop' (Member k v next)) as [s|f]; exact IH.
  - intros Head IH. rewrite printJsonValue_array, nullFreeValue_array.
    assert (Helems : printsOrNull (forallb nullFreeValue Head) (printElements'' Head)).
    { induction Head as [|e Head IHl]; [reflexivity|].
      inversion IH as [|e' Head' Pe PHead]; subst. specialize (IHl PHead).
      cbn [printElements forallb].
      destruct (print' e) as [a|f]; cbn [printsOrNull bind] in *.
      - rewrite Pe. cbn [andb].
        destruct Head as [|e2 Head]; [reflexivity|].
        destruct (printElements'' (e2 :: Head)) as [b|f]; exact IHl.
      - destruct Pe as [-> ->]. split; reflexivity. }
    destruct (printElements'' Head) as [s|f]; exact Helems.
  - reflexivity.
  - intros n. cbn [printJsonValue].
    destruct (isFractionalPartZero modf_fractional n); reflexivity.
  - reflexivity.
  - reflexivity.
  - intros Hnull. contradiction.
  - intros k v next IHv IHn _. rewrite printJsonLoop_node. cbn [nullFreeMembers].
    destruct (print' v) as [s|f]; cbn [printsOrNull bind] in *.
    + rewrite IHv. cbn [andb].
      destruct next as [|k' v' next']; [reflexivity|].
      specialize (IHn ltac:(discriminate)).
      destruct (printLoop' (Member k' v' next')) as [r|f]; exact IHn.
    + destruct IHv as [-> ->]. split; reflexivity.
Qed.

(** X21.  [printJsonObject] on a valid object with at least one member
    prints the whole object exactly when no nested object in it, under a
    key or in an array, has a null [Child]; otherwise it stops on the
    dereference of that null pointer, and that is the only way it fails.
    [addJsonMember] refuses a null child, but [parseStringToJson] stores
    one for every object without members that it meets in an array. *)
Theorem printJsonObject_null_child (Object : json_object) :
  First Object <> nullptr ->
  IsValid Object = true ->
  match printJsonObject modf_fractional printf_d_int32 printf_4lf Object with
  | Ok out => nullFreeMembers (First Object) = true
  | Fault f => f = NullDeref /\ nullFreeMembers (First Object) = false
  end.
Proof.
  intros Hfirst Hvalid.
  pose proof (proj2 print_null_child (First Object) Hfirst) as H.
  unfold printJsonObject, printJsonMember. rewrite Hvalid. cbn [negb].
  destruct (First Object) as [|k v next]; [contradiction|].
  destruct (printLoop' (Member k v next)) as [s|f]; exact H.
Qed.

End PrintFaults.

Lemma printJsonObject_null_child_witness :
  parseStringToJson atofDigits false nullptr (dq "{'a':[{}]}") 10 0
  = Ok (mkObject (Member "a" (JSON_TYPE_ARRAY [JSON_TYPE_MEMBER nullptr]) nullptr) true, 10)
  /\ match printJsonObject (fun x => x) (fun _ => EmptyString) (fun _ => EmptyString)
             (mkObject (Member "a" (JSON_TYPE_ARRAY [JSON_TYPE_MEMBER nullptr]) nullptr)
                true) with
     | Ok out => False
     | Fault f => f = NullDeref
     end.
Proof.
  split; [reflexivity|].
  pose proof (printJsonObject_null_child (fun x => x) (fun _ => EmptyString)
                (fun _ => EmptyString)
                (mkObject (Member "a" (JSON_TYPE_ARRAY [JSON_TYPE_MEMBER nullptr]) nullptr)
                   true) ltac:(discriminate) eq_refl) as H.
  destruct (printJsonObject _ _ _ _) as [out|f]; [discriminate H|exact (proj1 H)].
Defined.

(** ** Lookup in the objects of an array *)

Lemma getJsonValueMember_in_preorder (m : json_member_ptr) (Key : string) :
  membersValid m ->
  getJsonValueMember m Key = JSON_TYPE_INVALID
  \/ exists k, In (k, getJsonValueMember m Key) (preorder m).
Proof.
  intros Hvalid. rewrite (getJsonValueMember_firstMatch m Key Hvalid).
  unfold firstMatch.
  destruct (List.find _ (preorder m)) as [[k v]|] eqn:Efind; [|left; reflexivity].
  right. exists k. eapply find_some_in. exact Efind.
Qed.

(** X22.  The way an array of objects is read: an array found by
    [getJsonValue] in a parsed object, an element of it fetched with
    [getJsonValueArrayMember], and the element searched with
    [getJsonValue] on the [json_member] returned.  When the blocks
    [malloc] hands out for the members hold a null [Next]: whenever the
    value found is an array that comes from [parseStringToJson] and the
    fetch succeeds on it, the member returned is the first member of an
    object of the parsed shape, and the search in it returns the first
    match in depth-first order. *)
Theorem getJsonValue_in_array_member (atof : string -> float) (mz : bool)
  (malloc_Next : json_member_ptr)
  (buf : list ascii) (size i : nat) (obj : json_object) (j : nat)
  (ArrayKey : string) (Head : list json_value) (Index : Z)
  (Member : json_member_ptr) (Key : string) :
  malloc_Next = nullptr ->
  parseStringToJson atof mz malloc_Next buf size i = Ok (obj, j) ->
  getJsonValue obj ArrayKey = JSON_TYPE_ARRAY Head ->
  getJsonValueArrayMember (JSON_TYPE_ARRAY Head) Index = Ok Member ->
  Member <> nullptr
  /\ parsedMembers Member = true
  /\ getJsonValueMember Member Key = firstMatch Member Key.
Proof.
  intros -> Hparse Harray Hfetch.
  pose proof (proj1 (parse_shape atof mz buf (parseFuel buf)) size i) as Hshape.
  unfold parseStringToJson in Hparse. rewrite Hparse in Hshape. cbn [yields] in Hshape.
  assert (HMember : Member <> nullptr /\ parsedMembers Member = true).
  { assert (Hget : getJsonValue obj ArrayKey = getJsonValueMember (First obj) ArrayKey).
    { unfold getJsonValue. destruct (First obj); reflexivity. }
    rewrite Hget in Harray.
    destruct (getJsonValueMember_in_preorder (First obj) ArrayKey
                (parsedMembers_membersValid _ Hshape)) as [E|[k Hin]].
    - rewrite E in Harray. discriminate Harray.
    - rewrite Harray in Hin.
      destruct (parsedMembers_preorder _ Hshape _ _ Hin) as [_ Hv].
      rewrite parsedValue_array in Hv.
      unfold getJsonValueArrayMember in Hfetch.
      destruct (Index <? 0)%Z; [discriminate|].
      destruct (nth_error Head (Z.to_nat Index)) as [e|] eqn:Enth; [|discriminate].
      apply nth_error_In in Enth.
      pose proof (proj1 (forallb_forall _ _) Hv _ Enth) as He.
      destruct e as [|[|k' v' next']| | | | |]; try discriminate.
      injection Hfetch as <-. split; [discriminate|exact He]. }
  destruct HMember as [Hnonnull HMember].
  split; [exact Hnonnull|]. split; [exact HMember|].
  apply getJsonValueMember_firstMatch. apply parsedMembers_membersValid. exact HMember.
Qed.

Lemma getJsonValue_in_array_member_witness :
  getJsonValueMember
    (Member "x0" (JSON_TYPE_NUMBER 1) (Member "y0" (JSON_TYPE_NUMBER 2) nullptr)) "y0"
  = firstMatch
      (Member "x0" (JSON_TYPE_NUMBER 1) (Member "y0" (JSON_TYPE_NUMBER 2) nullptr)) "y0".
Proof.
  exact (proj2 (proj2 (getJsonValue_in_array_member atofDigits false nullptr
                         (cstr "{'pairs':[{'x0':1,'y0':2}]}") 27 0 _ 27 "pairs" _ 0 _ "y0"
                         eq_refl eq_refl eq_refl eq_refl))).
Defined.

(** ** Insertion on a laid-out object *)

Section Insert.
Import Heap HeapSpec DeleteSpec.

Lemma chain_nil (m : lmember) : chain m L_nullptr = m.
Proof.
  induction m as [|a ka k v next IH] using lmember_next_ind; [reflexivity|].
  cbn [chain]. rewrite IH. reflexivity.
Qed.

Lemma eraseMember_chain (m new : lmember) :
  eraseMember (chain m new) = appendMember (eraseMember m) (eraseMember new).
Proof.
  induction m as [|a ka k v next IH] using lmember_next_ind; [reflexivity|].
  cbn [chain eraseMember appendMember]. rewrite IH. reflexivity.
Qed.

Lemma ptrOf_chain (m new : lmember) :
  m <> L_nullptr -> ptrOf (chain m new) = ptrOf m.
Proof. destruct m; [contradiction|reflexivity]. Qed.

(** The scan for the last member of a list the heap holds. *)
Lemma lastMember_layout (st : state) (m : lmember) :
  m <> L_nullptr ->
  (forall x b, In (x, b) (blocksOfMember m) -> blocks st !! x = Some b) ->
  forall fuel, HeapInsert.listLength m <= fuel ->
    HeapInsert.lastMember fuel st (ptrOf m) = Ok (HeapInsert.lastAddress m).
Proof.
  induction m as [|a ka k v next IH] using lmember_next_ind; [contradiction|].
  intros _ Hh fuel Hfuel.
  destruct fuel as [|fuel]; [simpl in Hfuel; lia|].
  cbn [HeapInsert.lastMember ptrOf].
  rewrite (loadMember_some st a _ (Hh _ _ (or_introl eq_refl))).
  cbn [bind Next HeapInsert.lastAddress].
  destruct next as [|a' ka' k' v' next']; [reflexivity|].
  cbn [ptrOf].
  apply (IH ltac:(discriminate)).
  - intros x b Hin. apply Hh. simpl. right. right. apply in_or_app. right. exact Hin.
  - simpl in Hfuel |- *. lia.
Qed.

(** Storing the new member in the [Next] of the last member of [m]. *)
Lemma link_last (h1 : gmap nat block) (new : lmember) (m : lmember) :
  m <> L_nullptr ->
  List.NoDup (addresses (chain m new)) ->
  (forall x b, In (x, b) (blocksOfMember m) -> h1 !! x = Some b) ->
  (forall x b, In (x, b) (blocksOfMember new) -> h1 !! x = Some b) ->
  exists la lm,
    HeapInsert.lastAddress m = Some la
    /\ h1 !! la = Some (BMember lm)
    /\ In la (addresses m)
    /\ forall x b, In (x, b) (blocksOfMember (chain m new)) ->
         <[la := BMember (mkMember (Key lm) (Value lm) (ptrOf new))]> h1 !! x = Some b.
Proof.
  unfold addresses.
  induction m as [|a ka k v next IH] using lmember_next_ind; [contradiction|].
  intros _ Hnd Hm Hnew.
  cbn [chain blocksOfMember map fst] in Hnd.
  apply List.NoDup_cons_iff in Hnd as [Ha Hnd].
  apply List.NoDup_cons_iff in Hnd as [Hka Hnd].
  rewrite map_app in Ha, Hka, Hnd.
  pose proof (List.NoDup_app_remove_l _ _ Hnd) as HndN.
  assert (Hdisj : forall x, In x (map fst (blocksOfValue v)) ->
                    ~ In x (map fst (blocksOfMember (chain next new)))).
  { intros x Hx. exact (NoDup_app_disjoint _ _ x Hnd Hx). }
  assert (HmN : forall x b, In (x, b) (blocksOfMember next) -> h1 !! x = Some b).
  { intros x b Hin. apply Hm. simpl. right. right. apply in_or_app. right. exact Hin. }
  assert (Hfst : forall (l : list (nat * block)) x b, In (x, b) l -> In x (map fst l)).
  { intros l x b Hin. apply in_map_iff. exists (x, b). split; [reflexivity|exact Hin]. }
  destruct next as [|a' ka' k' v' next'].
  - (* [a] is the last member *)
    exists a, (mkMember (Some ka) (valueOf v) None).
    split; [reflexivity|]. split; [apply Hm; left; reflexivity|].
    split; [left; reflexivity|].
    intros x b Hin. cbn [chain blocksOfMember] in Hin. cbn [Key Value].
    destruct Hin as [E|Hin].
    + injection E as <- <-. apply lookup_insert_eq.
    + assert (Hx : x <> a).
      { intros ->. destruct Hin as [E|Hin].
        - injection E as E1 _. apply Ha. left. exact E1.
        - apply Ha. right. cbn [chain]. rewrite <- map_app.
          exact (Hfst _ _ _ Hin). }
      rewrite lookup_insert_ne by (intros E; apply Hx; symmetry; exact E).
      destruct Hin as [E|Hin]; [injection E as <- <-; apply Hm; right; left; reflexivity|].
      apply in_app_or in Hin as [Hin|Hin].
      * apply Hm. right. right. apply in_or_app. left. exact Hin.
      * apply Hnew. exact Hin.
  - (* the last member comes later *)
    destruct (IH ltac:(discriminate) HndN HmN Hnew) as (la & lm & Hla & Hlm & Hin & Hrest).
    exists la, lm. split; [exact Hla|]. split; [exact Hlm|].
    split; [right; right; rewrite map_app; apply in_or_app; right; exact Hin|].
    assert (Hlast : In la (map fst (blocksOfMember
                                      (chain (L_Node a' ka' k' v' next') new)))).
    { fold (addresses (chain (L_Node a' ka' k' v' next') new)).
      rewrite chain_addresses. apply in_or_app. left. rewrite chain_nil. exact Hin. }
    intros x b Hx.
    change (chain (L_Node a ka k v (L_Node a' ka' k' v' next')) new)
      with (L_Node a ka k v (chain (L_Node a' ka' k' v' next') new)) in Hx.
    cbn [blocksOfMember] in Hx.
    destruct Hx as [E|[E|Hx]].
    + injection E as <- <-.
      rewrite lookup_insert_ne
        by (intros ->; apply Ha; right; apply in_or_app; right; exact Hlast).
      apply Hm. left. reflexivity.
    + injection E as <- <-.
      rewrite lookup_insert_ne
        by (intros ->; apply Hka; apply in_or_app; right; exact Hlast).
      apply Hm. right. left. reflexivity.
    + apply in_app_or in Hx as [Hx|Hx]; [|exact (Hrest _ _ Hx)].
      rewrite lookup_insert_ne
        by (intros ->; exact (Hdisj _ (Hfst _ _ _ Hx) Hlast)).
      apply Hm. right. right. apply in_or_app. left. exact Hx.
Qed.

(** The end of every overload, on a heap that holds the object and the
    blocks of the new member. *)
Lemma linkMember_layout (h h1 : gmap nat block) (m : lmember) (valid : bool)
  (a ka : nat) (k : string) (v : lvalue) (fuel : nat) :
  List.NoDup (addresses (chain m (L_Node a ka k v L_nullptr))) ->
  (forall x b, In (x, b) (blocksOfMember m) -> h1 !! x = Some b) ->
  (forall x b, In (x, b) (blocksOfMember (L_Node a ka k v L_nullptr)) ->
     h1 !! x = Some b) ->
  (forall x, ~ In x (addresses (L_Node a ka k v L_nullptr)) -> h1 !! x = h !! x) ->
  HeapInsert.listLength m <= fuel ->
  HeapInsert.inserted h m valid (L_Node a ka k v L_nullptr)
    (HeapInsert.linkMember fuel (mkState h1 []) (mkObject (ptrOf m) valid) (Some a)).
Proof.
  intros Hnd Hm Hnew Hframe Hfuel. unfold HeapInsert.inserted, HeapInsert.linkMember.
  destruct m as [|a0 ka0 k0 v0 next0].
  - exists (mkState h1 []). cbn [First IsValid ptrOf chain blocks freed].
    split; [reflexivity|]. split; [reflexivity|]. split; [split; assumption|].
    exact Hframe.
  - cbn [First IsValid ptrOf].
    set (m := L_Node a0 ka0 k0 v0 next0) in *.
    assert (Hnonnull : m <> L_nullptr) by discriminate.
    destruct (link_last h1 _ m Hnonnull Hnd Hm Hnew) as (la & lm & Hla & Hlm & Hin & Hall).
    change (Some a0) with (ptrOf m).
    rewrite (lastMember_layout (mkState h1 []) m Hnonnull Hm fuel Hfuel), Hla.
    cbn [bind]. unfold storeNext.
    rewrite (loadMember_some (mkState h1 []) la lm Hlm). cbn [bind blocks freed].
    eexists. split; [reflexivity|].
    cbn [blocks freed]. split; [reflexivity|]. split; [split; [exact Hnd|exact Hall]|].
    intros x Hx. rewrite lookup_insert_ne.
    + apply Hframe. intros Hin'. apply Hx. rewrite chain_addresses.
      apply in_or_app. right. exact Hin'.
    + intros ->. apply Hx. rewrite chain_addresses. apply in_or_app. left.
      rewrite chain_nil. exact Hin.
Qed.


Lemma holds_allocated (h : gmap nat block) (m : lmember) (x : nat) :
  holds h m -> h !! x = None -> ~ In x (addresses m).
Proof.
  intros [_ Hh] Hx Hin. unfold addresses in Hin.
  apply in_map_iff in Hin as [[y b] [E Hin]]. cbn [fst] in E. subst y.
  rewrite (Hh _ _ Hin) in Hx. discriminate Hx.
Qed.

Lemma NoDup_chain_new (h : gmap nat block) (m new : lmember) :
  holds h m ->
  List.NoDup (addresses new) ->
  (forall x, In x (addresses new) -> h !! x = None) ->
  List.NoDup (addresses (chain m new)).
Proof.
  intros Hm Hnew Hfresh. rewrite chain_addresses, chain_nil.
  apply List.NoDup_app; [exact (proj1 Hm)|exact Hnew|].
  intros x Hx Hx'. exact (holds_allocated h m x Hm (Hfresh x Hx') Hx).
Qed.

Ltac heap_lookup :=
  repeat (rewrite lookup_insert_eq
          || (rewrite lookup_insert_ne by congruence)).

(** The stores of [setJsonMemberValue] for a value without payload, after
    the key has been copied. *)
Lemma set_scalar (h : gmap nat block) (a ka : nat) (k : string) (junk : member)
  (val : value) :
  a <> ka ->
  (let* st := HeapInsert.storeKey
                (mkState (<[ka := BChars k]> (<[a := BMember junk]> h)) [])
                (Some a) (Some ka) in
   HeapInsert.storeValue st (Some a) val)
  = Ok (mkState
          (<[a := BMember (mkMember (Some ka) val (Next junk))]>
             (<[a := BMember (mkMember (Some ka) (Value junk) (Next junk))]>
                (<[ka := BChars k]> (<[a := BMember junk]> h)))) []).
Proof.
  intros Hne. unfold HeapInsert.storeKey, HeapInsert.storeValue, loadMember.
  cbn [blocks freed]. heap_lookup. cbn [bind blocks freed]. heap_lookup.
  reflexivity.
Qed.

Lemma scalar_inserted (h : gmap nat block) (m : lmember) (valid : bool)
  (a ka : nat) (k : string) (junk : member) (v : lvalue) (fuel : nat) :
  holds h m ->
  h !! a = None -> h !! ka = None -> a <> ka ->
  Next junk = None ->
  blocksOfValue v = [] ->
  HeapInsert.listLength m <= fuel ->
  HeapInsert.inserted h m valid (L_Node a ka k v L_nullptr)
    (HeapInsert.linkMember fuel
       (mkState
          (<[a := BMember (mkMember (Some ka) (valueOf v) (Next junk))]>
             (<[a := BMember (mkMember (Some ka) (Value junk) (Next junk))]>
                (<[ka := BChars k]> (<[a := BMember junk]> h)))) [])
       (mkObject (ptrOf m) valid) (Some a)).
Proof.
  intros Hm Ha Hka Hne Hjunk Hv Hfuel.
  assert (Haddr : addresses (L_Node a ka k v L_nullptr) = [a; ka]).
  { unfold addresses. cbn [blocksOfMember map fst]. rewrite Hv. reflexivity. }
  apply linkMember_layout; try assumption.
  - apply (NoDup_chain_new h); [exact Hm| |].
    + rewrite Haddr. repeat constructor; simpl; intuition congruence.
    + rewrite Haddr. intros x [<-|[<-|[]]]; assumption.
  - intros x b Hin.
    assert (Hx : h !! x = Some b) by (apply (proj2 Hm); exact Hin).
    assert (x <> a) by (intros ->; congruence).
    assert (x <> ka) by (intros ->; congruence).
    heap_lookup. exact Hx.
  - intros x b Hin. cbn [blocksOfMember ptrOf] in Hin. rewrite Hv in Hin.
    rewrite Hjunk.
    destruct Hin as [E|[E|[]]]; injection E as <- <-; heap_lookup; reflexivity.
  - rewrite Haddr. intros x Hx.
    assert (x <> a) by (intros ->; apply Hx; left; reflexivity).
    assert (x <> ka) by (intros ->; apply Hx; right; left; reflexivity).
    heap_lookup. reflexivity.
Qed.

(** The stores of the overload with a string, and the link. *)
Lemma string_inserted (h : gmap nat block) (m : lmember) (valid : bool)
  (a ka sa : nat) (k s : string) (junk : member) (fuel : nat) :
  holds h m ->
  h !! a = None -> h !! ka = None -> a <> ka ->
  Next junk = None ->
  h !! sa = None -> sa <> a -> sa <> ka ->
  HeapInsert.listLength m <= fuel ->
  HeapInsert.inserted h m valid (L_Node a ka k (L_STRING sa s) L_nullptr)
    (HeapInsert.addJsonMemberString fuel (mkState h []) (mkObject (ptrOf m) valid)
       (Some k) (Some s) (Some a) junk (Some ka) (Some sa)).
Proof.
  intros Hm Ha Hka Hne Hjunk Hsa Hsa1 Hsa2 Hfuel.
  unfold HeapInsert.addJsonMemberString, HeapInsert.setJsonMemberValueString,
    HeapInsert.mallocMember, HeapInsert.copyString, HeapInsert.storeKey,
    HeapInsert.storeValue, loadMember.
  cbn [blocks freed]. heap_lookup. cbn [bind blocks freed]. heap_lookup.
  cbn [bind].
  assert (Haddr : addresses (L_Node a ka k (L_STRING sa s) L_nullptr) = [a; ka; sa])
    by reflexivity.
  apply linkMember_layout; try assumption.
  - apply (NoDup_chain_new h); [exact Hm| |].
    + rewrite Haddr. repeat constructor; simpl; intuition congruence.
    + rewrite Haddr. intros x [<-|[<-|[<-|[]]]]; assumption.
  - intros x b Hin.
    assert (Hx : h !! x = Some b) by (apply (proj2 Hm); exact Hin).
    assert (x <> a) by (intros ->; congruence).
    assert (x <> ka) by (intros ->; congruence).
    assert (x <> sa) by (intros ->; congruence).
    heap_lookup. exact Hx.
  - intros x b Hin. cbn [blocksOfMember blocksOfValue ptrOf valueOf app] in Hin.
    rewrite Hjunk.
    destruct Hin as [E|[E|[E|[]]]]; injection E as <- <-; heap_lookup; reflexivity.
  - rewrite Haddr. intros x Hx.
    assert (x <> a) by (intros ->; apply Hx; left; reflexivity).
    assert (x <> ka) by (intros ->; apply Hx; right; left; reflexivity).
    assert (x <> sa) by (intros ->; apply Hx; right; right; left; reflexivity).
    heap_lookup. reflexivity.
Qed.

(** X23.  The insert operations on the heap, for the overloads with a
    string, a number, a boolean and null.  On an object laid out in the
    heap, with [malloc] handing out addresses that are not in use, the
    operation returns with the object laid out as before, followed by one
    new member that holds a copy of the key (and of the string): the tree
    it spans is the one the operation of the tree model returns, no block
    of the object is moved or freed, and every block outside the object
    and the new member is left as it was.  This relies on the [Next] of
    the block that [malloc] hands out being null already: no insert
    operation writes it. *)
Theorem addJsonMember_on_heap (m : lmember) (h : gmap nat block) (valid : bool)
  (k : string) (a ka : nat) (junk : member) (fuel : nat) :
  holds h m ->
  h !! a = None -> h !! ka = None -> a <> ka ->
  Next junk = None ->
  HeapInsert.listLength m <= fuel ->
  (forall Number,
     HeapInsert.inserted h m valid (L_Node a ka k (L_NUMBER Number) L_nullptr)
       (HeapInsert.addJsonMemberNumber fuel (mkState h []) (mkObject (ptrOf m) valid)
          (Some k) Number (Some a) junk (Some ka))
     /\ erasedObject (chain m (L_Node a ka k (L_NUMBER Number) L_nullptr)) valid
        = addJsonMemberNumber nullptr (erasedObject m valid) (Some k) Number)
  /\ (forall Boolean,
        HeapInsert.inserted h m valid (L_Node a ka k (L_BOOLEAN Boolean) L_nullptr)
          (HeapInsert.addJsonMemberBoolean fuel (mkState h []) (mkObject (ptrOf m) valid)
             (Some k) Boolean (Some a) junk (Some ka))
        /\ erasedObject (chain m (L_Node a ka k (L_BOOLEAN Boolean) L_nullptr)) valid
           = addJsonMemberBoolean nullptr (erasedObject m valid) (Some k) Boolean)
  /\ (HeapInsert.inserted h m valid (L_Node a ka k L_NULL L_nullptr)
        (HeapInsert.addJsonMemberNull fuel (mkState h []) (mkObject (ptrOf m) valid)
           (Some k) (Some a) junk (Some ka))
      /\ erasedObject (chain m (L_Node a ka k L_NULL L_nullptr)) valid
         = addJsonMemberNull nullptr (erasedObject m valid) (Some k))
  /\ (forall s sa,
        h !! sa = None -> sa <> a -> sa <> ka ->
        HeapInsert.inserted h m valid (L_Node a ka k (L_STRING sa s) L_nullptr)
          (HeapInsert.addJsonMemberString fuel (mkState h []) (mkObject (ptrOf m) valid)
             (Some k) (Some s) (Some a) junk (Some ka) (Some sa))
        /\ erasedObject (chain m (L_Node a ka k (L_STRING sa s) L_nullptr)) valid
           = addJsonMemberString nullptr (erasedObject m valid) (Some k) s).
Proof.
  intros Hm Ha Hka Hne Hjunk Hfuel.
  assert (Herase : forall v,
             erasedObject (chain m (L_Node a ka k v L_nullptr)) valid
             = appendNew nullptr (erasedObject m valid) k (eraseValue v)).
  { intros v. unfold erasedObject, appendNew. cbn.
    rewrite eraseMember_chain. reflexivity. }
  split; [|split; [|split]].
  - intros Number. split; [|apply Herase].
    unfold HeapInsert.addJsonMemberNumber, HeapInsert.setJsonMemberValueNumber,
      HeapInsert.mallocMember, HeapInsert.copyString.
    cbn [blocks freed]. rewrite (set_scalar h a ka k junk _ Hne). cbn [bind].
    apply (scalar_inserted h m valid a ka k junk (L_NUMBER Number) fuel);
      solve [assumption | reflexivity].
  - intros Boolean. split; [|apply Herase].
    unfold HeapInsert.addJsonMemberBoolean, HeapInsert.setJsonMemberValueBoolean,
      HeapInsert.mallocMember, HeapInsert.copyString.
    cbn [blocks freed]. rewrite (set_scalar h a ka k junk _ Hne). cbn [bind].
    apply (scalar_inserted h m valid a ka k junk (L_BOOLEAN Boolean) fuel);
      solve [assumption | reflexivity].
  - split; [|apply Herase].
    unfold HeapInsert.addJsonMemberNull, HeapInsert.setJsonMemberValueNull,
      HeapInsert.mallocMember, HeapInsert.copyString.
    cbn [blocks freed]. rewrite (set_scalar h a ka k junk _ Hne). cbn [bind].
    apply (scalar_inserted h m valid a ka k junk L_NULL fuel);
      solve [assumption | reflexivity].
  - intros s sa Hsa Hsa1 Hsa2. split; [|apply Herase].
    apply string_inserted; assumption.
Qed.


Lemma addJsonMember_on_heap_witness :
  let t := L_Node 1 2 "a" L_NULL L_nullptr in
  HeapInsert.inserted (heapOf t) t true (L_Node 3 4 "b" (L_NUMBER 2) L_nullptr)
    (HeapInsert.addJsonMemberNumber 1 (mkState (heapOf t) []) (mkObject (Some 1) true)
       (Some "b") 2 (Some 3) (mkMember (Some 9) (V_BOOLEAN 5) None) (Some 4)).
Proof.
  intros t.
  assert (Hh : holds (heapOf t) t).
  { split.
    - simpl. repeat (apply List.NoDup_cons; [simpl; intuition discriminate|]).
      apply List.NoDup_nil.
    - intros a b Hin. simpl in Hin.
      repeat (destruct Hin as [Hin|Hin];
              [injection Hin as <- <-; vm_compute; reflexivity|]).
      contradiction. }
  exact (proj1 (proj1 (addJsonMember_on_heap t (heapOf t) true "b" 3 4
                         (mkMember (Some 9) (V_BOOLEAN 5) None) 1
                         Hh eq_refl eq_refl ltac:(discriminate) eq_refl (le_n 1))
                  2%float)).
Defined.

(** X24.  No insert operation writes the [Next] of the member it
    allocates: after [addJsonMember] on an object without members, the
    new member is the first one and its [Next] is what the block handed
    out by [malloc] held.  When that is not null, the next insert follows
    it as if it were a member: with a pointer to memory that is not
    allocated, the scan for the last member reads outside the heap. *)
Theorem addJsonMember_next_not_written (h : gmap nat block) (valid : bool)
  (k : string) (Number : float) (a ka : nat) (junk : member) (fuel : nat) :
  h !! a = None -> h !! ka = None -> a <> ka ->
  exists st,
    HeapInsert.addJsonMemberNumber fuel (mkState h []) (mkObject None valid)
      (Some k) Number (Some a) junk (Some ka)
    = Ok (st, mkObject (Some a) valid)
    /\ blocks st !! a = Some (BMember (mkMember (Some ka) (V_NUMBER Number) (Next junk)))
    /\ forall w k' Number' a' ka' junk' fuel',
         Next junk = Some w ->
         h !! w = None -> w <> a -> w <> ka ->
         a' <> a -> ka' <> a -> a' <> ka' -> w <> a' -> w <> ka' ->
         HeapInsert.addJsonMemberNumber (S (S fuel')) st (mkObject (Some a) valid)
           (Some k') Number' (Some a') junk' (Some ka')
         = Fault (InvalidFree w).
Proof.
  intros Ha Hka Hne.
  eexists. split; [|split].
  - unfold HeapInsert.addJsonMemberNumber, HeapInsert.setJsonMemberValueNumber,
      HeapInsert.mallocMember, HeapInsert.copyString.
    cbn [blocks freed]. rewrite (set_scalar h a ka k junk _ Hne). cbn [bind].
    reflexivity.
  - cbn [blocks]. apply lookup_insert_eq.
  - intros w k' Number' a' ka' junk' fuel' Hjunk Hw Hwa Hwka Ha' Hka' Hne' Hwa' Hwka'.
    unfold HeapInsert.addJsonMemberNumber, HeapInsert.setJsonMemberValueNumber,
      HeapInsert.mallocMember, HeapInsert.copyString.
    cbn [blocks freed]. rewrite (set_scalar _ a' ka' k' junk' _ Hne'). cbn [bind].
    unfold HeapInsert.linkMember. cbn [First HeapInsert.lastMember].
    unfold loadMember. cbn [blocks]. heap_lookup. cbn [bind Next]. rewrite Hjunk.
    heap_lookup. rewrite Hw. reflexivity.
Qed.

Lemma addJsonMember_next_not_written_witness :
  exists st,
    HeapInsert.addJsonMemberNumber 0 (mkState (@empty (gmap nat block) _) []) (mkObject None true)
      (Some "a") 1 (Some 1) (mkMember None V_INVALID (Some 7)) (Some 2)
    = Ok (st, mkObject (Some 1) true)
    /\ blocks st !! 1 = Some (BMember (mkMember (Some 2) (V_NUMBER 1) (Some 7)))
    /\ HeapInsert.addJsonMemberNumber 2 st (mkObject (Some 1) true)
         (Some "b") 2 (Some 3) (mkMember None V_INVALID None) (Some 4)
       = Fault (InvalidFree 7).
Proof.
  destruct (addJsonMember_next_not_written (@empty (gmap nat block) _) true "a" 1 1 2
              (mkMember None V_INVALID (Some 7)) 0
              (lookup_empty 1) (lookup_empty 2) ltac:(discriminate))
    as (st & Hrun & Hblock & Hnext).
  exists st. split; [exact Hrun|]. split; [exact Hblock|].
  apply (Hnext 7 "b" 2%float 3 4 (mkMember None V_INVALID None) 0);
    solve [reflexivity | discriminate | apply lookup_empty].
Defined.

End Insert.

(** ** Insertion followed by deletion *)

Section InsertDelete.
Import Heap HeapSpec DeleteSpec.

Lemma last_split (m : lmember) :
  m <> L_nullptr ->
  exists before pa pka pk pv, m = chain before (L_Node pa pka pk pv L_nullptr).
Proof.
  induction m as [|a ka k v next IH] using lmember_next_ind; [contradiction|].
  intros _. destruct next as [|a' ka' k' v' next'].
  - exists L_nullptr, a, ka, k, v. reflexivity.
  - destruct (IH ltac:(discriminate)) as (before & pa & pka & pk & pv & E).
    exists (L_Node a ka k v before), pa, pka, pk, pv. cbn [chain]. rewrite <- E.
    reflexivity.
Qed.

Lemma chain_assoc (x y z : lmember) : chain (chain x y) z = chain x (chain y z).
Proof.
  induction x as [|a ka k v next IH] using lmember_next_ind; [reflexivity|].
  cbn [chain]. rewrite IH. reflexivity.
Qed.

Lemma destroySize_chain (m new : lmember) :
  destroySize (chain m new) = destroySize m + destroySize new.
Proof.
  induction m as [|a ka k v next IH] using lmember_next_ind; [reflexivity|].
  cbn [chain destroySize]. rewrite IH. lia.
Qed.

Lemma childrenNonNull_chain (m new : lmember) :
  childrenNonNull (chain m new) = childrenNonNull m && childrenNonNull new.
Proof.
  induction m as [|a ka k v next IH] using lmember_next_ind; [reflexivity|].
  cbn [chain childrenNonNull]. rewrite IH. apply andb_assoc.
Qed.

(** The blocks of a list are those of the list with a member linked to its
    end, but for the last member. *)
Lemma blocks_cut (before : lmember) (pa pka : nat) (pk : string) (pv : lvalue)
  (new : lmember) (x : nat) (b : block) :
  x <> pa ->
  In (x, b) (blocksOfMember (chain before (L_Node pa pka pk pv L_nullptr))) ->
  In (x, b) (blocksOfMember (chain before (L_Node pa pka pk pv new))).
Proof.
  intros Hx.
  induction before as [|a ka k v next IH] using lmember_next_ind.
  - cbn [chain blocksOfMember]. intros [E|[E|Hin]].
    + injection E as E _. exfalso. apply Hx. symmetry. exact E.
    + right. left. exact E.
    + right. right. rewrite app_nil_r in Hin. apply in_or_app. left. exact Hin.
  - cbn [chain blocksOfMember]. intros [E|[E|Hin]].
    + left. rewrite <- E. destruct next; reflexivity.
    + right. left. exact E.
    + right. right. apply in_app_or in Hin as [Hin|Hin]; apply in_or_app;
        [left; exact Hin|right; exact (IH Hin)].
Qed.

(** Deleting the key of a member without nested object that an insert
    operation has just linked to the end of the list. *)
Lemma delete_inserted (h : gmap nat block) (m : lmember) (valid : bool)
  (a ka : nat) (k : string) (v : lvalue) (r : run (state * object)) (fuel : nat) :
  destroyOrder (L_Node a ka k v L_nullptr) = [ka; a] ->
  childrenNonNull (L_Node a ka k v L_nullptr) = true ->
  childrenNonNull m = true ->
  holds h m ->
  ~ In k (objectKeys m) ->
  2 * destroySize m + 4 <= fuel ->
  HeapInsert.inserted h m valid (L_Node a ka k v L_nullptr) r ->
  exists st,
    (let* p := r in deleteJsonMember fuel (fst p) (snd p) k)
    = Ok (st, mkObject (ptrOf m) valid, true)
    /\ freed st = [ka; a]
    /\ blocks st !! a = None
    /\ blocks st !! ka = None
    /\ (forall x b, In (x, b) (blocksOfValue v) -> blocks st !! x = Some b)
    /\ (forall x, x <> a -> x <> ka -> ~ In x (map fst (blocksOfValue v)) ->
          blocks st !! x = h !! x).
Proof.
  set (new := L_Node a ka k v L_nullptr).
  intros Horder Hnnew Hnn Hm Habsent Hfuel (st0 & -> & Hfreed & Hholds & Hframe).
  destruct st0 as [h2 log]. cbn [blocks freed] in Hfreed, Hholds, Hframe. subst log.
  cbn [bind fst snd].
  assert (Hsize : destroySize (chain m new) = destroySize m + 1).
  { rewrite destroySize_chain. unfold new. cbn [destroySize].
    assert (E : match v with L_MEMBER Child => destroySize Child | _ => 0 end = 0).
    { destruct v as [|Child| | | | |]; try reflexivity.
      destruct Child as [|ca cka ck cv cn]; [discriminate Hnnew|].
      cbn [destroyOrder new] in Horder.
      apply (f_equal (@length nat)) in Horder.
      repeat (rewrite length_app in Horder; cbn [length] in Horder). lia. }
    rewrite E. lia. }
  assert (Hnnall : childrenNonNull (chain m new) = true).
  { rewrite childrenNonNull_chain, Hnn, Hnnew. reflexivity. }
  pose proof (proj1 Hholds) as Hnd. fold (addresses (chain m new)) in Hnd.
  rewrite chain_addresses, chain_nil in Hnd.
  assert (Haddr : addresses new = a :: ka :: map fst (blocksOfValue v)).
  { unfold addresses, new. cbn [blocksOfMember map fst]. rewrite app_nil_r.
    reflexivity. }
  assert (Hnda : List.NoDup (addresses new)) by exact (List.NoDup_app_remove_l _ _ Hnd).
  assert (Hpay : forall x, In x (map fst (blocksOfValue v)) -> x <> a /\ x <> ka).
  { rewrite Haddr in Hnda. intros x Hx.
    apply List.NoDup_cons_iff in Hnda as [Ha Hnda].
    apply List.NoDup_cons_iff in Hnda as [Hka _].
    split; intros ->; [apply Ha; right; exact Hx|apply Hka; exact Hx]. }
  assert (Hold : forall x, In x (addresses m) -> x <> a /\ x <> ka).
  { intros x Hx.
    split; intros ->; apply (NoDup_app_disjoint _ _ _ Hnd Hx); rewrite Haddr;
      [left|right; left]; reflexivity. }
  assert (Hnewblock : forall x b, In (x, b) (blocksOfValue v) -> h2 !! x = Some b).
  { intros x b Hin. apply (proj2 Hholds). apply chain_blocks. unfold new.
    cbn [blocksOfMember]. right. right. apply in_or_app. left. exact Hin. }
  assert (Hout : forall x, ~ In x (addresses m) -> x <> a -> x <> ka ->
                   ~ In x (map fst (blocksOfValue v)) -> h2 !! x = h !! x).
  { intros x H1 H2 H3 H4. apply Hframe. rewrite chain_addresses, chain_nil, Haddr.
    intros Hin. apply in_app_or in Hin as [Hin|[Hin|[Hin|Hin]]];
      [exact (H1 Hin)|exact (H2 (eq_sym Hin))|exact (H3 (eq_sym Hin))|exact (H4 Hin)]. }
  destruct m as [|a0 ka0 k0 v0 next0].
  - (* the new member is the only one *)
    cbn [chain] in *. unfold new at 1. cbn [ptrOf].
    rewrite (deleteJsonMember_first_run a ka k v L_nullptr h2 valid fuel Hnnall Hholds)
      by (fold new; change (destroySize L_nullptr) with 0 in Hsize, Hfuel; lia).
    fold new. rewrite Horder. eexists. split; [reflexivity|]. cbn [blocks freed ptrOf].
    split; [reflexivity|].
    split; [apply freeAll_lookup_in; right; left; reflexivity|].
    split; [apply freeAll_lookup_in; left; reflexivity|].
    split.
    + intros x b Hin.
      destruct (Hpay x (in_map fst _ _ Hin)) as [H1 H2].
      rewrite freeAll_lookup_notin by (simpl; intuition congruence).
      exact (Hnewblock x b Hin).
    + intros x H1 H2 H3.
      rewrite freeAll_lookup_notin by (simpl; intuition congruence).
      apply Hout; solve [assumption | intros []].
  - set (m := L_Node a0 ka0 k0 v0 next0) in *.
    destruct (last_split m ltac:(discriminate)) as (before & pa & pka & pk & pv & Em).
    assert (Echain : chain m new = chain before (L_Node pa pka pk pv new)).
    { rewrite Em, chain_assoc. reflexivity. }
    assert (Hptr : ptrOf (chain m new) = ptrOf m) by (apply ptrOf_chain; discriminate).
    rewrite <- Hptr.
    revert Hptr Hholds Hnnall Hsize. rewrite Echain. intros Hptr Hholds Hnnall Hsize.
    rewrite Em in Habsent.
    destruct (deleteJsonMember_found_run k a ka v L_nullptr pa pka pk pv before h2 valid
                fuel Hnnall Hholds Habsent ltac:(fold new; lia)) as [Hrun Hfresh].
    fold new in Hrun, Hfresh. rewrite Hrun, Horder.
    eexists. split; [reflexivity|]. cbn [blocks freed ptrOf].
    assert (Hpam : In (pa, BMember (mkMember (Some pka) (valueOf pv) None))
                     (blocksOfMember m)).
    { rewrite Em. apply chain_blocks. left. reflexivity. }
    assert (Hpain : In pa (addresses m)).
    { unfold addresses. apply (in_map fst _ _ Hpam). }
    split; [reflexivity|].
    split; [apply freeAll_lookup_in; right; left; reflexivity|].
    split; [apply freeAll_lookup_in; left; reflexivity|].
    split.
    + intros x b Hin.
      destruct (Hpay x (in_map fst _ _ Hin)) as [H1 H2].
      rewrite freeAll_lookup_notin by (simpl; intuition congruence).
      rewrite lookup_insert_ne.
      * exact (Hnewblock x b Hin).
      * intros <-. apply Hfresh. rewrite Haddr. right. right.
        exact (in_map fst _ _ Hin).
    + intros x H1 H2 H3.
      rewrite freeAll_lookup_notin by (simpl; intuition congruence).
      destruct (Nat.eq_dec x pa) as [->|Hxpa].
      * rewrite lookup_insert_eq. symmetry. exact (proj2 Hm _ _ Hpam).
      * rewrite lookup_insert_ne by congruence.
        destruct (in_dec Nat.eq_dec x (addresses m)) as [Hin|Hnot].
        -- unfold addresses in Hin. apply in_map_iff in Hin as [[y b] [E Hin]].
           cbn [fst] in E. subst y.
           rewrite (proj2 Hm _ _ Hin).
           apply (proj2 Hholds). apply blocks_cut; [exact Hxpa|].
           rewrite <- Em. exact Hin.
        -- apply Hout; assumption.
Qed.

(** X26.  Insertion followed by deletion, for the overloads with a
    number, a boolean and null.  On an object laid out in the heap, none
    of whose searched keys is [k], with [malloc] handing out addresses
    that are not in use and a block whose [Next] is null, inserting a member with the key [k] and
    then deleting the key [k] returns true and restores the heap block for
    block: the member list is the one before the insertion, with the
    [Next] of its last member null again, and the new member and the copy
    of its key have been passed to [free], the key first. *)
Theorem deleteJsonMember_after_addJsonMember (m : lmember) (h : gmap nat block)
  (valid : bool) (k : string) (a ka : nat) (junk : member) (fuel fuel' : nat) :
  holds h m ->
  childrenNonNull m = true ->
  h !! a = None -> h !! ka = None -> a <> ka ->
  Next junk = None ->
  ~ In k (objectKeys m) ->
  HeapInsert.listLength m <= fuel ->
  2 * destroySize m + 4 <= fuel' ->
  (forall Number,
     (let* p := HeapInsert.addJsonMemberNumber fuel (mkState h [])
                  (mkObject (ptrOf m) valid) (Some k) Number (Some a) junk (Some ka) in
      deleteJsonMember fuel' (fst p) (snd p) k)
     = Ok (mkState h [ka; a], mkObject (ptrOf m) valid, true))
  /\ (forall Boolean,
        (let* p := HeapInsert.addJsonMemberBoolean fuel (mkState h [])
                     (mkObject (ptrOf m) valid) (Some k) Boolean (Some a) junk (Some ka) in
         deleteJsonMember fuel' (fst p) (snd p) k)
        = Ok (mkState h [ka; a], mkObject (ptrOf m) valid, true))
  /\ (let* p := HeapInsert.addJsonMemberNull fuel (mkState h [])
                  (mkObject (ptrOf m) valid) (Some k) (Some a) junk (Some ka) in
      deleteJsonMember fuel' (fst p) (snd p) k)
     = Ok (mkState h [ka; a], mkObject (ptrOf m) valid, true).
Proof.
  intros Hm Hnn Ha Hka Hne Hjunk Habsent Hfuel Hfuel'.
  assert (Hback : forall v r,
             blocksOfValue v = [] ->
             destroyOrder (L_Node a ka k v L_nullptr) = [ka; a] ->
             childrenNonNull (L_Node a ka k v L_nullptr) = true ->
             HeapInsert.inserted h m valid (L_Node a ka k v L_nullptr) r ->
             (let* p := r in deleteJsonMember fuel' (fst p) (snd p) k)
             = Ok (mkState h [ka; a], mkObject (ptrOf m) valid, true)).
  { intros v r Hv Horder Hnnew Hins.
    destruct (delete_inserted h m valid a ka k v r fuel' Horder Hnnew Hnn Hm Habsent
                Hfuel' Hins) as (st & Hrun & Hfreed & Hba & Hbka & _ & Hrest).
    rewrite Hrun. destruct st as [h' log]. cbn [blocks freed] in *. subst log.
    replace h' with h; [reflexivity|].
    apply map_eq. intros x.
    destruct (Nat.eq_dec x a) as [->|Hxa]; [congruence|].
    destruct (Nat.eq_dec x ka) as [->|Hxka]; [congruence|].
    symmetry. apply Hrest; try assumption. rewrite Hv. intros []. }
  split; [|split].
  - intros Number. apply (Hback (L_NUMBER Number)); try reflexivity.
    unfold HeapInsert.addJsonMemberNumber, HeapInsert.setJsonMemberValueNumber,
      HeapInsert.mallocMember, HeapInsert.copyString.
    cbn [blocks freed]. rewrite (set_scalar h a ka k junk _ Hne). cbn [bind].
    apply (scalar_inserted h m valid a ka k junk (L_NUMBER Number) fuel);
      solve [assumption | reflexivity].
  - intros Boolean. apply (Hback (L_BOOLEAN Boolean)); try reflexivity.
    unfold HeapInsert.addJsonMemberBoolean, HeapInsert.setJsonMemberValueBoolean,
      HeapInsert.mallocMember, HeapInsert.copyString.
    cbn [blocks freed]. rewrite (set_scalar h a ka k junk _ Hne). cbn [bind].
    apply (scalar_inserted h m valid a ka k junk (L_BOOLEAN Boolean) fuel);
      solve [assumption | reflexivity].
  - apply (Hback L_NULL); try reflexivity.
    unfold HeapInsert.addJsonMemberNull, HeapInsert.setJsonMemberValueNull,
      HeapInsert.mallocMember, HeapInsert.copyString.
    cbn [blocks freed]. rewrite (set_scalar h a ka k junk _ Hne). cbn [bind].
    apply (scalar_inserted h m valid a ka k junk L_NULL fuel);
      solve [assumption | reflexivity].
Qed.

Lemma deleteJsonMember_after_addJsonMember_witness :
  let t := L_Node 1 2 "a" L_NULL L_nullptr in
  (let* p := HeapInsert.addJsonMemberNumber 1 (mkState (heapOf t) [])
               (mkObject (Some 1) true) (Some "b") 2 (Some 3)
               (mkMember (Some 9) (V_BOOLEAN 5) None) (Some 4) in
   deleteJsonMember 6 (fst p) (snd p) "b")
  = Ok (mkState (heapOf t) [4; 3], mkObject (Some 1) true, true).
Proof.
  intros t.
  assert (Hh : holds (heapOf t) t).
  { split.
    - simpl. repeat (apply List.NoDup_cons; [simpl; intuition discriminate|]).
      apply List.NoDup_nil.
    - intros a b Hin. simpl in Hin.
      repeat (destruct Hin as [Hin|Hin];
              [injection Hin as <- <-; vm_compute; reflexivity|]).
      contradiction. }
  exact (proj1 (deleteJsonMember_after_addJsonMember t (heapOf t) true "b" 3 4
                  (mkMember (Some 9) (V_BOOLEAN 5) None) 1 6
                  Hh eq_refl eq_refl eq_refl ltac:(discriminate) eq_refl
                  ltac:(simpl; intuition discriminate) (le_n 1) (le_n 6))
           2%float).
Defined.

(** X27.  Insertion followed by deletion, for the overload with a
    string.  With [malloc] handing out addresses that are not in use and
    a block whose [Next] is null, inserting a member with the key [k] and
    a string and then deleting the key [k] returns true with the member
    list as before the insertion, and with the new member and the copy of
    its key passed to
    [free]; the copy of the string that [copyString] made for the value
    is not passed to [free] and stays allocated, with nothing in the
    object pointing to it any more. *)
Theorem deleteJsonMember_keeps_string_copy (m : lmember) (h : gmap nat block)
  (valid : bool) (k s : string) (a ka sa : nat) (junk : member) (fuel fuel' : nat) :
  holds h m ->
  childrenNonNull m = true ->
  h !! a = None -> h !! ka = None -> a <> ka ->
  Next junk = None ->
  h !! sa = None -> sa <> a -> sa <> ka ->
  ~ In k (objectKeys m) ->
  HeapInsert.listLength m <= fuel ->
  2 * destroySize m + 4 <= fuel' ->
  (let* p := HeapInsert.addJsonMemberString fuel (mkState h [])
               (mkObject (ptrOf m) valid) (Some k) (Some s) (Some a) junk (Some ka)
               (Some sa) in
   deleteJsonMember fuel' (fst p) (snd p) k)
  = Ok (mkState (<[sa := BChars s]> h) [ka; a], mkObject (ptrOf m) valid, true).
Proof.
  intros Hm Hnn Ha Hka Hne Hjunk Hsa Hsa1 Hsa2 Habsent Hfuel Hfuel'.
  destruct (delete_inserted h m valid a ka k (L_STRING sa s) _ fuel' eq_refl eq_refl
              Hnn Hm Habsent Hfuel'
              (string_inserted h m valid a ka sa k s junk fuel Hm Ha Hka Hne Hjunk
                 Hsa Hsa1 Hsa2 Hfuel))
    as (st & Hrun & Hfreed & Hba & Hbka & Hcopy & Hrest).
  rewrite Hrun. destruct st as [h' log]. cbn [blocks freed] in *. subst log.
  replace h' with (<[sa := BChars s]> h); [reflexivity|].
  apply map_eq. intros x.
  destruct (Nat.eq_dec x sa) as [->|Hxsa].
  - rewrite lookup_insert_eq. symmetry. apply Hcopy. left. reflexivity.
  - rewrite lookup_insert_ne by congruence.
    destruct (Nat.eq_dec x a) as [->|Hxa]; [congruence|].
    destruct (Nat.eq_dec x ka) as [->|Hxka]; [congruence|].
    symmetry. apply Hrest; try assumption.
    cbn [blocksOfValue map fst]. intros [E|[]]. apply Hxsa. symmetry. exact E.
Qed.

Lemma deleteJsonMember_keeps_string_copy_witness :
  let t := L_Node 1 2 "a" L_NULL L_nullptr in
  (let* p := HeapInsert.addJsonMemberString 1 (mkState (heapOf t) [])
               (mkObject (Some 1) true) (Some "b") (Some "text") (Some 3)
               (mkMember (Some 9) (V_BOOLEAN 5) None) (Some 4) (Some 5) in
   deleteJsonMember 6 (fst p) (snd p) "b")
  = Ok (mkState (<[5 := BChars "text"]> (heapOf t)) [4; 3], mkObject (Some 1) true, true).
Proof.
  intros t.
  assert (Hh : holds (heapOf t) t).
  { split.
    - simpl. repeat (apply List.NoDup_cons; [simpl; intuition discriminate|]).
      apply List.NoDup_nil.
    - intros a b Hin. simpl in Hin.
      repeat (destruct Hin as [Hin|Hin];
              [injection Hin as <- <-; vm_compute; reflexivity|]).
      contradiction. }
  exact (deleteJsonMember_keeps_string_copy t (heapOf t) true "b" "text" 3 4 5
           (mkMember (Some 9) (V_BOOLEAN 5) None) 1 6
           Hh eq_refl eq_refl eq_refl ltac:(discriminate) eq_refl
           eq_refl ltac:(discriminate) ltac:(discriminate)
           ltac:(simpl; intuition discriminate) (le_n 1) (le_n 6)).
Defined.

End InsertDelete.
